(** * Shortcode: a shallow embedding of [src/index.js]

    The module under study recognises WordPress-style shortcodes
    ([[tag attr="v" 1]content[/tag]]) with two regular expressions, parses
    their attribute lists, and prints shortcode objects back to text.

    Layout of this development:
    - JavaScript strings as lists of UTF-16 code units;
    - the regular expressions of the source: syntax tree, the pattern
      compiler behind [new RegExp], and the backtracking matcher behind
      [RegExp.prototype.exec];
    - the object store (attribute objects are shared by reference, and both
      [_.memoize] caches live in it);
    - the functions of [src/index.js], in the order of the source;
    - the properties. *)

From Stdlib Require Import String Ascii NArith.
From stdpp Require Import base option list gmap.

Open Scope N_scope.
Open Scope nat_scope.
Open Scope list_scope.

(** ** Strings *)

(** A JavaScript string is a sequence of 16-bit code units. *)
Definition char := N.
Bind Scope N_scope with char.
Definition jstring := list char.

(** [js "abc"] is the JavaScript string with the code units of the ASCII
    literal. *)
Definition js (s : string) : jstring :=
  map N_of_ascii (list_ascii_of_string s).

Arguments js : simpl never.

(** The double quote, which a literal of this file cannot hold. *)
Definition dq : jstring := [34%N].

Definition char_in (lo hi c : N) : bool := (lo <=? c)%N && (c <=? hi)%N.

Definition is_digit (c : char) : bool := char_in 48 57 c.
Definition is_upper (c : char) : bool := char_in 65 90 c.
Definition is_lower (c : char) : bool := char_in 97 122 c.

(** [\w]: the 63 characters [A-Za-z0-9_]. *)
Definition is_word (c : char) : bool :=
  is_lower c || is_upper c || is_digit c || (c =? 95)%N.

(** [\s]: WhiteSpace and LineTerminator of ECMAScript. *)
Definition is_space (c : char) : bool :=
  char_in 9 13 c || (c =? 32)%N || (c =? 160)%N || (c =? 5760)%N
  || char_in 8192 8202 c || (c =? 8232)%N || (c =? 8233)%N
  || (c =? 8239)%N || (c =? 8287)%N || (c =? 12288)%N || (c =? 65279)%N.

Definition is_line_terminator (c : char) : bool :=
  (c =? 10)%N || (c =? 13)%N || (c =? 8232)%N || (c =? 8233)%N.

Definition jstring_eqb (a b : jstring) : bool := bool_decide (a = b).

(** [is_prefix p s] is [Some rest] when [s = p ++ rest]. *)
Fixpoint strip_prefix (p s : jstring) : option jstring :=
  match p, s with
  | [], _ => Some s
  | a :: p', b :: s' => if (a =? b)%N then strip_prefix p' s' else None
  | _ :: _, [] => None
  end.

(** ** Regular expressions *)

Inductive ClassItem :=
  | CChar (c : char)
  | CRange (lo hi : char)
  | CWord (pos : bool)      (* \w, \W *)
  | CDigit (pos : bool)     (* \d, \D *)
  | CSpace (pos : bool).    (* \s, \S *)

Inductive Regex :=
  | REmpty
  | RChar (c : char)
  | RAny
  | RClass (neg : bool) (items : list ClassItem)
  | RSeq (r1 r2 : Regex)
  | RAlt (r1 r2 : Regex)
  | RQuant (r : Regex) (min : nat) (max : option nat) (greedy : bool)
           (parenIndex parenCount : nat)
  | RGroup (n : nat) (r : Regex)
  | RLook (positive : bool) (r : Regex)
  | RBackref (n : nat)
  | RBol
  | REol
  | RWordB (positive : bool).

Definition item_matches (c : char) (i : ClassItem) : bool :=
  match i with
  | CChar d => (c =? d)%N
  | CRange lo hi => char_in lo hi c
  | CWord pos => if pos then is_word c else negb (is_word c)
  | CDigit pos => if pos then is_digit c else negb (is_digit c)
  | CSpace pos => if pos then is_space c else negb (is_space c)
  end.

Definition class_matches (neg : bool) (items : list ClassItem) (c : char) : bool :=
  xorb neg (existsb (item_matches c) items).

(** *** The matcher

    The matcher follows the continuation-passing semantics of ECMAScript
    (Pattern Semantics): a state is the position reached and the captures so
    far; a matcher takes a state and a continuation and answers with the final
    state or with failure ([None]).  The position is kept as the input still
    to be read, its index, and the character just before it. *)

Record MState := mkMState {
  ms_rest : jstring;
  ms_prev : option char;
  ms_end : nat;
  ms_caps : list (option jstring)   (* index 0 is the capture of group 1 *)
}.

Definition Cont := MState -> option MState.
Definition Matcher := MState -> Cont -> option MState.

Definition step_char (x : MState) (ok : char -> bool) (k : Cont) : option MState :=
  match ms_rest x with
  | c :: tl =>
      if ok c then k (mkMState tl (Some c) (S (ms_end x)) (ms_caps x)) else None
  | [] => None
  end.

Definition set_cap (n : nat) (v : option jstring) (caps : list (option jstring))
  : list (option jstring) :=
  <[pred n := v]> caps.

(** Captures [parenIndex+1 .. parenIndex+parenCount] are reset. *)
Fixpoint clear_caps (parenIndex parenCount : nat) (caps : list (option jstring))
  : list (option jstring) :=
  match parenCount with
  | 0 => caps
  | S c => clear_caps (S parenIndex) c (<[parenIndex := None]> caps)
  end.

Definition with_caps (x : MState) (caps : list (option jstring)) : MState :=
  mkMState (ms_rest x) (ms_prev x) (ms_end x) caps.

Definition last_char (s : jstring) (d : option char) : option char :=
  match last s with Some c => Some c | None => d end.

(** RepeatMatcher.  Once [min] has reached zero every further iteration
    consumes input, so a chain of iterations is never longer than
    [min + length rest]; [fuel] is that bound. *)
Fixpoint repeat_matcher (fuel : nat) (m : Matcher) (min : nat) (max : option nat)
    (greedy : bool) (parenIndex parenCount : nat) (x : MState) (k : Cont)
  : option MState :=
  match fuel with
  | 0 => None
  | S fuel' =>
      match max with
      | Some 0 => k x
      | _ =>
          let d : Cont := fun y =>
            if (min =? 0) && (ms_end y =? ms_end x) then None
            else repeat_matcher fuel' m (pred min) (pred <$> max) greedy
                   parenIndex parenCount y k in
          let xr := with_caps x (clear_caps parenIndex parenCount (ms_caps x)) in
          if negb (min =? 0) then m xr d
          else if greedy then
            match m xr d with
            | Some z => Some z
            | None => k x
            end
          else
            match k x with
            | Some z => Some z
            | None => m xr d
            end
      end
  end.

Definition is_word_opt (o : option char) : bool :=
  match o with Some c => is_word c | None => false end.

Fixpoint rmatch (r : Regex) (x : MState) (k : Cont) {struct r} : option MState :=
  match r with
  | REmpty => k x
  | RChar c => step_char x (fun d => (d =? c)%N) k
  | RAny => step_char x (fun d => negb (is_line_terminator d)) k
  | RClass neg items => step_char x (class_matches neg items) k
  | RSeq r1 r2 => rmatch r1 x (fun y => rmatch r2 y k)
  | RAlt r1 r2 =>
      match rmatch r1 x k with
      | Some z => Some z
      | None => rmatch r2 x k
      end
  | RQuant r1 min max greedy parenIndex parenCount =>
      repeat_matcher (S (min + length (ms_rest x))) (rmatch r1) min max greedy
        parenIndex parenCount x k
  | RGroup n r1 =>
      rmatch r1 x (fun y =>
        k (with_caps y
             (set_cap n (Some (take (ms_end y - ms_end x) (ms_rest x))) (ms_caps y))))
  | RLook positive r1 =>
      match rmatch r1 x Some with
      | Some y => if positive then k (with_caps x (ms_caps y)) else None
      | None => if positive then None else k x
      end
  | RBackref n =>
      match ms_caps x !! pred n with
      | Some (Some s) =>
          match strip_prefix s (ms_rest x) with
          | Some tl =>
              k (mkMState tl (last_char s (ms_prev x)) (ms_end x + length s) (ms_caps x))
          | None => None
          end
      | _ => k x
      end
  | RBol => match ms_prev x with None => k x | Some _ => None end
  | REol => match ms_rest x with [] => k x | _ :: _ => None end
  | RWordB positive =>
      let a := is_word_opt (ms_prev x) in
      let b := is_word_opt (head (ms_rest x)) in
      if eqb positive (xorb a b) then k x else None
  end.

(** *** [RegExp.prototype.exec]

    A successful match as [exec] reports it: [index], the matched text
    [m[0]], and the captures [m[1..n]] ([None] is [undefined]). *)
Record Match := mkMatch {
  m_index : nat;
  m_text : jstring;
  m_groups : list (option jstring)
}.

(** [m[i]] *)
Definition m_get (m : Match) (i : nat) : option jstring :=
  match i with
  | 0 => Some (m_text m)
  | S j => default None (m_groups m !! j)
  end.

(** The search loop of exec: the match is tried at each index from the
    current one up to and including the end of the input. *)
Fixpoint scan (re : Regex) (ngroups : nat) (prev : option char) (rest : jstring)
    (i : nat) : option (Match * nat) :=
  match rmatch re (mkMState rest prev i (replicate ngroups None)) Some with
  | Some y =>
      Some (mkMatch i (take (ms_end y - i) rest) (ms_caps y), ms_end y)
  | None =>
      match rest with
      | [] => None
      | c :: tl => scan re ngroups (Some c) tl (S i)
      end
  end.

(** A compiled pattern: its tree and the number of its capture groups. *)
Record Pattern := mkPattern { p_re : Regex; p_groups : nat }.

(** [exec] on a global pattern whose [lastIndex] is [lastIndex]: the result,
    and the [lastIndex] left behind (the end of the match, or 0 on failure). *)
Definition exec_global (p : Pattern) (text : jstring) (lastIndex : nat)
  : option Match * nat :=
  if length text <? lastIndex then (None, 0)
  else
    match scan (p_re p) (p_groups p) (last_char (take lastIndex text) None)
            (drop lastIndex text) lastIndex with
    | Some (m, e) => (Some m, e)
    | None => (None, 0)
    end.

(** [re.test(s)] for a pattern without flags. *)
Definition test (p : Pattern) (text : jstring) : bool :=
  match scan (p_re p) (p_groups p) None text 0 with
  | Some _ => true
  | None => false
  end.

(** *** The pattern compiler behind [new RegExp(source)]

    The source text is read left to right by a small machine.  Its state is
    the stack of the groups still open, each with the alternatives finished so
    far and the terms of the current one, and a mode for the tokens that span
    several characters (escapes, classes, the opening of a group).

    The syntax is that of ECMAScript without the [u] flag.  Named groups,
    lookbehind, braces, [\c], [\0] and octal escapes are outside the fragment:
    the compiler answers [Unsupported] for them, never a pattern. *)

Inductive CompileResult :=
  | Compiled (p : Pattern)
  | SyntaxError
  | Unsupported.

Inductive TermKind :=
  | TAtom          (* may take a quantifier *)
  | TQuantGreedy   (* quantified; a [?] right after makes it lazy *)
  | TFixed.        (* takes no quantifier *)

Inductive GroupKind :=
  | GTop
  | GCapture (n : nat)
  | GNonCapture
  | GLook (positive : bool).

Record Frame := mkFrame {
  f_kind : GroupKind;
  f_alts : list Regex;               (* finished alternatives, last first *)
  f_seq : list (Regex * TermKind)    (* terms of the current one, last first *)
}.

Record ClassState := mkClassState {
  cs_neg : bool;
  cs_items : list ClassItem;         (* last first *)
  cs_last : option ClassItem;        (* the atom a range may start from *)
  cs_dash : bool                     (* a [-] is waiting for its right end *)
}.

Inductive HexCtx := HNorm | HClass (cs : ClassState).

Inductive Mode :=
  | MNorm
  | MEsc
  | MDec (n : nat)
  | MHex (ctx : HexCtx) (remaining : nat) (acc : N)
  | MParen
  | MParenQ
  | MClassStart
  | MClass (cs : ClassState)
  | MClassEsc (cs : ClassState)
  | MFail (syntax : bool).

Record PState := mkPState {
  ps_cur : Frame;
  ps_stack : list Frame;
  ps_groups : nat;
  ps_maxref : nat;
  ps_mode : Mode
}.

Definition mk_seq (terms : list Regex) : Regex := foldr RSeq REmpty terms.

(** The disjunction of a frame: [a1 | (a2 | ... an)]. *)
Definition mk_alts (alts_rev : list Regex) (last_alt : Regex) : Regex :=
  fold_left (fun acc a => RAlt a acc) alts_rev last_alt.

Definition frame_regex (f : Frame) : Regex :=
  mk_alts (f_alts f) (mk_seq (rev (map fst (f_seq f)))).

Fixpoint groups_of (r : Regex) : list nat :=
  match r with
  | RSeq a b | RAlt a b => groups_of a ++ groups_of b
  | RQuant a _ _ _ _ _ | RLook _ a => groups_of a
  | RGroup n a => n :: groups_of a
  | _ => []
  end.

Definition paren_index (r : Regex) : nat :=
  match groups_of r with [] => 0 | n :: _ => pred n end.
Definition paren_count (r : Regex) : nat := length (groups_of r).

Definition set_mode (st : PState) (m : Mode) : PState :=
  mkPState (ps_cur st) (ps_stack st) (ps_groups st) (ps_maxref st) m.

Definition fail_syntax (st : PState) : PState := set_mode st (MFail true).
Definition fail_unsupported (st : PState) : PState := set_mode st (MFail false).

Definition push_term (st : PState) (r : Regex) (kd : TermKind) : PState :=
  let f := ps_cur st in
  mkPState (mkFrame (f_kind f) (f_alts f) ((r, kd) :: f_seq f))
    (ps_stack st) (ps_groups st) (ps_maxref st) MNorm.

Definition open_group (st : PState) (kd : GroupKind) (groups : nat) : PState :=
  mkPState (mkFrame kd [] []) (ps_cur st :: ps_stack st) groups (ps_maxref st) MNorm.

Definition close_group (st : PState) : PState :=
  match ps_stack st with
  | [] => fail_syntax st
  | parent :: stack =>
      let body := frame_regex (ps_cur st) in
      let r :=
        match f_kind (ps_cur st) with
        | GCapture n => RGroup n body
        | GLook positive => RLook positive body
        | _ => body
        end in
      mkPState (mkFrame (f_kind parent) (f_alts parent) ((r, TAtom) :: f_seq parent))
        stack (ps_groups st) (ps_maxref st) MNorm
  end.

Definition next_alt (st : PState) : PState :=
  let f := ps_cur st in
  mkPState (mkFrame (f_kind f) (mk_seq (rev (map fst (f_seq f))) :: f_alts f) [])
    (ps_stack st) (ps_groups st) (ps_maxref st) MNorm.

Definition quantify (st : PState) (min : nat) (max : option nat) : PState :=
  let f := ps_cur st in
  match f_seq f with
  | (r, TAtom) :: terms =>
      mkPState
        (mkFrame (f_kind f) (f_alts f)
           ((RQuant r min max true (paren_index r) (paren_count r), TQuantGreedy) :: terms))
        (ps_stack st) (ps_groups st) (ps_maxref st) MNorm
  | _ => fail_syntax st
  end.

(** [?]: the lazy mark after a quantifier, otherwise the quantifier {0,1}. *)
Definition question (st : PState) : PState :=
  let f := ps_cur st in
  match f_seq f with
  | (RQuant r min max _ pi pc, TQuantGreedy) :: terms =>
      mkPState
        (mkFrame (f_kind f) (f_alts f) ((RQuant r min max false pi pc, TFixed) :: terms))
        (ps_stack st) (ps_groups st) (ps_maxref st) MNorm
  | _ => quantify st 0 (Some 1)
  end.

Definition hex_value (c : char) : option N :=
  if is_digit c then Some (c - 48)%N
  else if char_in 97 102 c then Some (c - 87)%N
  else if char_in 65 70 c then Some (c - 55)%N
  else None.

(** The character a control escape ([\t \n \v \f \r]) stands for. *)
Definition control_escape (c : char) : option char :=
  if (c =? 116)%N then Some 9%N
  else if (c =? 110)%N then Some 10%N
  else if (c =? 118)%N then Some 11%N
  else if (c =? 102)%N then Some 12%N
  else if (c =? 114)%N then Some 13%N
  else None.

(** [\d \D \w \W \s \S] *)
Definition class_escape (c : char) : option ClassItem :=
  if (c =? 100)%N then Some (CDigit true)
  else if (c =? 68)%N then Some (CDigit false)
  else if (c =? 119)%N then Some (CWord true)
  else if (c =? 87)%N then Some (CWord false)
  else if (c =? 115)%N then Some (CSpace true)
  else if (c =? 83)%N then Some (CSpace false)
  else None.

(** One more atom of a character class. *)
Definition class_add (st : PState) (cs : ClassState) (a : ClassItem) : PState :=
  if cs_dash cs then
    match cs_last cs, a, cs_items cs with
    | Some (CChar lo), CChar hi, _ :: items =>
        if (lo <=? hi)%N
        then set_mode st (MClass (mkClassState (cs_neg cs) (CRange lo hi :: items) None false))
        else fail_syntax st
    | _, _, _ =>
        set_mode st
          (MClass (mkClassState (cs_neg cs) (a :: CChar 45 :: cs_items cs) None false))
    end
  else
    set_mode st (MClass (mkClassState (cs_neg cs) (a :: cs_items cs) (Some a) false)).

Definition class_step (st : PState) (cs : ClassState) (c : char) : PState :=
  if (c =? 93)%N then                                   (* ] *)
    let items := if cs_dash cs then CChar 45 :: cs_items cs else cs_items cs in
    push_term st (RClass (cs_neg cs) (rev items)) TAtom
  else if (c =? 92)%N then set_mode st (MClassEsc cs)   (* \ *)
  else if (c =? 45)%N then                              (* - *)
    match cs_last cs, cs_dash cs with
    | Some _, false =>
        set_mode st (MClass (mkClassState (cs_neg cs) (cs_items cs) (cs_last cs) true))
    | _, _ => class_add st cs (CChar c)
    end
  else class_add st cs (CChar c).

Definition class_esc_step (st : PState) (cs : ClassState) (c : char) : PState :=
  match class_escape c with
  | Some it => class_add st cs it
  | None =>
      match control_escape c with
      | Some d => class_add st cs (CChar d)
      | None =>
          if (c =? 98)%N then class_add st cs (CChar 8)          (* \b *)
          else if (c =? 120)%N then set_mode st (MHex (HClass cs) 2 0)
          else if (c =? 117)%N then set_mode st (MHex (HClass cs) 4 0)
          else if (c =? 99)%N || is_digit c then fail_unsupported st
          else class_add st cs (CChar c)
      end
  end.

Definition esc_step (st : PState) (c : char) : PState :=
  match class_escape c with
  | Some it => push_term st (RClass false [it]) TAtom
  | None =>
      match control_escape c with
      | Some d => push_term st (RChar d) TAtom
      | None =>
          if (c =? 98)%N then push_term st (RWordB true) TFixed        (* \b *)
          else if (c =? 66)%N then push_term st (RWordB false) TFixed  (* \B *)
          else if (c =? 120)%N then set_mode st (MHex HNorm 2 0)
          else if (c =? 117)%N then set_mode st (MHex HNorm 4 0)
          else if (c =? 99)%N || (c =? 48)%N then fail_unsupported st
          else if is_digit c then set_mode st (MDec (N.to_nat (c - 48)))
          else push_term st (RChar c) TAtom
      end
  end.

Definition hex_step (st : PState) (ctx : HexCtx) (remaining : nat) (acc : N) (c : char)
  : PState :=
  match hex_value c with
  | None => fail_unsupported st
  | Some v =>
      let acc' := (16 * acc + v)%N in
      match remaining with
      | 0 | 1 =>
          match ctx with
          | HNorm => push_term st (RChar acc') TAtom
          | HClass cs => class_add st cs (CChar acc')
          end
      | S r => set_mode st (MHex ctx r acc')
      end
  end.

Definition norm_step (st : PState) (c : char) : PState :=
  if (c =? 92)%N then set_mode st MEsc                    (* \ *)
  else if (c =? 91)%N then set_mode st MClassStart        (* [ *)
  else if (c =? 40)%N then set_mode st MParen             (* ( *)
  else if (c =? 41)%N then close_group st                 (* ) *)
  else if (c =? 124)%N then next_alt st                   (* | *)
  else if (c =? 42)%N then quantify st 0 None             (* * *)
  else if (c =? 43)%N then quantify st 1 None             (* + *)
  else if (c =? 63)%N then question st                    (* ? *)
  else if (c =? 123)%N then fail_unsupported st           (* { *)
  else if (c =? 94)%N then push_term st RBol TFixed       (* ^ *)
  else if (c =? 36)%N then push_term st REol TFixed       (* $ *)
  else if (c =? 46)%N then push_term st RAny TAtom        (* . *)
  else push_term st (RChar c) TAtom.

Definition backref (st : PState) (n : nat) : PState :=
  let st' := push_term st (RBackref n) TAtom in
  mkPState (ps_cur st') (ps_stack st') (ps_groups st') (max n (ps_maxref st')) MNorm.

Definition pstep (st : PState) (c : char) : PState :=
  match ps_mode st with
  | MFail _ => st
  | MNorm => norm_step st c
  | MEsc => esc_step st c
  | MDec n =>
      if is_digit c then set_mode st (MDec (10 * n + N.to_nat (c - 48)))
      else norm_step (backref st n) c
  | MHex ctx remaining acc => hex_step st ctx remaining acc c
  | MParen =>
      if (c =? 63)%N then set_mode st MParenQ
      else norm_step (open_group st (GCapture (S (ps_groups st))) (S (ps_groups st))) c
  | MParenQ =>
      if (c =? 58)%N then open_group st GNonCapture (ps_groups st)        (* (?: *)
      else if (c =? 61)%N then open_group st (GLook true) (ps_groups st)  (* (?= *)
      else if (c =? 33)%N then open_group st (GLook false) (ps_groups st) (* (?! *)
      else if (c =? 60)%N then fail_unsupported st                        (* (?< *)
      else fail_syntax st
  | MClassStart =>
      if (c =? 94)%N then set_mode st (MClass (mkClassState true [] None false))
      else class_step st (mkClassState false [] None false) c
  | MClass cs => class_step st cs c
  | MClassEsc cs => class_esc_step st cs c
  end.

Definition pinit : PState := mkPState (mkFrame GTop [] []) [] 0 0 MNorm.

Definition pfinish (st : PState) : CompileResult :=
  let done (st : PState) :=
    match ps_stack st with
    | [] =>
        if ps_maxref st <=? ps_groups st
        then Compiled (mkPattern (frame_regex (ps_cur st)) (ps_groups st))
        else Unsupported
    | _ :: _ => SyntaxError
    end in
  match ps_mode st with
  | MNorm => done st
  | MDec n => done (backref st n)
  | MFail true => SyntaxError
  | MFail false | MHex _ _ _ => Unsupported
  | _ => SyntaxError
  end.

(** [new RegExp(source)] *)
Definition compile (source : jstring) : CompileResult :=
  pfinish (fold_left pstep source pinit).

(** ** Values and the object store *)

(** The values the module handles: [undefined], strings, array indices and
    lengths (non-negative integers), and references to objects. *)
Inductive Val :=
  | VUndef
  | VStr (s : jstring)
  | VNum (n : N)
  | VRef (l : nat).

(** An object of the store: a plain object with its own properties in
    enumeration order, an array, or a [RegExp] with its [lastIndex]. *)
Inductive Cell :=
  | CObj (props : list (jstring * Val))
  | CArr (elems : list Val)
  | CRegExp (p : Pattern) (lastIndex : nat).

(** The store, and the caches of the two [_.memoize]d functions, keyed by
    their argument. *)
Record World := mkWorld {
  w_heap : list Cell;
  w_regexp : gmap jstring nat;
  w_attrs : gmap jstring nat
}.

Definition empty_world : World := mkWorld [] ∅ ∅.

Inductive Exn := ESyntaxError | ETypeError.

(** The outcome of a call: a value, an exception, a step outside the
    modelled fragment, or the bound on the recursion reached. *)
Inductive Res (A : Type) :=
  | Ok (a : A)
  | Throw (e : Exn)
  | Beyond
  | NoFuel.
Arguments Ok {A} a.
Arguments Throw {A} e.
Arguments Beyond {A}.
Arguments NoFuel {A}.

(** Computations on the store. *)
Definition M (A : Type) : Type := World -> Res A * World.

Definition ret {A} (a : A) : M A := fun w => (Ok a, w).

Definition bind {A B} (c : M A) (k : A -> M B) : M B :=
  fun w =>
    match c w with
    | (Ok a, w') => k a w'
    | (Throw e, w') => (Throw e, w')
    | (Beyond, w') => (Beyond, w')
    | (NoFuel, w') => (NoFuel, w')
    end.

Notation "'let*' x ':=' c 'in' k" := (bind c (fun x => k))
  (at level 10, x name, c at level 100, k at level 200).

Definition throw {A} (e : Exn) : M A := fun w => (Throw e, w).
Definition beyond {A} : M A := fun w => (Beyond, w).

Definition alloc (c : Cell) : M nat :=
  fun w => (Ok (length (w_heap w)),
            mkWorld (w_heap w ++ [c]) (w_regexp w) (w_attrs w)).

Definition load (l : nat) : M Cell :=
  fun w => match w_heap w !! l with
           | Some c => (Ok c, w)
           | None => (Beyond, w)
           end.

Definition store (l : nat) (c : Cell) : M unit :=
  fun w => (Ok tt, mkWorld (<[l := c]> (w_heap w)) (w_regexp w) (w_attrs w)).

(** *** Numbers as property names *)

Fixpoint uint_chars (d : Decimal.uint) : jstring :=
  match d with
  | Decimal.Nil => []
  | Decimal.D0 d => 48%N :: uint_chars d
  | Decimal.D1 d => 49%N :: uint_chars d
  | Decimal.D2 d => 50%N :: uint_chars d
  | Decimal.D3 d => 51%N :: uint_chars d
  | Decimal.D4 d => 52%N :: uint_chars d
  | Decimal.D5 d => 53%N :: uint_chars d
  | Decimal.D6 d => 54%N :: uint_chars d
  | Decimal.D7 d => 55%N :: uint_chars d
  | Decimal.D8 d => 56%N :: uint_chars d
  | Decimal.D9 d => 57%N :: uint_chars d
  end.

(** ToString of a non-negative integer. *)
Definition dec_string (n : N) : jstring := uint_chars (N.to_uint n).

Definition digits_value (s : jstring) : N :=
  fold_left (fun acc c => (10 * acc + (c - 48))%N) s 0%N.

(** A property name is an array index when it is the canonical decimal
    spelling of an integer below 2^32 - 1. *)
Definition array_index (k : jstring) : option N :=
  let n := digits_value k in
  if forallb is_digit k && jstring_eqb (dec_string n) k && (n <=? 4294967294)%N
  then Some n else None.

(** ToString, for the primitives. *)
Definition to_string (v : Val) : option jstring :=
  match v with
  | VUndef => Some (js "undefined")
  | VStr s => Some s
  | VNum n => Some (dec_string n)
  | VRef _ => None
  end.

(** ToBoolean *)
Definition truthy (v : Val) : bool :=
  match v with
  | VUndef => false
  | VStr s => negb (jstring_eqb s [])
  | VNum n => negb (n =? 0)%N
  | VRef _ => true
  end.

Definition of_capture (o : option jstring) : Val :=
  match o with Some s => VStr s | None => VUndef end.

(** *** Plain objects *)

Fixpoint prop_get (props : list (jstring * Val)) (k : jstring) : option Val :=
  match props with
  | [] => None
  | (k', v) :: rest => if jstring_eqb k' k then Some v else prop_get rest k
  end.

Fixpoint prop_update (props : list (jstring * Val)) (k : jstring) (v : Val)
  : list (jstring * Val) :=
  match props with
  | [] => []
  | (k', v') :: rest =>
      if jstring_eqb k' k then (k', v) :: rest else (k', v') :: prop_update rest k v
  end.

(** A new array-index key goes before the first key that is not an array
    index or is a larger one; any other new key goes last.  This is the
    order in which the own keys of an object are enumerated. *)
Fixpoint prop_insert_index (props : list (jstring * Val)) (n : N) (k : jstring) (v : Val)
  : list (jstring * Val) :=
  match props with
  | [] => [(k, v)]
  | (k', v') :: rest =>
      match array_index k' with
      | Some n' =>
          if (n' <? n)%N then (k', v') :: prop_insert_index rest n k v
          else (k, v) :: props
      | None => (k, v) :: props
      end
  end.

(** [obj[k] = v] on a plain object.  The name [__proto__] is the accessor of
    [Object.prototype]: assigning to it adds no property. *)
Definition prop_set (props : list (jstring * Val)) (k : jstring) (v : Val)
  : list (jstring * Val) :=
  if jstring_eqb k (js "__proto__") then props
  else
    match prop_get props k with
    | Some _ => prop_update props k v
    | None =>
        match array_index k with
        | Some n => prop_insert_index props n k v
        | None => props ++ [(k, v)]
        end
    end.

(** The largest array index, 2^32 - 2. *)
Definition max_array_index : N := 4294967294.

(** The elements after the one at the index [n] was given the value [v]:
    past the end the array grows, the gap reading [undefined]. *)
Definition arr_put (elems : list Val) (n : nat) (v : Val) : list Val :=
  if n <? length elems then <[n := v]> elems
  else elems ++ replicate (n - length elems) VUndef ++ [v].

(** [arr[n] = v] for a number [n].  Up to [max_array_index] the number is
    an array index and the element is written.  A larger number is not: the
    assignment adds a plain property to the array and leaves its length
    alone, which the arrays of this store cannot hold ([None]). *)
Definition arr_set (elems : list Val) (n : N) (v : Val) : option (list Val) :=
  if (n <=? max_array_index)%N then Some (arr_put elems (N.to_nat n) v) else None.

(** [_.keys(x)] *)
Definition keys_of (c : Cell) : list jstring :=
  match c with
  | CObj props => map fst props
  | CArr elems => map (fun i => dec_string (N.of_nat i)) (seq 0 (length elems))
  | CRegExp _ _ => []
  end.

(** The (key, value) pairs [_.each(x, f)] hands to [f], in order.  A string
    or an array is walked by index, and so is an object whose [length] is a
    number; any other object is walked by its own keys. *)
Definition entries_of_cell (c : Cell) : list (Val * Val) :=
  match c with
  | CArr elems => imap (fun i v => (VNum (N.of_nat i), v)) elems
  | CObj props =>
      match prop_get props (js "length") with
      | Some (VNum n) =>
          map (fun i => (VNum (N.of_nat i),
                         default VUndef (prop_get props (dec_string (N.of_nat i)))))
              (seq 0 (N.to_nat n))
      | _ => map (fun kv => (VStr (fst kv), snd kv)) props
      end
  | CRegExp _ _ => []
  end.

Definition entries_of (v : Val) : M (list (Val * Val)) :=
  match v with
  | VRef l => let* c := load l in ret (entries_of_cell c)
  | VStr s => ret (imap (fun i c => (VNum (N.of_nat i), VStr [c])) s)
  | _ => ret []
  end.

Definition lift {A} (o : option A) : M A :=
  match o with Some a => ret a | None => beyond end.

(** A loop over a list, threading an accumulator. *)
Fixpoint foldM {A B} (f : B -> A -> M B) (l : list A) (b : B) : M B :=
  match l with
  | [] => ret b
  | a :: l' => let* b' := f b a in foldM f l' b'
  end.

(** [_.memoize(f)], for [f] returning an object: the cache is looked up by
    the argument; on a miss [f] runs and its result is recorded.  Nothing is
    recorded when [f] throws. *)
Definition memoize (cache : World -> gmap jstring nat)
    (record : jstring -> nat -> World -> World) (f : jstring -> M nat)
    (arg : jstring) : M nat :=
  fun w =>
    match cache w !! arg with
    | Some l => (Ok l, w)
    | None =>
        match f arg w with
        | (Ok l, w') => (Ok l, record arg l w')
        | other => other
        end
    end.

Definition record_regexp (k : jstring) (l : nat) (w : World) : World :=
  mkWorld (w_heap w) (<[k := l]> (w_regexp w)) (w_attrs w).

Definition record_attrs (k : jstring) (l : nat) (w : World) : World :=
  mkWorld (w_heap w) (w_regexp w) (<[k := l]> (w_attrs w)).

(** ** Library functions on strings *)

(** [String.prototype.toLowerCase], as far as the module uses it: on the
    captures of [\w+], which hold ASCII letters, digits and underscores. *)
Definition toLowerCase (s : jstring) : jstring :=
  map (fun c => if is_upper c then (c + 32)%N else c) s.

(** [text.replace(p, repl)] for a global pattern [p] and a replacement
    without [$]: every match, found left to right, is replaced; after an
    empty match the search resumes one character further. *)
Fixpoint replace_loop (fuel : nat) (p : Pattern) (text repl : jstring)
    (lastIndex copied : nat) (acc : jstring) : option jstring :=
  match fuel with
  | 0 => None
  | S fuel' =>
      match exec_global p text lastIndex with
      | (None, _) => Some (acc ++ drop copied text)
      | (Some m, e) =>
          replace_loop fuel' p text repl
            (if e =? m_index m then S e else e) e
            (acc ++ take (m_index m - copied) (drop copied text) ++ repl)
      end
  end.

Definition replace_global (p : Pattern) (text repl : jstring) : option jstring :=
  replace_loop (S (S (length text))) p text repl 0 0 [].

Definition pattern_of (source : jstring) : Pattern :=
  match compile source with
  | Compiled p => p
  | _ => mkPattern REmpty 0
  end.

(** ** The module *)

(** A shortcode object: the fields [tag], [attrs], [type] and [content].
    After construction [attrs] always refers to an object of the store. *)
Record ShortcodeObj := mkShortcode {
  sc_tag : Val;
  sc_attrs : nat;
  sc_type : Val;
  sc_content : Val
}.

(** The [options] of the constructor; an absent field is [undefined]. *)
Record Options := mkOptions {
  o_tag : Val;
  o_attrs : Val;
  o_type : Val;
  o_content : Val
}.

Definition strict_eq_str (v : Val) (s : jstring) : bool :=
  match v with VStr t => jstring_eqb t s | _ => false end.

(** [args[i]] of an array of arguments or of a match. *)
Definition arg (args : list Val) (i : nat) : Val := default VUndef (args !! i).

(** The array [exec] returns, as [fromMatch] reads it. *)
Definition match_array (m : Match) : list Val :=
  VStr (m_text m) :: map of_capture (m_groups m).

Module Shortcode.

(** The source text handed to [new RegExp] (the string literal of the
    source, its escapes resolved). *)
Definition regexp_source (tag : jstring) : jstring :=
  js "\[(\[?)(" ++ tag ++
  js ")(?![\w-])([^\]\/]*(?:\/(?!\])[^\]\/]*)*?)(?:(\/)\]|\](?:([^\[]*(?:\[(?!\/\2\])[^\[]*)*)(\[\/\2\]))?)(\]?)".

(** [Shortcode.regexp]: the pattern object for [tag], created on the first
    call for that tag and shared by all later ones. *)
Definition regexp : jstring -> M nat :=
  memoize w_regexp record_regexp (fun tag =>
    match compile (regexp_source tag) with
    | Compiled p => alloc (CRegExp p 0)
    | SyntaxError => throw ESyntaxError
    | Unsupported => beyond
    end).

(** The pattern of the attribute list, from [shortcode_parse_atts()]. *)
Definition attrs_pattern_source : jstring :=
  js "(\w+)\s*=\s*" ++ dq ++ js "([^" ++ dq ++ js "]*)" ++ dq ++
  js "(?:\s|$)|(\w+)\s*=\s*\'([^\']*)\'(?:\s|$)|(\w+)\s*=\s*([^\s\'" ++ dq ++
  js "]+)(?:\s|$)|" ++ dq ++ js "([^" ++ dq ++ js "]*)" ++ dq ++
  js "(?:\s|$)|(\S+)(?:\s|$)".

Definition attrs_pattern : Pattern :=
  Eval vm_compute in pattern_of attrs_pattern_source.

(** The pattern of [text.replace]: the class of U+00A0 and U+200B, global. *)
Definition spaces_pattern : Pattern :=
  Eval vm_compute in pattern_of (js "[\u00a0\u200b]").

(** A capture that is a non-empty string. *)
Definition nonempty (o : option jstring) : option jstring :=
  match o with
  | Some (c :: s) => Some (c :: s)
  | _ => None
  end.

(** The [while] loop of [attrs]: one [exec] per round, from the
    [lastIndex] the previous one left. *)
Fixpoint attrs_loop (fuel : nat) (text : jstring) (lastIndex : nat)
    (named : list (jstring * Val)) (numeric : list Val)
  : option (list (jstring * Val) * list Val) :=
  match fuel with
  | 0 => None
  | S fuel' =>
      match exec_global attrs_pattern text lastIndex with
      | (None, _) => Some (named, numeric)
      | (Some m, lastIndex') =>
          let next := attrs_loop fuel' text lastIndex' in
          match nonempty (m_get m 1), nonempty (m_get m 3), nonempty (m_get m 5),
                nonempty (m_get m 7), nonempty (m_get m 8) with
          | Some k, _, _, _, _ =>
              next (prop_set named (toLowerCase k) (of_capture (m_get m 2))) numeric
          | None, Some k, _, _, _ =>
              next (prop_set named (toLowerCase k) (of_capture (m_get m 4))) numeric
          | None, None, Some k, _, _ =>
              next (prop_set named (toLowerCase k) (of_capture (m_get m 6))) numeric
          | None, None, None, Some v, _ => next named (numeric ++ [VStr v])
          | None, None, None, None, Some v => next named (numeric ++ [VStr v])
          | None, None, None, None, None => next named numeric
          end
      end
  end.

(** The function under [_.memoize] in [Shortcode.attrs]. *)
Definition attrs_body (text : jstring) : M nat :=
  match replace_global spaces_pattern text (js " ") with
  | None => fun w => (NoFuel, w)
  | Some text' =>
      match attrs_loop (S (length text')) text' 0 [] [] with
      | None => fun w => (NoFuel, w)
      | Some (named, numeric) =>
          let* ln := alloc (CObj named) in
          let* lm := alloc (CArr numeric) in
          alloc (CObj [(js "named", VRef ln); (js "numeric", VRef lm)])
      end
  end.

(** [Shortcode.attrs] *)
Definition attrs : jstring -> M nat := memoize w_attrs record_attrs attrs_body.

Module prototype.

Definition is_number (v : Val) : bool :=
  match v with VNum _ => true | _ => false end.

Definition bucket_name (attr : Val) : jstring :=
  if is_number attr then js "numeric" else js "named".

(** [this.attrs[...]]: the bucket [attr] is routed to. *)
Definition bucket (this : ShortcodeObj) (attr : Val) : M Val :=
  let* a := load (sc_attrs this) in
  match a with
  | CObj props => ret (default VUndef (prop_get props (bucket_name attr)))
  | _ => beyond
  end.

(** [Shortcode.prototype.get].  A name that the bucket does not own reads
    [undefined]; the members inherited from [Object.prototype] are left out. *)
Definition get (this : ShortcodeObj) (attr : Val) : M Val :=
  let* b := bucket this attr in
  match b with
  | VRef lb =>
      let* c := load lb in
      match c, attr with
      | CObj props, _ =>
          let* k := lift (to_string attr) in
          ret (default VUndef (prop_get props k))
      | CArr elems, VNum n => ret (default VUndef (elems !! N.to_nat n))
      | _, _ => beyond
      end
  | VUndef => throw ETypeError
  | _ => beyond
  end.

(** [Shortcode.prototype.set]: the bucket itself is written to. *)
Definition set (this : ShortcodeObj) (attr value : Val) : M ShortcodeObj :=
  let* b := bucket this attr in
  match b with
  | VRef lb =>
      let* c := load lb in
      match c, attr with
      | CObj props, _ =>
          let* k := lift (to_string attr) in
          let* _ := store lb (CObj (prop_set props k value)) in
          ret this
      | CArr elems, VNum n =>
          let* elems' := lift (arr_set elems n value) in
          let* _ := store lb (CArr elems') in
          ret this
      | _, _ => beyond
      end
  | _ => throw ETypeError     (* no property can be set on a primitive *)
  end.

(** [/\s/] *)
Definition space_pattern : Pattern := Eval vm_compute in pattern_of (js "\s").

Definition string_numeric (text : jstring) (kv : Val * Val) : M jstring :=
  let* value := lift (to_string (snd kv)) in
  if test space_pattern value
  then ret (text ++ js " " ++ dq ++ value ++ dq)
  else ret (text ++ js " " ++ value).

Definition string_named (text : jstring) (kv : Val * Val) : M jstring :=
  let* name := lift (to_string (fst kv)) in
  let* value := lift (to_string (snd kv)) in
  ret (text ++ js " " ++ name ++ js "=" ++ dq ++ value ++ dq).

(** [Shortcode.prototype.string] *)
Definition string (this : ShortcodeObj) : M jstring :=
  let* tag := lift (to_string (sc_tag this)) in
  let text := js "[" ++ tag in
  let* a := load (sc_attrs this) in
  match a with
  | CObj props =>
      let* numeric := entries_of (default VUndef (prop_get props (js "numeric"))) in
      let* text := foldM string_numeric numeric text in
      let* named := entries_of (default VUndef (prop_get props (js "named"))) in
      let* text := foldM string_named named text in
      if strict_eq_str (sc_type this) (js "single") then ret (text ++ js "]")
      else if strict_eq_str (sc_type this) (js "self-closing") then ret (text ++ js " /]")
      else
        let text := text ++ js "]" in
        let* text :=
          if truthy (sc_content this)
          then let* content := lift (to_string (sc_content this)) in ret (text ++ content)
          else ret text in
        ret (text ++ js "[/" ++ tag ++ js "]")
  | _ => beyond
  end.

End prototype.

Definition with_attrs (this : ShortcodeObj) (l : nat) : ShortcodeObj :=
  mkShortcode (sc_tag this) l (sc_type this) (sc_content this).

(** The constructor [Shortcode(options)]. *)
Definition construct (options : Options) : M ShortcodeObj :=
  let* ln := alloc (CObj []) in
  let* lm := alloc (CArr []) in
  let* la := alloc (CObj [(js "named", VRef ln); (js "numeric", VRef lm)]) in
  let this := mkShortcode (o_tag options) la (o_type options) (o_content options) in
  if negb (truthy (o_attrs options)) then ret this
  else
    match o_attrs options with
    | VStr s =>
        let* l := attrs s in
        ret (with_attrs this l)
    | VRef l =>
        let* c := load l in
        if bool_decide (keys_of c = [js "named"; js "numeric"])
        then ret (with_attrs this l)
        else
          let* entries := entries_of (VRef l) in
          foldM (fun this kv => prototype.set this (fst kv) (snd kv)) entries this
    | _ => ret this
    end.

(** [Shortcode.fromMatch] *)
Definition fromMatch (m : list Val) : M ShortcodeObj :=
  let type :=
    if truthy (arg m 4) then js "self-closing"
    else if truthy (arg m 6) then js "closed"
    else js "single" in
  construct (mkOptions (arg m 2) (arg m 3) (VStr type) (arg m 5)).

(** What [Shortcode.next] reports. *)
Record NextResult := mkNextResult {
  index : nat;
  content : jstring;
  shortcode : ShortcodeObj
}.

(** [re.lastIndex = i; match = re.exec(text)] on the shared pattern object. *)
Definition exec_at (re : nat) (text : jstring) (i : nat) : M (option Match * nat) :=
  let* c := load re in
  match c with
  | CRegExp p _ =>
      let r := exec_global p text i in
      let* _ := store re (CRegExp p (snd r)) in
      ret r
  | _ => beyond
  end.

Fixpoint next_from (fuel : nat) (tag text : jstring) (start : option nat)
  : M (option NextResult) :=
  match fuel with
  | 0 => fun w => (NoFuel, w)
  | S fuel' =>
      let* re := regexp tag in
      let* r := exec_at re text (default 0 start) in
      match fst r with
      | None => ret None
      | Some m =>
          if strict_eq_str (of_capture (m_get m 1)) (js "[")
             && strict_eq_str (of_capture (m_get m 7)) (js "]")
          then next_from fuel' tag text (Some (snd r))
          else
            let* sc := fromMatch (match_array m) in
            let result := mkNextResult (m_index m) (m_text m) sc in
            let result :=
              if truthy (of_capture (m_get m 1))
              then mkNextResult (S (index result)) (drop 1 (content result)) sc
              else result in
            let result :=
              if truthy (of_capture (m_get m 7))
              then mkNextResult (index result)
                     (take (length (content result) - 1) (content result)) sc
              else result in
            ret (Some result)
      end
  end.

(** [Shortcode.next(tag, text, index)].  Every recursive call starts at the
    end of a match that holds at least the two opening brackets, so there
    are fewer of them than characters. *)
Definition next (tag text : jstring) (start : option nat) : M (option NextResult) :=
  next_from (S (length text)) tag text start.

(** What one run of the callback of [replace] did: the value it returned
    and the calls of [replacer] it made, each with the shortcode object and
    the [done] handle passed. *)
Record CallbackRun := mkCallbackRun {
  returned : Val;
  replacer_calls : list (ShortcodeObj * Val)
}.

(** The caller's replacer: given the shortcode object and [done], it
    returns some value. *)
Definition Replacer := ShortcodeObj -> Val -> M Val.

(** The function [replace] hands to [asyncReplace]; [args] is its
    [arguments]: the match, the seven captures, the offset, the text, [done]. *)
Definition replace_callback (replacer : Replacer) (args : list Val) : M CallbackRun :=
  let matched := arg args 0 in
  let left := arg args 1 in
  let right := arg args 7 in
  let done := arg args 10 in
  if strict_eq_str left (js "[") && strict_eq_str right (js "]")
  then ret (mkCallbackRun matched [])
  else
    let* sc := fromMatch args in
    let* result := replacer sc done in
    ret (mkCallbackRun VUndef [(sc, done)]).

(** [Shortcode.replace].  [asyncReplace] is the function of the package
    [async-replace]; it is a parameter here. *)
Definition replace {R : Type}
    (asyncReplace : jstring -> nat -> (list Val -> M CallbackRun) -> Val -> M R)
    (tag text : jstring) (replacer : Replacer) (callback : Val) : M R :=
  let* re := regexp tag in
  asyncReplace text re (replace_callback replacer) callback.

(** [Shortcode.string] *)
Definition string (options : Options) : M jstring :=
  let* this := construct options in
  prototype.string this.

End Shortcode.

(** * Properties *)

(** ** Reading the store *)

(** The contents of an attribute object [{named, numeric}]: the properties
    of its [named] object in enumeration order, and the elements of its
    [numeric] array. *)
Definition attrs_view (w : World) (l : nat)
  : option (list (jstring * Val) * list Val) :=
  match w_heap w !! l with
  | Some (CObj props) =>
      match prop_get props (js "named"), prop_get props (js "numeric") with
      | Some (VRef ln), Some (VRef lm) =>
          match w_heap w !! ln, w_heap w !! lm with
          | Some (CObj named), Some (CArr numeric) => Some (named, numeric)
          | _, _ => None
          end
      | _, _ => None
      end
  | _ => None
  end.

(** The world after the constructor has made its default attribute object:
    an empty [named], an empty [numeric], and the object holding both. *)
Definition with_default_attrs (w : World) : World :=
  mkWorld
    (w_heap w ++ [CObj []; CArr [];
                  CObj [(js "named", VRef (length (w_heap w)));
                        (js "numeric", VRef (S (length (w_heap w))))]])
    (w_regexp w) (w_attrs w).

Definition default_attrs_loc (w : World) : nat := S (S (length (w_heap w))).

Lemma bind_ok {A B} (c : M A) (k : A -> M B) w a w' :
  c w = (Ok a, w') -> bind c k w = k a w'.
Proof. intros H. unfold bind. by rewrite H. Qed.

Lemma bind_not_ok {A B} (c : M A) (k : A -> M B) w r w' :
  c w = (r, w') -> (forall a, r <> Ok a) ->
  exists r', bind c k w = (r', w') /\ forall b, r' <> Ok b.
Proof.
  intros H Hr. unfold bind. rewrite H.
  destruct r; [by destruct (Hr a) | ..]; eexists; split; try done.
Qed.

Lemma lookup_snoc_0 {A} (h : list A) (a : A) rest : (h ++ a :: rest) !! length h = Some a.
Proof. by rewrite list_lookup_middle. Qed.

Lemma lookup_snoc_1 {A} (h : list A) (a b : A) rest :
  (h ++ a :: b :: rest) !! S (length h) = Some b.
Proof.
  replace (h ++ a :: b :: rest) with ((h ++ [a]) ++ b :: rest) by by rewrite <- app_assoc.
  apply list_lookup_middle. rewrite length_app. simpl. lia.
Qed.

Lemma lookup_snoc_2 {A} (h : list A) (a b c : A) rest :
  (h ++ a :: b :: c :: rest) !! S (S (length h)) = Some c.
Proof.
  replace (h ++ a :: b :: c :: rest) with ((h ++ [a; b]) ++ c :: rest)
    by by rewrite <- app_assoc.
  apply list_lookup_middle. rewrite length_app. simpl. lia.
Qed.

(** The first three steps of the constructor. *)
Lemma construct_unfold (o : Options) (w : World) :
  Shortcode.construct o w =
    (let this := mkShortcode (o_tag o) (default_attrs_loc w) (o_type o) (o_content o) in
     if negb (truthy (o_attrs o)) then ret this
     else
       match o_attrs o with
       | VStr s => let* l := Shortcode.attrs s in ret (Shortcode.with_attrs this l)
       | VRef l =>
           let* c := load l in
           if bool_decide (keys_of c = [js "named"; js "numeric"])
           then ret (Shortcode.with_attrs this l)
           else
             let* entries := entries_of (VRef l) in
             foldM (fun this kv => Shortcode.prototype.set this (fst kv) (snd kv))
               entries this
       | _ => ret this
       end) (with_default_attrs w).
Proof.
  unfold Shortcode.construct, with_default_attrs, default_attrs_loc.
  unfold bind at 1. unfold alloc at 1. cbn [w_heap w_regexp w_attrs].
  unfold bind at 1. unfold alloc at 1. cbn [w_heap w_regexp w_attrs].
  unfold bind at 1. unfold alloc at 1. cbn [w_heap w_regexp w_attrs].
  rewrite !length_app. cbn [length].
  rewrite <- !app_assoc. cbn [app].
  replace (length (w_heap w) + 1) with (S (length (w_heap w))) by lia.
  replace (S (length (w_heap w)) + 1) with (S (S (length (w_heap w)))) by lia.
  reflexivity.
Qed.

Lemma prop_get_named (vn vm : Val) :
  prop_get [(js "named", vn); (js "numeric", vm)] (js "named") = Some vn.
Proof. reflexivity. Qed.

Lemma prop_get_numeric (vn vm : Val) :
  prop_get [(js "named", vn); (js "numeric", vm)] (js "numeric") = Some vm.
Proof. reflexivity. Qed.

Lemma attrs_view_default (w : World) :
  attrs_view (with_default_attrs w) (default_attrs_loc w) = Some ([], []).
Proof.
  unfold attrs_view, with_default_attrs, default_attrs_loc. cbn [w_heap].
  rewrite lookup_snoc_2, prop_get_named, prop_get_numeric.
  by rewrite lookup_snoc_0, lookup_snoc_1.
Qed.

Lemma load_ok (w : World) (l : nat) (c : Cell) :
  w_heap w !! l = Some c -> load l w = (Ok c, w).
Proof. intros H. unfold load. by rewrite H. Qed.

Lemma lookup_with_default_attrs (w : World) (l : nat) (c : Cell) :
  w_heap w !! l = Some c -> w_heap (with_default_attrs w) !! l = Some c.
Proof. intros H. cbn [with_default_attrs w_heap]. by apply lookup_app_l_Some. Qed.

Lemma attrs_view_with_default_attrs (w : World) (l : nat) v :
  attrs_view w l = Some v -> attrs_view (with_default_attrs w) l = Some v.
Proof.
  unfold attrs_view. intros H.
  destruct (w_heap w !! l) as [[props| |]|] eqn:El; try done.
  rewrite (lookup_with_default_attrs _ _ _ El).
  destruct (prop_get props (js "named")) as [[| | |ln]|]; try done.
  destruct (prop_get props (js "numeric")) as [[| | |lm]|]; try done.
  destruct (w_heap w !! ln) as [cn|] eqn:En; try done.
  destruct (w_heap w !! lm) as [cm|] eqn:Em;
    [|by destruct cn].
  by rewrite (lookup_with_default_attrs _ _ _ En), (lookup_with_default_attrs _ _ _ Em).
Qed.

(** ** The attribute object of the constructor (C8) *)

(** The constructor takes the object at [l] as the attribute object of the
    shortcode, and does nothing else: the store only gains the default
    attribute object made before the test, and no cache changes. *)
Definition accepted_as_is (w : World) (o : Options) (l : nat) : Prop :=
  Shortcode.construct o w =
    (Ok (mkShortcode (o_tag o) l (o_type o) (o_content o)), with_default_attrs w).

(** The options [{tag: 'x', attrs: <the object at 0>}]. *)
Definition attrs_at_0 : Options := mkOptions (VStr (js "x")) (VRef 0) VUndef VUndef.

Definition ordered_attrs_world : World :=
  mkWorld [CObj [(js "named", VRef 1); (js "numeric", VRef 2)]; CObj []; CArr []] ∅ ∅.

Definition reversed_attrs_world : World :=
  mkWorld [CObj [(js "numeric", VRef 1); (js "named", VRef 2)]; CArr []; CObj []] ∅ ∅.

(** C8, as stated, fails: an object whose two keys are [numeric] and
    [named], in this order, is not taken as it is.  It is walked as a flat
    map, and [set] files its two members under the names [numeric] and
    [named] of a fresh [named] object. *)
Lemma prestructured_key_order_matters :
  (exists c, w_heap reversed_attrs_world !! 0 = Some c
             /\ keys_of c ≡ₚ [js "named"; js "numeric"])
  /\ ~ accepted_as_is reversed_attrs_world attrs_at_0 0
  /\ exists this w',
       Shortcode.construct attrs_at_0 reversed_attrs_world = (Ok this, w')
       /\ sc_attrs this = 5
       /\ attrs_view w' (sc_attrs this)
          = Some ([(js "numeric", VRef 1); (js "named", VRef 2)], []).
Proof.
  split; [|split].
  - eexists. split; [reflexivity|]. apply perm_swap.
  - unfold accepted_as_is. vm_compute. discriminate.
  - do 2 eexists. split; [vm_compute; reflexivity|]. split; reflexivity.
Qed.

(** C8, amended: an object whose own keys are [named] and [numeric], in
    this order, is taken as the attribute object as it is, whatever the two
    members hold. *)
Theorem prestructured_attrs_accepted_as_is (w : World) (o : Options) (l : nat) (c : Cell) :
  o_attrs o = VRef l ->
  w_heap w !! l = Some c ->
  keys_of c = [js "named"; js "numeric"] ->
  accepted_as_is w o l.
Proof.
  intros Ho Hl Hk. unfold accepted_as_is.
  rewrite construct_unfold. cbv zeta. rewrite Ho. cbn [truthy negb].
  rewrite (bind_ok _ _ _ c (with_default_attrs w)).
  - by rewrite bool_decide_eq_true_2.
  - apply load_ok. by apply lookup_with_default_attrs.
Qed.

Lemma prestructured_attrs_accepted_as_is_witness :
  accepted_as_is ordered_attrs_world attrs_at_0 0.
Proof.
  eapply prestructured_attrs_accepted_as_is; reflexivity.
Defined.

(** ** The parser behind the cache (C2, C9) *)

(** The attribute list [a="1"]. *)
Definition a_is_1 : jstring := js "a=" ++ dq ++ js "1" ++ dq.

(** C2 fails on the code: the object [Shortcode.attrs] returns is the one
    kept in its cache, the constructor stores that very object in the
    shortcode, and [set] writes into it.  Here the text [a="1"] is parsed,
    a shortcode is built from the same text and its [a] set to [2]; parsing
    the same text again then answers [a = "2"]. *)
Theorem attrs_result_changed_by_set :
  exists l1 w1 this w2 w3 l2 w4,
    Shortcode.attrs a_is_1 empty_world = (Ok l1, w1)
    /\ attrs_view w1 l1 = Some ([(js "a", VStr (js "1"))], [])
    /\ Shortcode.construct (mkOptions (VStr (js "x")) (VStr a_is_1) VUndef VUndef) w1
       = (Ok this, w2)
    /\ Shortcode.prototype.set this (VStr (js "a")) (VStr (js "2")) w2 = (Ok this, w3)
    /\ Shortcode.attrs a_is_1 w3 = (Ok l2, w4)
    /\ attrs_view w4 l2 = Some ([(js "a", VStr (js "2"))], []).
Proof.
  do 7 eexists.
  repeat split; vm_compute; reflexivity.
Qed.

(** The world after a first parse of [text] into [named] and [numeric]:
    the two buckets and the object holding them are new, and the cache
    remembers the object under [text]. *)
Definition with_parsed_attrs (w : World) (text : jstring)
    (named : list (jstring * Val)) (numeric : list Val) : World :=
  mkWorld
    (w_heap w ++ [CObj named; CArr numeric;
                  CObj [(js "named", VRef (length (w_heap w)));
                        (js "numeric", VRef (S (length (w_heap w))))]])
    (w_regexp w) (<[text := S (S (length (w_heap w)))]> (w_attrs w)).

Lemma attrs_view_parsed (w : World) text named numeric :
  attrs_view (with_parsed_attrs w text named numeric) (S (S (length (w_heap w))))
  = Some (named, numeric).
Proof.
  unfold attrs_view, with_parsed_attrs. cbn [w_heap].
  rewrite lookup_snoc_2, prop_get_named, prop_get_numeric.
  by rewrite lookup_snoc_0, lookup_snoc_1.
Qed.

(** A call of [Shortcode.attrs] on a text that is not in the cache. *)
Lemma attrs_miss (w : World) (text text' : jstring) named numeric :
  w_attrs w !! text = None ->
  replace_global Shortcode.spaces_pattern text (js " ") = Some text' ->
  Shortcode.attrs_loop (S (length text')) text' 0 [] [] = Some (named, numeric) ->
  Shortcode.attrs text w
  = (Ok (S (S (length (w_heap w)))), with_parsed_attrs w text named numeric).
Proof.
  intros Hc Hr Hl. unfold Shortcode.attrs, memoize. rewrite Hc.
  unfold Shortcode.attrs_body. rewrite Hr, Hl.
  unfold with_parsed_attrs, record_attrs, bind, alloc. cbn [w_heap w_regexp w_attrs].
  rewrite !length_app. cbn [length]. rewrite <- !app_assoc. cbn [app].
  replace (length (w_heap w) + 1) with (S (length (w_heap w))) by lia.
  replace (S (length (w_heap w)) + 1) with (S (S (length (w_heap w)))) by lia.
  reflexivity.
Qed.

(** A call of [Shortcode.attrs] on a text that is in the cache. *)
Lemma attrs_hit (w : World) (text : jstring) (l : nat) :
  w_attrs w !! text = Some l -> Shortcode.attrs text w = (Ok l, w).
Proof. intros Hc. unfold Shortcode.attrs, memoize. by rewrite Hc. Qed.

(** The attribute list [a="1" "two" 3]. *)
Definition a_two_3 : jstring :=
  js "a=" ++ dq ++ js "1" ++ dq ++ js " " ++ dq ++ js "two" ++ dq ++ js " 3".

(** C9: parsing [a="1" "two" 3] for the first time yields the named map
    [{a: "1"}] and the numeric list [["two", "3"]], in this order. *)
Theorem attrs_named_numeric_split (w : World) :
  w_attrs w !! a_two_3 = None ->
  exists l w',
    Shortcode.attrs a_two_3 w = (Ok l, w')
    /\ attrs_view w' l
       = Some ([(js "a", VStr (js "1"))], [VStr (js "two"); VStr (js "3")]).
Proof.
  intros Hc. do 2 eexists. split.
  - eapply attrs_miss; [done | vm_compute; reflexivity | vm_compute; reflexivity].
  - apply attrs_view_parsed.
Qed.

Lemma attrs_named_numeric_split_witness :
  exists l w',
    Shortcode.attrs a_two_3 empty_world = (Ok l, w')
    /\ attrs_view w' l
       = Some ([(js "a", VStr (js "1"))], [VStr (js "two"); VStr (js "3")]).
Proof. apply (attrs_named_numeric_split empty_world). reflexivity. Defined.

(** ** The arguments of the callback of [replace] *)

(** The arguments the callback receives for the match [m] of [text]. *)
Definition callback_args (m : Match) (text : jstring) (done : Val) : list Val :=
  match_array m ++ [VNum (N.of_nat (m_index m)); VStr text; done].

(** The text of an escaped occurrence with one layer of brackets removed:
    without its first and its last character. *)
Definition unescape (s : jstring) : jstring := drop 1 (take (length s - 1) s).

(** A replacer that answers [undefined] and does nothing else. *)
Definition idle_replacer : Shortcode.Replacer := fun _ _ => ret VUndef.

(** ** Lower-cased attribute names (C4) *)

(** A name is lower-cased when lower-casing leaves it as it is. *)
Definition lower_cased (k : jstring) : Prop := toLowerCase k = k.

(** Every name of the [named] object of the shortcode is lower-cased. *)
Definition named_keys_lower_cased (w : World) (this : ShortcodeObj) : Prop :=
  forall named numeric,
    attrs_view w (sc_attrs this) = Some (named, numeric) ->
    Forall lower_cased (map fst named).

(** Every parse the cache holds is in the store and has lower-cased names:
    the state of the cache as long as no [set] has written a name that is
    not lower-cased into a shortcode built from a text. *)
Definition attrs_cache_lower_cased (w : World) : Prop :=
  forall text l,
    w_attrs w !! text = Some l ->
    exists named numeric,
      attrs_view w l = Some (named, numeric) /\ Forall lower_cased (map fst named).

(** The store holds [{named: {Foo: "bar"}, numeric: []}] at 0. *)
Definition upper_prestructured_world : World :=
  mkWorld [CObj [(js "named", VRef 1); (js "numeric", VRef 2)];
           CObj [(js "Foo", VStr (js "bar"))]; CArr []] ∅ ∅.

(** The store holds the flat map [{Foo: "bar"}] at 0. *)
Definition upper_flat_world : World :=
  mkWorld [CObj [(js "Foo", VStr (js "bar"))]] ∅ ∅.

(** C4, as stated, fails: a pre-structured attribute object is taken with
    the names it has, and [set], through which a flat map is routed, files
    each value under the name it is given.  In both cases the shortcode has
    the name [Foo]. *)
Lemma named_keys_kept_as_given :
  ~ lower_cased (js "Foo")
  /\ (exists this w',
        Shortcode.construct attrs_at_0 upper_prestructured_world = (Ok this, w')
        /\ attrs_view w' (sc_attrs this) = Some ([(js "Foo", VStr (js "bar"))], [])
        /\ ~ named_keys_lower_cased w' this)
  /\ (exists this w',
        Shortcode.construct attrs_at_0 upper_flat_world = (Ok this, w')
        /\ attrs_view w' (sc_attrs this) = Some ([(js "Foo", VStr (js "bar"))], [])
        /\ ~ named_keys_lower_cased w' this).
Proof.
  assert (Hfoo : ~ lower_cased (js "Foo")) by (vm_compute; discriminate).
  split; [done|].
  split.
  - do 2 eexists. split; [vm_compute; reflexivity|].
    split; [vm_compute; reflexivity|].
    intros H. specialize (H [(js "Foo", VStr (js "bar"))] []).
    assert (Hv : Forall lower_cased (map fst [(js "Foo", VStr (js "bar"))]))
      by (apply H; vm_compute; reflexivity).
    by inversion Hv.
  - do 2 eexists. split; [vm_compute; reflexivity|].
    split; [vm_compute; reflexivity|].
    intros H. specialize (H [(js "Foo", VStr (js "bar"))] []).
    assert (Hv : Forall lower_cased (map fst [(js "Foo", VStr (js "bar"))]))
      by (apply H; vm_compute; reflexivity).
    by inversion Hv.
Qed.

Lemma lower_char_not_upper (c : char) :
  is_upper (if is_upper c then (c + 32)%N else c) = false.
Proof.
  destruct (is_upper c) eqn:E; [|done].
  unfold is_upper, char_in in *.
  apply andb_true_iff in E as [E1 E2].
  apply N.leb_le in E1, E2.
  apply andb_false_iff. right. apply N.leb_gt. lia.
Qed.

Lemma toLowerCase_lower_cased (k : jstring) : lower_cased (toLowerCase k).
Proof.
  unfold lower_cased, toLowerCase. rewrite map_map.
  apply map_ext. intros c. by rewrite lower_char_not_upper.
Qed.

Section PropSetKeys.
Variable P : jstring -> Prop.

Lemma prop_update_keys props k v :
  map fst (prop_update props k v) = map fst props.
Proof.
  induction props as [|[k' v'] props IH]; [done|].
  cbn [prop_update]. destruct (jstring_eqb k' k); cbn; by rewrite ?IH.
Qed.

Lemma prop_insert_index_keys props n k v :
  Forall P (map fst props) -> P k ->
  Forall P (map fst (prop_insert_index props n k v)).
Proof.
  intros Hp Hk. induction props as [|[k' v'] props IH]; cbn [prop_insert_index].
  - by repeat constructor.
  - cbn in Hp. inversion Hp; subst.
    destruct (array_index k') as [n'|]; [destruct (n' <? n)%N|];
      cbn; repeat constructor; auto.
Qed.

(** The names of an object after [obj[k] = v] are those it had, and [k]. *)
Lemma prop_set_keys props k v :
  Forall P (map fst props) -> P k -> Forall P (map fst (prop_set props k v)).
Proof.
  intros Hp Hk. unfold prop_set.
  destruct (jstring_eqb k (js "__proto__")); [done|].
  destruct (prop_get props k).
  - by rewrite prop_update_keys.
  - destruct (array_index k).
    + by apply prop_insert_index_keys.
    + rewrite map_app. apply Forall_app. split; [done|]. by repeat constructor.
Qed.
End PropSetKeys.

(** The loop of the parser only adds lower-cased names. *)
Lemma attrs_loop_lower_cased (fuel : nat) :
  forall text i named numeric named' numeric',
    Forall lower_cased (map fst named) ->
    Shortcode.attrs_loop fuel text i named numeric = Some (named', numeric') ->
    Forall lower_cased (map fst named').
Proof.
  induction fuel as [|fuel IH]; intros text i named numeric named' numeric' Hn Hl;
    [done|].
  cbn [Shortcode.attrs_loop] in Hl.
  destruct (exec_global Shortcode.attrs_pattern text i) as [[m|] e].
  - destruct (Shortcode.nonempty (m_get m 1));
      [|destruct (Shortcode.nonempty (m_get m 3));
        [|destruct (Shortcode.nonempty (m_get m 5));
          [|destruct (Shortcode.nonempty (m_get m 7));
            [|destruct (Shortcode.nonempty (m_get m 8))]]]];
      (eapply IH; [|exact Hl]);
      try done; apply prop_set_keys; auto using toLowerCase_lower_cased.
  - by inversion Hl; subst.
Qed.

Lemma attrs_cache_lower_cased_default (w : World) :
  attrs_cache_lower_cased w -> attrs_cache_lower_cased (with_default_attrs w).
Proof.
  intros Hc text l Hl. destruct (Hc text l Hl) as (named & numeric & Hv & Hlow).
  exists named, numeric. split; [|done]. by apply attrs_view_with_default_attrs.
Qed.

(** What [Shortcode.attrs] answers has lower-cased names. *)
Lemma attrs_lower_cased (w w' : World) (s : jstring) (l : nat) :
  attrs_cache_lower_cased w ->
  Shortcode.attrs s w = (Ok l, w') ->
  exists named numeric,
    attrs_view w' l = Some (named, numeric) /\ Forall lower_cased (map fst named).
Proof.
  intros Hc Hr. destruct (w_attrs w !! s) as [l0|] eqn:Ec.
  - rewrite (attrs_hit _ _ _ Ec) in Hr. inversion Hr; subst. by apply (Hc s).
  - destruct (replace_global Shortcode.spaces_pattern s (js " ")) as [s'|] eqn:Es;
      [destruct (Shortcode.attrs_loop (S (length s')) s' 0 [] [])
         as [[named numeric]|] eqn:El|].
    + rewrite (attrs_miss _ _ _ _ _ Ec Es El) in Hr. inversion Hr; subst.
      exists named, numeric. split; [apply attrs_view_parsed|].
      eapply attrs_loop_lower_cased; [|exact El]. constructor.
    + unfold Shortcode.attrs, memoize, Shortcode.attrs_body in Hr.
      by rewrite Ec, Es, El in Hr.
    + unfold Shortcode.attrs, memoize, Shortcode.attrs_body in Hr.
      by rewrite Ec, Es in Hr.
Qed.

(** C4, amended: a shortcode constructed from a raw attribute string has
    lower-cased names in [attrs.named], provided the parses the cache holds
    have; the parser lower-cases every name it files.  (A pre-structured
    object and a flat map keep the names they are given.) *)
Theorem named_keys_lower_cased_from_text
    (w w' : World) (o : Options) (s : jstring) (this : ShortcodeObj) :
  attrs_cache_lower_cased w ->
  o_attrs o = VStr s ->
  Shortcode.construct o w = (Ok this, w') ->
  named_keys_lower_cased w' this.
Proof.
  intros Hc Ho Hr. rewrite construct_unfold in Hr. cbv zeta in Hr.
  rewrite Ho in Hr. cbn [truthy] in Hr.
  destruct (negb (negb (jstring_eqb s []))) eqn:Es.
  - (* the empty text: the default attribute object stays *)
    inversion Hr; subst. intros named numeric Hv. cbn [sc_attrs] in Hv.
    rewrite attrs_view_default in Hv. by inversion Hv; subst.
  - unfold bind in Hr.
    destruct (Shortcode.attrs s (with_default_attrs w)) as [[l| | |] w1] eqn:Ea;
      try done.
    inversion Hr; subst. intros named numeric Hv.
    cbn [sc_attrs Shortcode.with_attrs] in Hv.
    destruct (attrs_lower_cased _ _ _ _ (attrs_cache_lower_cased_default _ Hc) Ea)
      as (named0 & numeric0 & Hv0 & Hlow).
    rewrite Hv0 in Hv. by inversion Hv; subst.
Qed.

(** The attribute list [Foo=Bar]. *)
Definition foo_is_bar : jstring := js "Foo=Bar".

Lemma attrs_cache_lower_cased_empty : attrs_cache_lower_cased empty_world.
Proof. intros text l H. cbn in H. by rewrite lookup_empty in H. Qed.

Lemma named_keys_lower_cased_from_text_witness :
  named_keys_lower_cased
    (with_parsed_attrs (with_default_attrs empty_world) foo_is_bar
       [(js "foo", VStr (js "Bar"))] [])
    (mkShortcode (VStr (js "x")) 5 VUndef VUndef).
Proof.
  apply (named_keys_lower_cased_from_text empty_world _
           (mkOptions (VStr (js "x")) (VStr foo_is_bar) VUndef VUndef) foo_is_bar).
  - exact attrs_cache_lower_cased_empty.
  - reflexivity.
  - vm_compute. reflexivity.
Defined.

(** ** The pattern of a tag *)

(** A character of a well-formed tag name: a word character or a hyphen. *)
Definition tag_char (c : char) : bool := is_word c || (c =? 45)%N.

(** The two runs: of characters other than a closing bracket and a slash,
    and of characters other than an opening bracket. *)
Definition re_attr_run : Regex := RQuant (RClass true [CChar 93; CChar 47]) 0 None true 0 0.
Definition re_text_run : Regex := RQuant (RClass true [CChar 91]) 0 None true 0 0.

(** Group 3, the attribute list: a run, then lazily many times a slash
    that no closing bracket follows and a run. *)
Definition re_attrs : Regex :=
  RGroup 3
    (RSeq re_attr_run
       (RSeq
          (RQuant
             (RSeq (RChar 47)
                (RSeq (RLook false (RSeq (RChar 93) REmpty)) (RSeq re_attr_run REmpty)))
             0 None false 0 0)
          REmpty)).

(** "\/\2\]", what the lookahead at a bracket of the content rejects. *)
Definition re_close_tail : Regex :=
  RSeq (RChar 47) (RSeq (RBackref 2) (RSeq (RChar 93) REmpty)).

(** Many times: an opening bracket that does not start the closing tag,
    and a run. *)
Definition re_brackets : Regex :=
  RQuant
    (RSeq (RChar 91) (RSeq (RLook false re_close_tail) (RSeq re_text_run REmpty)))
    0 None true 0 0.

(** Group 5, the content: a run, then the brackets with their runs. *)
Definition re_content : Regex := RGroup 5 (RSeq re_text_run (RSeq re_brackets REmpty)).

(** Group 6, the closing tag: "(\[\/\2\])". *)
Definition re_closing : Regex := RGroup 6 (RSeq (RChar 91) re_close_tail).

(** The end of the opening tag: "/]", or "]" with an optional content and
    closing tag. *)
Definition re_end : Regex :=
  RAlt
    (RSeq (RGroup 4 (RSeq (RChar 47) REmpty)) (RSeq (RChar 93) REmpty))
    (RSeq (RChar 93)
       (RSeq (RQuant (RSeq re_content (RSeq re_closing REmpty)) 0 (Some 1) true 4 2)
          REmpty)).

(** The pattern [Shortcode.regexp] builds, with [name] for the tag. *)
Definition shortcode_regex (name : Regex) : Regex :=
  RSeq (RChar 91)
    (RSeq (RGroup 1 (RSeq (RQuant (RChar 91) 0 (Some 1) true 0 0) REmpty))
       (RSeq (RGroup 2 name)
          (RSeq (RLook false (RSeq (RClass false [CWord true; CChar 45]) REmpty))
             (RSeq re_attrs
                (RSeq re_end
                   (RSeq (RGroup 7 (RSeq (RQuant (RChar 93) 0 (Some 1) true 0 0) REmpty))
                      REmpty)))))).

Definition tag_pattern (tag : jstring) : Pattern :=
  mkPattern (shortcode_regex (mk_seq (map RChar tag))) 7.

(** The state of the compiler inside the second group, [terms] read. *)
Definition in_tag_group (terms : list (Regex * TermKind)) : PState :=
  mkPState (mkFrame (GCapture 2) [] terms)
    [mkFrame GTop []
       [(RGroup 1 (RSeq (RQuant (RChar 91) 0 (Some 1) true 0 0) REmpty), TAtom);
        (RChar 91, TAtom)]]
    2 0 MNorm.

Definition regexp_suffix : jstring :=
  js ")(?![\w-])([^\]\/]*(?:\/(?!\])[^\]\/]*)*?)(?:(\/)\]|\](?:([^\[]*(?:\[(?!\/\2\])[^\[]*)*)(\[\/\2\]))?)(\]?)".

Lemma compile_suffix (terms : list (Regex * TermKind)) :
  pfinish (fold_left pstep regexp_suffix (in_tag_group terms))
  = Compiled (mkPattern (shortcode_regex (mk_seq (rev (map fst terms)))) 7).
Proof. vm_compute. reflexivity. Qed.

Lemma norm_step_tag_char (st : PState) (c : char) :
  tag_char c = true -> norm_step st c = push_term st (RChar c) TAtom.
Proof.
  intros H. unfold norm_step.
  repeat match goal with
         | |- context [(c =? ?k)%N] =>
             destruct (N.eqb_spec c k) as [->|_]; [by vm_compute in H|]
         end.
  reflexivity.
Qed.

Lemma fold_tag_chars (t : jstring) :
  forall terms,
    forallb tag_char t = true ->
    fold_left pstep t (in_tag_group terms)
    = in_tag_group (rev (map (fun c => (RChar c, TAtom)) t) ++ terms).
Proof.
  induction t as [|c t IH]; intros terms H; [done|].
  cbn [forallb] in H. apply andb_true_iff in H as [Hc Ht].
  cbn [fold_left]. unfold pstep at 2. cbn [in_tag_group ps_mode].
  rewrite (norm_step_tag_char _ _ Hc).
  change (push_term (in_tag_group terms) (RChar c) TAtom)
    with (in_tag_group ((RChar c, TAtom) :: terms)).
  rewrite (IH _ Ht). cbn [map rev]. by rewrite <- app_assoc.
Qed.

(** The pattern compiled for a tag of word characters and hyphens; the
    empty tag is among them. *)
Lemma compile_tag (tag : jstring) :
  forallb tag_char tag = true ->
  compile (Shortcode.regexp_source tag) = Compiled (tag_pattern tag).
Proof.
  intros H. destruct tag as [|c t]; [vm_compute; reflexivity|].
  cbn [forallb] in H. apply andb_true_iff in H as [Hc Ht].
  unfold compile, Shortcode.regexp_source.
  change (js ")(?![\w-])([^\]\/]*(?:\/(?!\])[^\]\/]*)*?)(?:(\/)\]|\](?:([^\[]*(?:\[(?!\/\2\])[^\[]*)*)(\[\/\2\]))?)(\]?)")
    with regexp_suffix.
  rewrite !fold_left_app. cbn [fold_left].
  assert (Hp : pstep (fold_left pstep (js "\[(\[?)(") pinit) c
               = in_tag_group [(RChar c, TAtom)]).
  { set (st := fold_left pstep (js "\[(\[?)(") pinit). vm_compute in st. subst st.
    unfold pstep. cbn [ps_mode].
    destruct (N.eqb_spec c 63) as [->|_]; [by vm_compute in Hc|].
    by rewrite norm_step_tag_char. }
  rewrite Hp, (fold_tag_chars _ _ Ht), compile_suffix.
  unfold tag_pattern. do 3 f_equal.
  rewrite map_app, rev_app_distr. cbn [map rev app fst].
  by rewrite map_rev, rev_involutive, map_map.
Qed.

(** ** The cache of patterns (C3) *)

(** Every pattern object the cache holds is in the store and is the one
    compiled from its tag.  This holds of the empty world and of every
    world the functions of the module lead to. *)
Definition regexp_cache_ok (w : World) : Prop :=
  forall tag l,
    w_regexp w !! tag = Some l ->
    exists p j,
      w_heap w !! l = Some (CRegExp p j)
      /\ compile (Shortcode.regexp_source tag) = Compiled p.

(** The cache holds, for [tag], the pattern object at [l], compiled to [p]. *)
Definition regexp_at (w : World) (tag : jstring) (l : nat) (p : Pattern) : Prop :=
  w_regexp w !! tag = Some l /\ exists j, w_heap w !! l = Some (CRegExp p j).

Lemma regexp_cache_ok_empty : regexp_cache_ok empty_world.
Proof. intros tag l H. cbn in H. by rewrite lookup_empty in H. Qed.

Lemma regexp_hit (w : World) tag l :
  w_regexp w !! tag = Some l -> Shortcode.regexp tag w = (Ok l, w).
Proof. intros H. unfold Shortcode.regexp, memoize. by rewrite H. Qed.

Lemma regexp_miss (w : World) tag p :
  w_regexp w !! tag = None ->
  compile (Shortcode.regexp_source tag) = Compiled p ->
  Shortcode.regexp tag w
  = (Ok (length (w_heap w)),
     mkWorld (w_heap w ++ [CRegExp p 0]) (<[tag := length (w_heap w)]> (w_regexp w))
       (w_attrs w)).
Proof.
  intros H Hp. unfold Shortcode.regexp, memoize. by rewrite H, Hp.
Qed.

(** On a tag whose source compiles, [Shortcode.regexp] answers with the
    pattern object of the tag, new or cached. *)
Lemma regexp_ready (w : World) tag p :
  regexp_cache_ok w ->
  compile (Shortcode.regexp_source tag) = Compiled p ->
  exists l w',
    Shortcode.regexp tag w = (Ok l, w')
    /\ regexp_at w' tag l p
    /\ w_attrs w' = w_attrs w
    /\ (forall k c, w_heap w !! k = Some c -> w_heap w' !! k = Some c).
Proof.
  intros Hok Hp. destruct (w_regexp w !! tag) as [l|] eqn:Ec.
  - exists l, w. split; [by apply regexp_hit|].
    destruct (Hok _ _ Ec) as (p' & j & Hl & Hp'). rewrite Hp in Hp'.
    inversion Hp'; subst. repeat split; eauto.
  - do 2 eexists. split; [by apply regexp_miss|].
    repeat split; cbn [w_regexp w_heap w_attrs].
    + by rewrite lookup_insert_eq.
    + exists 0. by rewrite lookup_snoc_0.
    + intros k c Hk. by apply lookup_app_l_Some.
Qed.

(** C3, as stated, fails for the empty tag name: [Shortcode.regexp] checks
    nothing, the source with an empty second group is a well-formed
    pattern, and the call answers with a pattern object. *)
Lemma empty_tag_compiles :
  Shortcode.regexp (js "") empty_world
  = (Ok 0, mkWorld [CRegExp (tag_pattern (js "")) 0] {[ js "" := 0 ]} ∅)
  /\ fst (Shortcode.regexp (js "") empty_world) <> Throw ESyntaxError.
Proof.
  assert (H : Shortcode.regexp (js "") empty_world
              = (Ok 0, mkWorld [CRegExp (tag_pattern (js "")) 0] {[ js "" := 0 ]} ∅)).
  { rewrite (regexp_miss empty_world (js "") (tag_pattern (js ""))).
    - reflexivity.
    - reflexivity.
    - by apply compile_tag. }
  split; [exact H|]. by rewrite H.
Qed.

(** C3, amended: [Shortcode.regexp] validates nothing itself.  It fails,
    with the syntax error of [new RegExp], exactly when the source built
    around the tag is not a well-formed pattern, as for the tags "(" and
    "*"; for the empty tag and for every tag of word characters and hyphens
    it answers with the pattern object of the tag. *)
Theorem regexp_fails_only_on_ill_formed_source (w : World) (tag : jstring) :
  regexp_cache_ok w ->
  (Shortcode.regexp tag w = (Throw ESyntaxError, w)
   <-> compile (Shortcode.regexp_source tag) = SyntaxError)
  /\ (forallb tag_char tag = true ->
      exists l w', Shortcode.regexp tag w = (Ok l, w')
                   /\ regexp_at w' tag l (tag_pattern tag))
  /\ compile (Shortcode.regexp_source (js "(")) = SyntaxError
  /\ compile (Shortcode.regexp_source (js "*")) = SyntaxError.
Proof.
  intros Hok. split; [|split; [|split]].
  - destruct (w_regexp w !! tag) as [l|] eqn:Ec.
    + rewrite (regexp_hit _ _ _ Ec).
      destruct (Hok _ _ Ec) as (p & j & _ & Hp). rewrite Hp. split; discriminate.
    + unfold Shortcode.regexp, memoize. rewrite Ec.
      destruct (compile (Shortcode.regexp_source tag)); split; try done;
        unfold alloc; discriminate.
  - intros Ht.
    destruct (regexp_ready w tag _ Hok (compile_tag tag Ht)) as (l & w' & Hr & Hat & _).
    eauto.
  - vm_compute. reflexivity.
  - vm_compute. reflexivity.
Qed.

Lemma regexp_fails_only_on_ill_formed_source_witness :
  (Shortcode.regexp (js "(") empty_world = (Throw ESyntaxError, empty_world)
   <-> compile (Shortcode.regexp_source (js "(")) = SyntaxError)
  /\ (forallb tag_char (js "(") = true ->
      exists l w', Shortcode.regexp (js "(") empty_world = (Ok l, w')
                   /\ regexp_at w' (js "(") l (tag_pattern (js "(")))
  /\ compile (Shortcode.regexp_source (js "(")) = SyntaxError
  /\ compile (Shortcode.regexp_source (js "*")) = SyntaxError.
Proof.
  apply (regexp_fails_only_on_ill_formed_source empty_world (js "(")).
  intros tag l H. cbn in H. by rewrite lookup_empty in H.
Defined.

(** ** [Shortcode.next] on a known pattern object *)

(** The test of [next] for an escaped occurrence. *)
Definition escaped (m : Match) : bool :=
  strict_eq_str (of_capture (m_get m 1)) (js "[")
  && strict_eq_str (of_capture (m_get m 7)) (js "]").

(** The result [next] builds from an occurrence that is not escaped: a
    leading bracket captured is dropped and counted, a trailing one is
    dropped. *)
Definition report (m : Match) (sc : ShortcodeObj) : Shortcode.NextResult :=
  let result := Shortcode.mkNextResult (m_index m) (m_text m) sc in
  let result :=
    if truthy (of_capture (m_get m 1))
    then Shortcode.mkNextResult (S (Shortcode.index result))
           (drop 1 (Shortcode.content result)) sc
    else result in
  if truthy (of_capture (m_get m 7))
  then Shortcode.mkNextResult (Shortcode.index result)
         (take (length (Shortcode.content result) - 1) (Shortcode.content result)) sc
  else result.

(** [next] once the pattern object of the tag is known to be the object
    at [re], compiled to [p]. *)
Fixpoint next_known (fuel : nat) (re : nat) (p : Pattern) (text : jstring) (i : nat)
  : M (option Shortcode.NextResult) :=
  match fuel with
  | 0 => fun w => (NoFuel, w)
  | S fuel' =>
      let r := exec_global p text i in
      let* _ := store re (CRegExp p (snd r)) in
      match fst r with
      | None => ret None
      | Some m =>
          if escaped m then next_known fuel' re p text (snd r)
          else
            let* sc := Shortcode.fromMatch (match_array m) in
            ret (Some (report m sc))
      end
  end.

Definition set_lastIndex (w : World) (re : nat) (p : Pattern) (i : nat) : World :=
  mkWorld (<[re := CRegExp p i]> (w_heap w)) (w_regexp w) (w_attrs w).

Lemma regexp_at_set_lastIndex (w : World) tag re p i :
  regexp_at w tag re p -> regexp_at (set_lastIndex w re p i) tag re p.
Proof.
  intros [Hc [j Hl]]. split; [done|]. exists i. cbn [set_lastIndex w_heap].
  apply list_lookup_insert_eq. by eapply lookup_lt_Some.
Qed.

Lemma exec_at_known (w : World) re p j text i :
  w_heap w !! re = Some (CRegExp p j) ->
  Shortcode.exec_at re text i w
  = (Ok (exec_global p text i), set_lastIndex w re p (snd (exec_global p text i))).
Proof.
  intros Hl. unfold Shortcode.exec_at.
  rewrite (bind_ok _ _ _ _ _ (load_ok _ _ _ Hl)). reflexivity.
Qed.

Lemma next_from_hit (fuel : nat) :
  forall w tag re p text start,
    regexp_at w tag re p ->
    Shortcode.next_from fuel tag text start w
    = next_known fuel re p text (default 0 start) w.
Proof.
  induction fuel as [|fuel IH]; intros w tag re p text start Hat; [done|].
  destruct Hat as [Hc [j Hl]].
  cbn [Shortcode.next_from next_known].
  rewrite (bind_ok _ _ _ _ _ (regexp_hit _ _ _ Hc)).
  rewrite (bind_ok _ _ _ _ _ (exec_at_known _ _ _ _ _ _ Hl)).
  unfold bind at 2. unfold store at 1.
  change (mkWorld (<[re:=CRegExp p (snd (exec_global p text (default 0 start)))]> (w_heap w))
            (w_regexp w) (w_attrs w))
    with (set_lastIndex w re p (snd (exec_global p text (default 0 start)))).
  destruct (exec_global p text (default 0 start)) as [[m|] e]; cbn [fst snd]; [|done].
  fold (escaped m). destruct (escaped m); [|reflexivity].
  apply (IH _ _ _ _ _ (Some e)). apply regexp_at_set_lastIndex. split; eauto.
Qed.

(** [next], past its first call of [Shortcode.regexp]. *)
Lemma next_known_pattern (w w' : World) tag re p text start :
  Shortcode.regexp tag w = (Ok re, w') ->
  regexp_at w' tag re p ->
  Shortcode.next tag text start w
  = next_known (S (length text)) re p text (default 0 start) w'.
Proof.
  intros Hr Hat. unfold Shortcode.next.
  rewrite <- (next_from_hit _ _ _ _ _ _ _ Hat).
  cbn [Shortcode.next_from].
  rewrite (bind_ok _ _ _ _ _ Hr).
  destruct Hat as [Hc _].
  by rewrite (bind_ok _ _ _ _ _ (regexp_hit _ _ _ Hc)).
Qed.

Lemma next_known_none (fuel re : nat) p text i e (w : World) :
  exec_global p text i = (None, e) ->
  next_known (S fuel) re p text i w = (Ok None, set_lastIndex w re p e).
Proof. intros H. cbn [next_known]. by rewrite H. Qed.

Lemma next_known_escaped (fuel re : nat) p text i m e (w : World) :
  exec_global p text i = (Some m, e) ->
  escaped m = true ->
  next_known (S fuel) re p text i w
  = next_known fuel re p text e (set_lastIndex w re p e).
Proof. intros H He. cbn [next_known]. rewrite H. cbn [fst snd]. by rewrite He. Qed.

Lemma next_known_found (fuel re : nat) p text i m e (w : World) :
  exec_global p text i = (Some m, e) ->
  escaped m = false ->
  next_known (S fuel) re p text i w
  = (let* sc := Shortcode.fromMatch (match_array m) in ret (Some (report m sc)))
      (set_lastIndex w re p e).
Proof. intros H He. cbn [next_known]. rewrite H. cbn [fst snd]. by rewrite He. Qed.

(** The type [fromMatch] reads off a match. *)
Definition type_of_match (m : list Val) : jstring :=
  if truthy (arg m 4) then js "self-closing"
  else if truthy (arg m 6) then js "closed"
  else js "single".

(** [fromMatch] on a match without attribute text. *)
Lemma fromMatch_no_attrs (m : list Val) (w : World) :
  truthy (arg m 3) = false ->
  Shortcode.fromMatch m w
  = (Ok (mkShortcode (arg m 2) (default_attrs_loc w) (VStr (type_of_match m)) (arg m 5)),
     with_default_attrs w).
Proof.
  intros H. unfold Shortcode.fromMatch. rewrite construct_unfold.
  cbv zeta. cbn [o_attrs o_tag o_type o_content]. by rewrite H.
Qed.

(** ** Escaped occurrences in [next] (C7) *)

(** C7: in any world whose pattern cache is sound, [next("x", "[[x]]")]
    answers [undefined], and [next("x", "[[x]")] reports the occurrence
    [[x]] at index 1: the single leading bracket is dropped from the
    matched text and the index moved past it. *)
Theorem next_escaping (w : World) :
  regexp_cache_ok w ->
  (exists w', Shortcode.next (js "x") (js "[[x]]") None w = (Ok None, w'))
  /\ (exists a w',
        Shortcode.next (js "x") (js "[[x]") None w
        = (Ok (Some (Shortcode.mkNextResult 1 (js "[x]")
                       (mkShortcode (VStr (js "x")) a (VStr (js "single")) VUndef))),
           w')
        /\ attrs_view w' a = Some ([], [])).
Proof.
  intros Hok.
  destruct (regexp_ready w (js "x") _ Hok (compile_tag (js "x") eq_refl))
    as (re & w1 & Hr & Hat & _).
  split.
  - rewrite (next_known_pattern _ _ _ _ _ _ _ Hr Hat).
    change (S (length (js "[[x]]"))) with 6. cbn [default].
    erewrite next_known_escaped; [|vm_compute; reflexivity|vm_compute; reflexivity].
    erewrite next_known_none; [|vm_compute; reflexivity].
    eauto.
  - rewrite (next_known_pattern _ _ _ _ _ _ _ Hr Hat).
    change (S (length (js "[[x]"))) with 5. cbn [default].
    erewrite next_known_found; [|vm_compute; reflexivity|vm_compute; reflexivity].
    erewrite bind_ok; [|apply fromMatch_no_attrs; vm_compute; reflexivity].
    do 2 eexists. split; [reflexivity|]. apply attrs_view_default.
Qed.

Lemma next_escaping_witness :
  (exists w', Shortcode.next (js "x") (js "[[x]]") None empty_world = (Ok None, w'))
  /\ (exists a w',
        Shortcode.next (js "x") (js "[[x]") None empty_world
        = (Ok (Some (Shortcode.mkNextResult 1 (js "[x]")
                       (mkShortcode (VStr (js "x")) a (VStr (js "single")) VUndef))),
           w')
        /\ attrs_view w' a = Some ([], [])).
Proof.
  apply (next_escaping empty_world).
  intros tag l H. cbn in H. by rewrite lookup_empty in H.
Defined.

(** ** Repeated calls of [next] (C10) *)

(** What a caller can observe of a shortcode object, of a result of
    [next], and of the outcome of a call: the object of the attributes is
    read through, so that two results are compared by what they hold and
    not by where the store keeps it. *)
Definition shortcode_view (w : World) (sc : ShortcodeObj) :=
  (sc_tag sc, sc_type sc, sc_content sc, attrs_view w (sc_attrs sc)).

Definition result_view (w : World) (r : Shortcode.NextResult) :=
  (Shortcode.index r, Shortcode.content r, shortcode_view w (Shortcode.shortcode r)).

Definition res_map {A B} (f : A -> B) (r : Res A) : Res B :=
  match r with
  | Ok a => Ok (f a)
  | Throw e => Throw e
  | Beyond => Beyond
  | NoFuel => NoFuel
  end.

Definition outcome_view (w : World) (r : Res (option Shortcode.NextResult)) :=
  res_map (fmap (result_view w)) r.

(** Every parse the cache holds is in the store, in the shape the parser
    gave it. *)
Definition attrs_cache_ok (w : World) : Prop :=
  forall text l, w_attrs w !! text = Some l -> is_Some (attrs_view w l).

Lemma attrs_view_extend (w w2 : World) (l : nat) v :
  (forall k c, w_heap w !! k = Some c -> w_heap w2 !! k = Some c) ->
  attrs_view w l = Some v -> attrs_view w2 l = Some v.
Proof.
  unfold attrs_view. intros Hext H.
  destruct (w_heap w !! l) as [[props| |]|] eqn:El; try done.
  rewrite (Hext _ _ El).
  destruct (prop_get props (js "named")) as [[| | |ln]|]; try done.
  destruct (prop_get props (js "numeric")) as [[| | |lm]|]; try done.
  destruct (w_heap w !! ln) as [cn|] eqn:En; try done.
  destruct (w_heap w !! lm) as [cm|] eqn:Em; [|by destruct cn].
  by rewrite (Hext _ _ En), (Hext _ _ Em).
Qed.

Lemma lookup_set_lastIndex_eq (w : World) re p j i :
  w_heap w !! re = Some (CRegExp p j) ->
  w_heap (set_lastIndex w re p i) !! re = Some (CRegExp p i).
Proof.
  intros H. cbn [set_lastIndex w_heap].
  apply list_lookup_insert_eq. by eapply lookup_lt_Some.
Qed.

Lemma lookup_set_lastIndex_ne (w : World) re p i k :
  k <> re -> w_heap (set_lastIndex w re p i) !! k = w_heap w !! k.
Proof. intros H. cbn [set_lastIndex w_heap]. by apply list_lookup_insert_ne. Qed.

(** Writing [lastIndex] changes no attribute object. *)
Lemma attrs_view_set_lastIndex (w : World) re p j i l :
  w_heap w !! re = Some (CRegExp p j) ->
  attrs_view (set_lastIndex w re p i) l = attrs_view w l.
Proof.
  intros Hre. pose proof (lookup_set_lastIndex_eq _ _ _ _ i Hre) as Hre'.
  unfold attrs_view.
  destruct (decide (l = re)) as [->|Hl]; [by rewrite Hre, Hre'|].
  rewrite (lookup_set_lastIndex_ne _ _ _ _ _ Hl).
  destruct (w_heap w !! l) as [[props| |]|]; try done.
  destruct (prop_get props (js "named")) as [[| | |ln]|]; try done.
  destruct (prop_get props (js "numeric")) as [[| | |lm]|]; try done.
  destruct (decide (ln = re)) as [->|Hn]; [by rewrite Hre, Hre'|].
  rewrite (lookup_set_lastIndex_ne _ _ _ _ _ Hn).
  destruct (decide (lm = re)) as [->|Hm].
  - rewrite Hre, Hre'. by destruct (w_heap w !! ln) as [[]|].
  - by rewrite (lookup_set_lastIndex_ne _ _ _ _ _ Hm).
Qed.

(** The facts about the store that the calls of [next] keep: the pattern
    object at [re] is compiled to [p], and the cache of parses is sound. *)
Definition next_inv (re : nat) (p : Pattern) (w : World) : Prop :=
  (exists j, w_heap w !! re = Some (CRegExp p j)) /\ attrs_cache_ok w.

Lemma next_inv_set_lastIndex re p i (w : World) :
  next_inv re p w -> next_inv re p (set_lastIndex w re p i).
Proof.
  intros [[j Hre] Hc]. split.
  - exists i. by eapply lookup_set_lastIndex_eq.
  - intros text l Hl. rewrite (attrs_view_set_lastIndex _ _ _ _ _ _ Hre).
    by apply (Hc text).
Qed.

Lemma next_inv_default re p (w : World) :
  next_inv re p w -> next_inv re p (with_default_attrs w).
Proof.
  intros [[j Hre] Hc]. split.
  - exists j. by apply lookup_with_default_attrs.
  - intros text l Hl. destruct (Hc text l Hl) as [v Hv].
    exists v. by apply attrs_view_with_default_attrs.
Qed.

Lemma next_inv_parsed re p (w : World) text named numeric :
  next_inv re p w -> next_inv re p (with_parsed_attrs w text named numeric).
Proof.
  intros [[j Hre] Hc]. split.
  - exists j. cbn [with_parsed_attrs w_heap]. by apply lookup_app_l_Some.
  - intros text' l Hl. cbn [with_parsed_attrs w_attrs] in Hl.
    destruct (decide (text = text')) as [->|Hne].
    + rewrite lookup_insert_eq in Hl. inversion Hl; subst.
      rewrite attrs_view_parsed. eauto.
    + rewrite lookup_insert_ne in Hl by done.
      destruct (Hc text' l Hl) as [v Hv]. exists v.
      eapply attrs_view_extend; [|exact Hv].
      intros k c Hk. cbn [with_parsed_attrs w_heap]. by apply lookup_app_l_Some.
Qed.

(** A second call of [Shortcode.attrs] on the same text, in a world whose
    cache is the one the first call left, answers as the first did and
    changes nothing. *)
Lemma attrs_again (s : jstring) (u u1 u' : World) (r : Res nat) :
  Shortcode.attrs s u = (r, u1) ->
  w_attrs u' = w_attrs u1 ->
  Shortcode.attrs s u' = (r, u').
Proof.
  intros H Hc. unfold Shortcode.attrs, memoize in *.
  destruct (w_attrs u !! s) as [l|] eqn:Ec.
  - inversion H; subst. by rewrite Hc, Ec.
  - unfold Shortcode.attrs_body in *.
    destruct (replace_global Shortcode.spaces_pattern s (js " ")) as [s'|].
    + destruct (Shortcode.attrs_loop (S (length s')) s' 0 [] []) as [[named numeric]|].
      * cbn in H. inversion H; subst. rewrite Hc. cbn [w_attrs record_attrs].
        by rewrite lookup_insert_eq.
      * inversion H; subst. by rewrite Hc, Ec.
    + inversion H; subst. by rewrite Hc, Ec.
Qed.

Lemma attrs_keeps_inv re p (s : jstring) (u u1 : World) (r : Res nat) :
  next_inv re p u ->
  Shortcode.attrs s u = (r, u1) ->
  next_inv re p u1 /\ forall l, r = Ok l -> is_Some (attrs_view u1 l).
Proof.
  intros Hinv H. destruct (w_attrs u !! s) as [l|] eqn:Ec.
  - rewrite (attrs_hit _ _ _ Ec) in H. inversion H; subst. split; [done|].
    intros l' [= <-]. destruct Hinv as [_ Hc]. by apply (Hc s).
  - destruct (replace_global Shortcode.spaces_pattern s (js " ")) as [s'|] eqn:Es;
      [destruct (Shortcode.attrs_loop (S (length s')) s' 0 [] [])
         as [[named numeric]|] eqn:El|].
    + rewrite (attrs_miss _ _ _ _ _ Ec Es El) in H. inversion H; subst.
      split; [by apply next_inv_parsed|].
      intros l' [= <-]. rewrite attrs_view_parsed. eauto.
    + unfold Shortcode.attrs, memoize, Shortcode.attrs_body in H.
      rewrite Ec, Es, El in H. inversion H; subst. by split.
    + unfold Shortcode.attrs, memoize, Shortcode.attrs_body in H.
      rewrite Ec, Es in H. inversion H; subst. by split.
Qed.

(** Two runs of the constructor on the same options, the second after the
    first and after any writes of [lastIndex], build shortcode objects that
    look the same. *)
Lemma construct_again re p (o : Options) (u u1 : World) (r1 : Res ShortcodeObj) :
  (forall l, o_attrs o <> VRef l) ->
  next_inv re p u ->
  Shortcode.construct o u = (r1, u1) ->
  next_inv re p u1
  /\ w_regexp u1 = w_regexp u
  /\ forall k r2 u2,
       Shortcode.construct o (set_lastIndex u1 re p k) = (r2, u2) ->
       res_map (shortcode_view u1) r1 = res_map (shortcode_view u2) r2.
Proof.
  intros Hnr Hinv H. rewrite construct_unfold in H. cbv zeta in H.
  assert (Hdefault :
    (Ok (mkShortcode (o_tag o) (default_attrs_loc u) (o_type o) (o_content o)),
     with_default_attrs u) = (r1, u1) ->
    next_inv re p u1 /\ w_regexp u1 = w_regexp u /\
    forall k r2 u2,
      (Ok (mkShortcode (o_tag o) (default_attrs_loc (set_lastIndex u1 re p k))
             (o_type o) (o_content o)),
       with_default_attrs (set_lastIndex u1 re p k)) = (r2, u2) ->
      res_map (shortcode_view u1) r1 = res_map (shortcode_view u2) r2).
  { intros [= <- <-]. split; [by apply next_inv_default|]. split; [done|].
    intros k r2 u2 [= <- <-]. cbn [res_map]. unfold shortcode_view.
    cbn [sc_tag sc_type sc_content sc_attrs].
    by rewrite !attrs_view_default. }
  destruct (negb (truthy (o_attrs o))) eqn:Et.
  { destruct (Hdefault H) as (Hi & Hr & Hv). split; [done|]. split; [done|].
    intros k r2 u2 H2. rewrite construct_unfold in H2. cbv zeta in H2.
    rewrite Et in H2. by eapply Hv. }
  destruct (o_attrs o) as [| s | n | l] eqn:Eo; [..|by destruct (Hnr l)].
  - destruct (Hdefault H) as (Hi & Hr & Hv). split; [done|]. split; [done|].
    intros k r2 u2 H2. rewrite construct_unfold in H2. cbv zeta in H2.
    rewrite Eo, Et in H2. by eapply Hv.
  - (* a text: the parser, or its cache *)
    unfold bind in H.
    destruct (Shortcode.attrs s (with_default_attrs u)) as [ra ua] eqn:Ea.
    destruct (attrs_keeps_inv re p _ _ _ _ (next_inv_default _ _ _ Hinv) Ea)
      as [Hia Hview].
    assert (Hreg : w_regexp ua = w_regexp u).
    { unfold Shortcode.attrs, memoize, Shortcode.attrs_body in Ea.
      destruct (w_attrs (with_default_attrs u) !! s); [by inversion Ea; subst|].
      destruct (replace_global Shortcode.spaces_pattern s (js " ")) as [s'|];
        [|by inversion Ea; subst].
      destruct (Shortcode.attrs_loop (S (length s')) s' 0 [] []) as [[named numeric]|];
        [|by inversion Ea; subst].
      cbn in Ea. by inversion Ea; subst. }
    assert (Hu1 : u1 = ua) by (destruct ra; by inversion H).
    subst u1. split; [done|]. split; [done|].
    intros k r2 u2 H2. rewrite construct_unfold in H2. cbv zeta in H2.
    rewrite Eo, Et in H2. unfold bind in H2.
    rewrite (attrs_again s _ _ (with_default_attrs (set_lastIndex ua re p k)) _ Ea)
      in H2 by done.
    destruct ra as [l| | |]; inversion H; inversion H2; subst; try done.
    cbn [res_map]. unfold shortcode_view.
    cbn [sc_tag sc_type sc_content sc_attrs Shortcode.with_attrs].
    destruct (Hview l eq_refl) as [v Hv]. rewrite Hv.
    destruct Hia as [[j Hre] _].
    erewrite attrs_view_with_default_attrs; [done|].
    by rewrite (attrs_view_set_lastIndex _ _ _ _ _ _ Hre).
  - destruct (Hdefault H) as (Hi & Hr & Hv). split; [done|]. split; [done|].
    intros k r2 u2 H2. rewrite construct_unfold in H2. cbv zeta in H2.
    rewrite Eo, Et in H2. by eapply Hv.
Qed.

Lemma set_lastIndex_twice (w : World) re p k e :
  set_lastIndex (set_lastIndex w re p k) re p e = set_lastIndex w re p e.
Proof. unfold set_lastIndex. cbn [w_heap w_regexp w_attrs]. by rewrite list_insert_insert_eq. Qed.

Lemma arg_match_array_not_ref (m : Match) (i l : nat) : arg (match_array m) i <> VRef l.
Proof.
  unfold arg, match_array. destruct i as [|i]; [done|].
  rewrite lookup_cons, list_lookup_fmap.
  destruct (m_groups m !! i) as [[s|]|]; done.
Qed.

(** Index and content of a result depend on the match alone. *)
Lemma result_view_report (w : World) (m : Match) (sc : ShortcodeObj) :
  result_view w (report m sc)
  = (Shortcode.index (report m sc), Shortcode.content (report m sc), shortcode_view w sc)
  /\ forall sc', Shortcode.index (report m sc') = Shortcode.index (report m sc)
                 /\ Shortcode.content (report m sc') = Shortcode.content (report m sc).
Proof.
  unfold result_view, report.
  destruct (truthy (of_capture (m_get m 1))), (truthy (of_capture (m_get m 7))); by split.
Qed.

(** Two runs of [next] on the known pattern object, the second after
    the first and from any [lastIndex], have the same outcome. *)
Lemma next_known_again re p text (fuel : nat) :
  forall i w r1 w1,
    next_inv re p w ->
    next_known fuel re p text i w = (r1, w1) ->
    next_inv re p w1
    /\ w_regexp w1 = w_regexp w
    /\ forall k r2 w2,
         next_known fuel re p text i (set_lastIndex w1 re p k) = (r2, w2) ->
         outcome_view w1 r1 = outcome_view w2 r2.
Proof.
  induction fuel as [|fuel IH]; intros i w r1 w1 Hinv H.
  { cbn in H. inversion H; subst. split; [done|]. split; [done|].
    intros k r2 w2 H2. cbn in H2. by inversion H2; subst. }
  cbn [next_known] in H. unfold bind at 1 in H. unfold store at 1 in H.
  change (mkWorld (<[re:=CRegExp p (snd (exec_global p text i))]> (w_heap w))
            (w_regexp w) (w_attrs w))
    with (set_lastIndex w re p (snd (exec_global p text i))) in H.
  assert (Hstep : forall k r2 w2,
    next_known (S fuel) re p text i (set_lastIndex w1 re p k) = (r2, w2) ->
    match fst (exec_global p text i) with
    | Some m =>
        if escaped m
        then next_known fuel re p text (snd (exec_global p text i))
               (set_lastIndex w1 re p (snd (exec_global p text i)))
        else (let* sc := Shortcode.fromMatch (match_array m) in ret (Some (report m sc)))
               (set_lastIndex w1 re p (snd (exec_global p text i)))
    | None => ret None (set_lastIndex w1 re p (snd (exec_global p text i)))
    end = (r2, w2)).
  { intros k r2 w2 H2. cbn [next_known] in H2.
    unfold bind at 1 in H2. unfold store at 1 in H2.
    cbn [set_lastIndex w_heap w_regexp w_attrs] in H2.
    rewrite list_insert_insert_eq in H2.
    destruct (fst (exec_global p text i)) as [m|]; [destruct (escaped m)|]; exact H2. }
  pose proof (next_inv_set_lastIndex re p (snd (exec_global p text i)) w Hinv) as Hinv'.
  destruct (fst (exec_global p text i)) as [m|].
  - destruct (escaped m).
    + destruct (IH _ _ _ _ Hinv' H) as (Hi & Hr & Hv).
      split; [done|]. split; [done|].
      intros k r2 w2 H2. apply Hstep in H2. by eapply Hv.
    + unfold bind in H.
      destruct (Shortcode.fromMatch (match_array m)
                  (set_lastIndex w re p (snd (exec_global p text i))))
        as [rc uc] eqn:Ec.
      unfold Shortcode.fromMatch in Ec.
      pose proof (fun Hnr => construct_again re p _ _ _ _ Hnr Hinv' Ec) as Hca.
      destruct (Hca (fun l => arg_match_array_not_ref m 3 l)) as (Hi & Hr & Hv).
      clear Hca.
      assert (Hw1 : w1 = uc) by (destruct rc; by inversion H). subst w1.
      split; [done|]. split; [done|].
      intros k r2 w2 H2. apply Hstep in H2. unfold bind in H2.
      unfold Shortcode.fromMatch in H2.
      destruct (Shortcode.construct _ (set_lastIndex uc re p (snd (exec_global p text i))))
        as [rc2 uc2] eqn:Ec2.
      specialize (Hv _ _ _ Ec2).
      destruct rc as [sc1| | |], rc2 as [sc2| | |];
        cbn [res_map] in Hv; try discriminate Hv;
        inversion H; inversion H2; subst;
        [|unfold outcome_view; cbn [res_map]; congruence..].
      assert (Hsv : shortcode_view uc sc1 = shortcode_view w2 sc2) by congruence.
      unfold outcome_view. cbn [res_map fmap option_fmap option_map].
      destruct (result_view_report uc m sc1) as [-> Hsame].
      destruct (result_view_report w2 m sc2) as [-> _].
      destruct (Hsame sc2) as [-> ->].
      by rewrite Hsv.
  - inversion H; subst. split; [done|]. split; [done|].
    intros k r2 w2 H2. apply Hstep in H2. by inversion H2; subst.
Qed.

Lemma set_lastIndex_same (w : World) re p j :
  w_heap w !! re = Some (CRegExp p j) -> set_lastIndex w re p j = w.
Proof.
  intros H. destruct w as [h cr ca]. unfold set_lastIndex. cbn [w_heap w_regexp w_attrs] in *.
  by rewrite list_insert_id.
Qed.

Lemma next_not_compiled (w : World) tag text start (r : Res nat) :
  Shortcode.regexp tag w = (r, w) ->
  (forall l, r <> Ok l) ->
  exists r', Shortcode.next tag text start w = (r', w) /\ forall o, r' <> Ok o.
Proof.
  intros H Hr. unfold Shortcode.next. cbn [Shortcode.next_from].
  by apply bind_not_ok with (r := r).
Qed.

(** C10: two calls of [next] with the same tag, text and index, one after
    the other, have the same outcome: the same index and content, and
    shortcode objects that hold the same; and so has a call made after the
    [lastIndex] of the shared pattern object was left at any other value.
    [next] writes [lastIndex] before every [exec]. *)
Theorem next_repeatable (w w1 : World) (tag text : jstring) (start : option nat)
    (r1 : Res (option Shortcode.NextResult)) :
  regexp_cache_ok w ->
  attrs_cache_ok w ->
  Shortcode.next tag text start w = (r1, w1) ->
  (forall r2 w2,
     Shortcode.next tag text start w1 = (r2, w2) ->
     outcome_view w1 r1 = outcome_view w2 r2)
  /\ (forall re p k r2 w2,
        regexp_at w1 tag re p ->
        Shortcode.next tag text start (set_lastIndex w1 re p k) = (r2, w2) ->
        outcome_view w1 r1 = outcome_view w2 r2).
Proof.
  intros Hok Hca H1.
  destruct (compile (Shortcode.regexp_source tag)) as [p| |] eqn:Ep.
  - destruct (regexp_ready w tag p Hok Ep) as (re & wA & Hr & Hat & Hattrs & Hext).
    rewrite (next_known_pattern _ _ _ _ _ _ _ Hr Hat) in H1.
    assert (Hinv : next_inv re p wA).
    { split; [by destruct Hat|]. intros s l Hl. rewrite Hattrs in Hl.
      destruct (Hca s l Hl) as [v Hv]. exists v. by eapply attrs_view_extend. }
    destruct (next_known_again re p text _ _ _ _ _ Hinv H1) as (Hi & Hreg & Hv).
    assert (Hat1 : regexp_at w1 tag re p).
    { split; [rewrite Hreg; by destruct Hat | by destruct Hi]. }
    assert (Hk : forall k r2 w2,
               Shortcode.next tag text start (set_lastIndex w1 re p k) = (r2, w2) ->
               outcome_view w1 r1 = outcome_view w2 r2).
    { intros k r2 w2 H2. unfold Shortcode.next in H2.
      rewrite (next_from_hit _ _ _ _ _ _ _ (regexp_at_set_lastIndex _ _ _ _ k Hat1)) in H2.
      by eapply Hv. }
    split.
    + intros r2 w2 H2. destruct Hi as [[j Hj] _].
      rewrite <- (set_lastIndex_same _ _ _ _ Hj) in H2. by eapply Hk.
    + intros re' p' k r2 w2 [Hc' [j' Hj']] H2.
      destruct Hat1 as [Hc1 [j1 Hj1]].
      assert (re' = re) by congruence. subst re'.
      assert (p' = p) by congruence. subst p'.
      by eapply Hk.
  - assert (Hr : Shortcode.regexp tag w = (Throw ESyntaxError, w)).
    { destruct (w_regexp w !! tag) as [l|] eqn:Ec.
      - destruct (Hok _ _ Ec) as (p & j & _ & Hp). congruence.
      - unfold Shortcode.regexp, memoize. by rewrite Ec, Ep. }
    destruct (next_not_compiled w tag text start _ Hr) as (r' & Hn & Hr'); [done|].
    rewrite Hn in H1. inversion H1; subst. split.
    + intros r2 w2 H2. rewrite Hn in H2. by inversion H2; subst.
    + intros re p k r2 w2 [Hc [j Hj]] H2.
      destruct (Hok _ _ Hc) as (p' & j' & _ & Hp). congruence.
  - assert (Hr : Shortcode.regexp tag w = (Beyond, w)).
    { destruct (w_regexp w !! tag) as [l|] eqn:Ec.
      - destruct (Hok _ _ Ec) as (p & j & _ & Hp). congruence.
      - unfold Shortcode.regexp, memoize. by rewrite Ec, Ep. }
    destruct (next_not_compiled w tag text start _ Hr) as (r' & Hn & Hr'); [done|].
    rewrite Hn in H1. inversion H1; subst. split.
    + intros r2 w2 H2. rewrite Hn in H2. by inversion H2; subst.
    + intros re p k r2 w2 [Hc [j Hj]] H2.
      destruct (Hok _ _ Hc) as (p' & j' & _ & Hp). congruence.
Qed.

(** A first call, in the empty world, on a text with one occurrence. *)
Definition first_call : Res (option Shortcode.NextResult) * World :=
  Shortcode.next (js "x") (js "a [x b=1] c") None empty_world.

Lemma next_repeatable_witness :
  (forall r2 w2,
     Shortcode.next (js "x") (js "a [x b=1] c") None (snd first_call) = (r2, w2) ->
     outcome_view (snd first_call) (fst first_call) = outcome_view w2 r2)
  /\ (forall re p k r2 w2,
        regexp_at (snd first_call) (js "x") re p ->
        Shortcode.next (js "x") (js "a [x b=1] c") None
          (set_lastIndex (snd first_call) re p k) = (r2, w2) ->
        outcome_view (snd first_call) (fst first_call) = outcome_view w2 r2).
Proof.
  apply (next_repeatable empty_world (snd first_call) (js "x") (js "a [x b=1] c") None
           (fst first_call)).
  - intros tag l H. cbn in H. by rewrite lookup_empty in H.
  - intros text l H. cbn in H. by rewrite lookup_empty in H.
  - vm_compute. reflexivity.
Defined.

(** ** Running the matcher on a text of known shape *)

(** The state after reading [s], with [r] left. *)
Definition advance (x : MState) (s r : jstring) : MState :=
  mkMState r (last_char s (ms_prev x)) (ms_end x + length s) (ms_caps x).

Lemma last_char_cons (c : char) (s : jstring) (d : option char) :
  last_char (c :: s) d = last_char s (Some c).
Proof.
  unfold last_char. destruct s as [|b s]; [reflexivity|].
  rewrite last_cons_cons.
  destruct (last (b :: s)) eqn:E; [reflexivity|]. by apply last_None in E.
Qed.

Lemma strip_prefix_app (a b s : jstring) :
  strip_prefix (a ++ b) s
  = match strip_prefix a s with Some t => strip_prefix b t | None => None end.
Proof.
  revert s. induction a as [|c a IH]; intros s; [done|].
  destruct s as [|d s]; [done|]. cbn [app strip_prefix].
  destruct (c =? d)%N; [apply IH|done].
Qed.

Lemma strip_prefix_self (a r : jstring) : strip_prefix a (a ++ r) = Some r.
Proof.
  induction a as [|c a IH]; [done|]. cbn [app strip_prefix]. by rewrite N.eqb_refl.
Qed.

Lemma strip_prefix_Some (a s t : jstring) : strip_prefix a s = Some t -> s = a ++ t.
Proof.
  revert s. induction a as [|c a IH]; intros s H; [by inversion H|].
  destruct s as [|d s]; [done|]. cbn [strip_prefix] in H.
  destruct (N.eqb_spec c d) as [->|]; [|done]. cbn [app]. f_equal. by apply IH.
Qed.

(** A sequence of literal characters reads exactly these characters. *)
Lemma rmatch_chars (s : jstring) :
  forall r prev e caps (k : Cont),
    rmatch (mk_seq (map RChar s)) (mkMState (s ++ r) prev e caps) k
    = k (mkMState r (last_char s prev) (e + length s) caps).
Proof.
  induction s as [|c s IH]; intros r prev e caps k.
  - cbn. by rewrite Nat.add_0_r.
  - cbn [map mk_seq foldr rmatch app]. unfold step_char. cbn [ms_rest ms_end ms_caps].
    rewrite N.eqb_refl. fold (mk_seq (map RChar s)).
    rewrite IH, last_char_cons. cbn [length]. do 2 f_equal. lia.
Qed.

(** A greedy run of a class reads the longest prefix it can; when the
    continuation accepts there, that is the match. *)
Lemma repeat_class_run neg items (p : jstring) :
  forall r prev e caps (k : Cont) z fuel,
    Forall (fun c => class_matches neg items c = true) p ->
    (forall c r', r = c :: r' -> class_matches neg items c = false) ->
    length p < fuel ->
    k (mkMState r (last_char p prev) (e + length p) caps) = Some z ->
    repeat_matcher fuel (rmatch (RClass neg items)) 0 None true 0 0
      (mkMState (p ++ r) prev e caps) k = Some z.
Proof.
  induction p as [|c p IH]; intros r prev e caps k z fuel Hp Hr Hf Hk;
    (destruct fuel as [|fuel]; [lia|]).
  - cbn [repeat_matcher Nat.eqb negb app clear_caps rmatch].
    unfold step_char, with_caps. cbn [ms_caps ms_rest ms_prev ms_end].
    cbn [last_char last length] in Hk. rewrite Nat.add_0_r in Hk.
    destruct r as [|c r']; [done|]. by rewrite (Hr c r' eq_refl).
  - cbn [repeat_matcher Nat.eqb negb app clear_caps rmatch].
    unfold step_char, with_caps. cbn [ms_caps ms_rest ms_prev ms_end].
    inversion Hp as [|? ? Hc Hp']; subst. rewrite Hc.
    cbn [andb]. replace (S e =? e) with false by (symmetry; apply Nat.eqb_neq; lia).
    cbn [pred fmap option_fmap option_map].
    erewrite IH; [done|done|done|cbn [length] in Hf; lia|].
    rewrite last_char_cons in Hk. cbn [length] in Hk.
    by replace (S e + length p) with (e + S (length p)) by lia.
Qed.

Lemma rmatch_class_run neg items (p r : jstring) prev e caps (k : Cont) z :
  Forall (fun c => class_matches neg items c = true) p ->
  (forall c r', r = c :: r' -> class_matches neg items c = false) ->
  k (mkMState r (last_char p prev) (e + length p) caps) = Some z ->
  rmatch (RQuant (RClass neg items) 0 None true 0 0) (mkMState (p ++ r) prev e caps) k
  = Some z.
Proof.
  intros Hp Hr Hk. cbn [rmatch ms_rest].
  apply repeat_class_run; try done. rewrite length_app. lia.
Qed.

(** An optional character that is not there. *)
Lemma rmatch_optional_absent (c : char) (x : MState) (k : Cont) :
  (forall d r, ms_rest x = d :: r -> d <> c) ->
  rmatch (RQuant (RChar c) 0 (Some 1) true 0 0) x k = k x.
Proof.
  intros H. destruct x as [rest prev e caps].
  cbn [rmatch repeat_matcher Nat.eqb negb clear_caps Nat.add].
  unfold step_char, with_caps. cbn [ms_caps ms_rest ms_prev ms_end].
  destruct rest as [|d r]; [done|].
  destruct (N.eqb_spec d c) as [->|]; [|done].
  by destruct (H c r eq_refl).
Qed.

Lemma last_char_app (a b : jstring) (d : option char) :
  last_char (a ++ b) d = last_char b (last_char a d).
Proof.
  revert d. induction a as [|c a IH]; intros d; [done|].
  cbn [app]. by rewrite !last_char_cons, IH.
Qed.

Lemma rmatch_seq (a b : Regex) (x : MState) (k : Cont) :
  rmatch (RSeq a b) x k = rmatch a x (fun y => rmatch b y k).
Proof. reflexivity. Qed.

Lemma rmatch_group (n : nat) (a : Regex) (x : MState) (k : Cont) :
  rmatch (RGroup n a) x k
  = rmatch a x (fun y =>
      k (with_caps y
           (set_cap n (Some (take (ms_end y - ms_end x) (ms_rest x))) (ms_caps y)))).
Proof. reflexivity. Qed.

Lemma rmatch_char (c : char) (r : jstring) prev e caps (k : Cont) :
  rmatch (RChar c) (mkMState (c :: r) prev e caps) k = k (mkMState r (Some c) (S e) caps).
Proof. cbn [rmatch]. unfold step_char. cbn [ms_rest ms_end ms_caps]. by rewrite N.eqb_refl. Qed.

Lemma rmatch_look_not (a : Regex) (x : MState) (k : Cont) :
  rmatch a x Some = None -> rmatch (RLook false a) x k = k x.
Proof. intros H. cbn [rmatch]. by rewrite H. Qed.

Lemma rmatch_alt_second (a b : Regex) (x : MState) (k : Cont) :
  rmatch a x k = None -> rmatch (RAlt a b) x k = rmatch b x k.
Proof. intros H. cbn [rmatch]. by rewrite H. Qed.

(** A lazy repetition stops at once when what follows matches. *)
Lemma rmatch_lazy_skip (a : Regex) pi pc (x : MState) (k : Cont) z :
  k x = Some z -> rmatch (RQuant a 0 None false pi pc) x k = Some z.
Proof. intros H. cbn [rmatch repeat_matcher Nat.eqb negb Nat.add]. by rewrite H. Qed.

(** An optional group, taken once. *)
Lemma rmatch_optional_taken (a : Regex) pi pc (x : MState) (k : Cont) z :
  ms_rest x <> [] ->
  rmatch a (with_caps x (clear_caps pi pc (ms_caps x)))
    (fun y => if ms_end y =? ms_end x then None else k y) = Some z ->
  rmatch (RQuant a 0 (Some 1) true pi pc) x k = Some z.
Proof.
  intros Hne H. destruct (ms_rest x) as [|c r] eqn:Er; [done|].
  cbn [rmatch]. rewrite Er.
  cbn [length Nat.add repeat_matcher Nat.eqb negb andb pred fmap option_fmap option_map].
  by rewrite H.
Qed.

(** *** The content and the closing tag *)

(** The text "[/tag]", and "/tag]". *)
Definition close_tail_text (tag : jstring) : jstring := 47%N :: tag ++ [93%N].
Definition closing_text (tag : jstring) : jstring := 91%N :: close_tail_text tag.

(** The content holds no closing tag of [tag]. *)
Definition no_closing (tag content : jstring) : Prop :=
  forall a b, content <> a ++ closing_text tag ++ b.

Lemma no_closing_suffix (tag a c : jstring) : no_closing tag (a ++ c) -> no_closing tag c.
Proof.
  intros H a' b ->. apply (H (a ++ a') b). by rewrite <- app_assoc.
Qed.

Lemma bracket_not_in_tail (tag : jstring) :
  forallb tag_char tag = true -> ~ In 91%N (close_tail_text tag).
Proof.
  intros Ht Hin. unfold close_tail_text in Hin.
  destruct Hin as [Hin|Hin]; [done|].
  apply in_app_or in Hin as [Hin|[Hin|[]]]; [|done].
  rewrite forallb_forall in Ht. by specialize (Ht _ Hin).
Qed.

(** After a bracket of a content without closing tag, the text does not
    go on as a closing tag does. *)
Lemma no_closing_bracket (tag c : jstring) :
  forallb tag_char tag = true ->
  no_closing tag (91%N :: c) ->
  strip_prefix (close_tail_text tag) (c ++ closing_text tag) = None.
Proof.
  intros Ht Hno. destruct (strip_prefix _ _) as [t|] eqn:E; [|done].
  apply strip_prefix_Some in E. apply app_eq_app in E as [l [[Hc _]|[Hp Hl]]].
  - destruct (Hno [] l). cbn [app]. unfold closing_text. by rewrite Hc.
  - destruct l as [|d l].
    + rewrite app_nil_r in Hp. destruct (Hno [] []).
      cbn [app]. unfold closing_text. by rewrite app_nil_r, Hp.
    + unfold closing_text in Hl. cbn [app] in Hl. injection Hl as <- _.
      destruct (bracket_not_in_tail tag Ht). rewrite Hp.
      apply in_or_app. right. by left.
Qed.

Lemma rmatch_close_tail_rejects (tag rest : jstring) prev e caps :
  caps !! 1 = Some (Some tag) ->
  strip_prefix (close_tail_text tag) rest = None ->
  rmatch re_close_tail (mkMState rest prev e caps) Some = None.
Proof.
  intros Hc Hs. unfold re_close_tail. cbn [rmatch]. unfold step_char.
  cbn [ms_rest ms_end ms_caps ms_prev pred].
  destruct rest as [|d rest]; [done|].
  unfold close_tail_text in Hs. cbn [app strip_prefix] in Hs.
  destruct (N.eqb_spec d 47) as [->|]; [|done].
  cbn [N.eqb Pos.eqb] in Hs. rewrite Hc.
  rewrite strip_prefix_app in Hs.
  destruct (strip_prefix tag rest) as [tl|]; [|done].
  destruct tl as [|d tl]; [done|]. cbn [strip_prefix] in Hs.
  rewrite N.eqb_sym. by destruct (93 =? d)%N.
Qed.

Lemma rmatch_close_tail_accepts (tag r : jstring) prev e caps (k : Cont) :
  caps !! 1 = Some (Some tag) ->
  rmatch re_close_tail (mkMState (close_tail_text tag ++ r) prev e caps) k
  = k (mkMState r (Some 93%N) (S (S (e + length tag))) caps).
Proof.
  intros Hc. unfold re_close_tail, close_tail_text.
  cbn [app]. rewrite <- app_assoc. cbn [app].
  rewrite rmatch_seq, rmatch_char. rewrite rmatch_seq.
  cbn [rmatch ms_caps ms_rest ms_end ms_prev pred]. rewrite Hc, strip_prefix_self.
  unfold step_char. cbn [ms_rest ms_end ms_caps]. rewrite N.eqb_refl.
  reflexivity.
Qed.

(** A text splits into its longest prefix free of opening brackets and a
    rest that is empty or starts with one. *)
Lemma split_text_run (c : jstring) :
  exists p c',
    c = p ++ c'
    /\ Forall (fun ch => class_matches true [CChar 91] ch = true) p
    /\ (c' = [] \/ exists c'', c' = 91%N :: c'').
Proof.
  induction c as [|a c (p & c' & -> & Hp & Hc')].
  - exists [], []. repeat split; [constructor | by left].
  - destruct (N.eqb_spec a 91) as [->|Hne].
    + exists [], (91%N :: p ++ c'). repeat split; [constructor | right; eauto].
    + exists (a :: p), c'. repeat split; [|done].
      constructor; [|done]. unfold class_matches. cbn [existsb item_matches].
      apply N.eqb_neq in Hne. by rewrite Hne.
Qed.

Lemma text_run_stops (c' tag : jstring) :
  (c' = [] \/ exists c'', c' = 91%N :: c'') ->
  forall d r', c' ++ closing_text tag = d :: r' -> class_matches true [CChar 91] d = false.
Proof.
  intros [->|[c'' ->]] d r' H; cbn [app closing_text] in H; by inversion H; subst.
Qed.

(** The brackets of the content, each with the run after it, are read up
    to the closing tag. *)
Lemma repeat_brackets (tag : jstring) (n : nat) :
  forallb tag_char tag = true ->
  forall c prev e caps (K : Cont) z fuel,
    length c <= n ->
    (c = [] \/ exists c', c = 91%N :: c') ->
    no_closing tag c ->
    caps !! 1 = Some (Some tag) ->
    length c < fuel ->
    K (mkMState (closing_text tag) (last_char c prev) (e + length c) caps) = Some z ->
    repeat_matcher fuel
      (rmatch (RSeq (RChar 91)
                 (RSeq (RLook false re_close_tail) (RSeq re_text_run REmpty))))
      0 None true 0 0 (mkMState (c ++ closing_text tag) prev e caps) K = Some z.
Proof.
  intros Ht. induction n as [|n IH]; intros c prev e caps K z fuel Hn Hc Hno Hcap Hf HK;
    (destruct fuel as [|fuel]; [lia|]).
  - destruct c; [|cbn in Hn; lia]. clear Hc.
    cbn [app last_char last length] in *. rewrite Nat.add_0_r in HK.
    cbn [repeat_matcher Nat.eqb negb clear_caps]. unfold with_caps.
    cbn [ms_rest ms_prev ms_end ms_caps].
    unfold closing_text at 1. rewrite rmatch_seq, rmatch_char, rmatch_seq.
    cbn [rmatch]. rewrite <- (app_nil_r (close_tail_text tag)) at 1.
    rewrite (rmatch_close_tail_accepts tag [] _ _ _ Some Hcap).
    exact HK.
  - destruct Hc as [->|[c' ->]].
    { apply (IH [] prev e caps K z (S fuel)); try done; [cbn; lia | by left]. }
    destruct (split_text_run c') as (p & c'' & -> & Hp & Hc'').
    cbn [repeat_matcher Nat.eqb negb clear_caps]. unfold with_caps.
    cbn [ms_rest ms_prev ms_end ms_caps app].
    rewrite rmatch_seq, rmatch_char, rmatch_seq.
    rewrite rmatch_look_not by
      (apply (rmatch_close_tail_rejects tag); [done | by apply no_closing_bracket]).
    rewrite rmatch_seq. unfold re_text_run. rewrite <- app_assoc.
    erewrite rmatch_class_run; [done | done | by apply text_run_stops |].
    cbn [rmatch ms_end andb Nat.eqb].
    replace (S e + length p =? e) with false by (symmetry; apply Nat.eqb_neq; lia).
    cbn [pred fmap option_fmap option_map].
    cbn [length] in Hn, Hf. rewrite length_app in Hn, Hf.
    apply (IH c''); [unfold char in *; lia | done | | done | unfold char in *; lia |].
    + apply (no_closing_suffix tag (91%N :: p)). by rewrite <- app_comm_cons.
    + rewrite <- HK. f_equal. f_equal.
      * by rewrite last_char_cons, last_char_app.
      * cbn [length]. rewrite length_app. unfold char in *. lia.
Qed.

(** The content, a run followed by the brackets, is read whole. *)
Lemma rmatch_content_body (tag c : jstring) prev e caps (K : Cont) z :
  forallb tag_char tag = true ->
  no_closing tag c ->
  caps !! 1 = Some (Some tag) ->
  K (mkMState (closing_text tag) (last_char c prev) (e + length c) caps) = Some z ->
  rmatch (RSeq re_text_run (RSeq re_brackets REmpty))
    (mkMState (c ++ closing_text tag) prev e caps) K = Some z.
Proof.
  intros Ht Hno Hcap HK.
  destruct (split_text_run c) as (p & c' & -> & Hp & Hc').
  rewrite rmatch_seq. unfold re_text_run at 1. rewrite <- app_assoc.
  erewrite rmatch_class_run; [done | done | by apply text_run_stops |].
  rewrite rmatch_seq. unfold re_brackets. cbn [rmatch ms_rest Nat.add].
  apply (repeat_brackets tag (length c')); [done | done | done | | done | |].
  - by apply (no_closing_suffix tag p).
  - rewrite length_app. unfold char in *. lia.
  - rewrite <- HK. f_equal. f_equal.
    + by rewrite last_char_app.
    + rewrite length_app. unfold char in *. lia.
Qed.

(** *** Serialized and parsed again (C6) *)

Lemma rmatch_empty (x : MState) (k : Cont) : rmatch REmpty x k = k x.
Proof. reflexivity. Qed.

Ltac step := cbv beta; unfold with_caps; cbn [ms_rest ms_prev ms_end ms_caps].

Lemma bind_ret {A B} (a : A) (k : A -> M B) (w : World) : bind (ret a) k w = k a w.
Proof. reflexivity. Qed.

Lemma entries_of_ref (w : World) (l : nat) (c : Cell) :
  w_heap w !! l = Some c -> entries_of (VRef l) w = (Ok (entries_of_cell c), w).
Proof. intros H. cbn [entries_of]. by rewrite (bind_ok _ _ _ _ _ (load_ok _ _ _ H)). Qed.

(** The store holds [{named: {}, numeric: ["a=b"]}] at 0. *)
Definition numeric_assignment_world : World :=
  mkWorld [CObj [(js "named", VRef 1); (js "numeric", VRef 2)];
           CObj []; CArr [VStr (js "a=b")]] ∅ ∅.

(** [serialize(t)] and [parse(serialize(t)).toString()] for the shortcode
    [t] built from [options] in the world [w]. *)
Definition round_trip (options : Options) (w : World) : option (jstring * jstring) :=
  match Shortcode.construct options w with
  | (Ok t, w1) =>
      match Shortcode.prototype.string t w1 with
      | (Ok s, w2) =>
          match to_string (sc_tag t) with
          | Some tag =>
              match Shortcode.next tag s None w2 with
              | (Ok (Some r), w3) =>
                  match Shortcode.prototype.string (Shortcode.shortcode r) w3 with
                  | (Ok s', _) => Some (s, s')
                  | _ => None
                  end
              | _ => None
              end
          | None => None
          end
      | _ => None
      end
  | _ => None
  end.

(** C6, as stated, fails: the closed shortcode [x] with the single numeric
    attribute [a=b] and the content [c] is written [[x a=b]c[/x]]; read
    back, [a=b] is a named attribute, and it is written [[x a="b"]c[/x]]. *)
Lemma round_trip_fails_with_attributes :
  round_trip (mkOptions (VStr (js "x")) (VRef 0) (VStr (js "closed")) (VStr (js "c")))
    numeric_assignment_world
  = Some (js "[x a=b]c[/x]", js "[x a=" ++ dq ++ js "b" ++ dq ++ js "]c[/x]")
  /\ js "[x a=b]c[/x]" <> js "[x a=" ++ dq ++ js "b" ++ dq ++ js "]c[/x]"
  /\ no_closing (js "x") (js "c").
Proof.
  split; [vm_compute; reflexivity|]. split; [vm_compute; discriminate|].
  intros a b H. destruct a as [|c a]; [by vm_compute in H|].
  destruct a; vm_compute in H; discriminate.
Qed.

Lemma shortcode_report (m : Match) (sc : ShortcodeObj) :
  Shortcode.shortcode (report m sc) = sc.
Proof.
  unfold report.
  by destruct (truthy (of_capture (m_get m 1))), (truthy (of_capture (m_get m 7))).
Qed.

(** * Further properties *)

(** ** What a match reads *)

(** A lower bound on the number of characters a pattern reads. *)
Fixpoint min_len (r : Regex) : nat :=
  match r with
  | RChar _ | RAny | RClass _ _ => 1
  | RSeq a b => min_len a + min_len b
  | RAlt a b => Nat.min (min_len a) (min_len b)
  | RQuant a mn None _ _ _ => mn * min_len a
  | RQuant a mn (Some mx) _ _ _ => Nat.min mn mx * min_len a
  | RGroup _ a => min_len a
  | _ => 0
  end.

(** From [x] the matcher has read [s] and stands at [y]. *)
Definition reads (x y : MState) (s : jstring) : Prop :=
  ms_rest x = s ++ ms_rest y /\ ms_end y = ms_end x + length s.

(** The matcher [m] hands its continuation only states further along in
    the text, by at least [n] characters. *)
Definition reads_at_least (n : nat) (m : Matcher) : Prop :=
  forall x k z,
    m x k = Some z ->
    exists y s, k y = Some z /\ reads x y s /\ n <= length s.

Lemma reads_refl (x : MState) : reads x x [].
Proof. split; [done|]. cbn. lia. Qed.

Lemma reads_trans (x y z : MState) (s t : jstring) :
  reads x y s -> reads y z t -> reads x z (s ++ t).
Proof.
  intros [Hr1 He1] [Hr2 He2]. split.
  - by rewrite Hr1, Hr2, app_assoc.
  - rewrite He2, He1, length_app. lia.
Qed.

Lemma reads_with_caps_l (x y : MState) caps s :
  reads (with_caps x caps) y s <-> reads x y s.
Proof. done. Qed.

Lemma reads_with_caps_r (x y : MState) caps s :
  reads x (with_caps y caps) s <-> reads x y s.
Proof. done. Qed.

Definition quant_bound (mn : nat) (mx : option nat) : nat :=
  match mx with Some m => Nat.min mn m | None => mn end.

Lemma repeat_matcher_reads (n : nat) (m : Matcher) (fuel : nat) :
  reads_at_least n m ->
  forall mn mx greedy pi pc,
    reads_at_least (quant_bound mn mx * n)
      (repeat_matcher fuel m mn mx greedy pi pc).
Proof.
  intros Hm. induction fuel as [|fuel IH]; intros mn mx greedy pi pc x k z H; [done|].
  cbn [repeat_matcher] in H.
  assert (Hstop : k x = Some z ->
                  (mn = 0 \/ mx = Some 0) ->
                  exists y s, k y = Some z /\ reads x y s
                              /\ quant_bound mn mx * n <= length s).
  { intros Hk Hz. exists x, []. split; [done|]. split; [apply reads_refl|].
    destruct Hz as [->| ->]; cbn; [destruct mx; cbn; lia | rewrite Nat.min_0_r; lia]. }
  assert (Hiter :
    m (with_caps x (clear_caps pi pc (ms_caps x)))
      (fun y => if (mn =? 0) && (ms_end y =? ms_end x) then None
                else repeat_matcher fuel m (pred mn) (pred <$> mx) greedy pi pc y k)
    = Some z ->
    mx <> Some 0 ->
    exists y s, k y = Some z /\ reads x y s /\ quant_bound mn mx * n <= length s).
  { intros Hi Hmx. destruct (Hm _ _ _ Hi) as (y1 & s1 & Hd & Hr1 & Hn1).
    destruct ((mn =? 0) && (ms_end y1 =? ms_end x)); [done|].
    destruct (IH _ _ _ _ _ _ _ _ Hd) as (y & s2 & Hk & Hr2 & Hn2).
    exists y, (s1 ++ s2). split; [done|].
    split; [by eapply reads_trans|].
    rewrite length_app.
    assert (quant_bound mn mx <= S (quant_bound (pred mn) (pred <$> mx))).
    { destruct mx as [[|mx]|]; cbn; [done|lia|lia]. }
    nia. }
  destruct mx as [[|mx]|].
  - apply Hstop; [done | by right].
  - destruct (negb (mn =? 0)) eqn:Emn; [by apply Hiter|].
    apply negb_false_iff, Nat.eqb_eq in Emn.
    destruct greedy.
    + destruct (m _ _) eqn:Ei; [inversion H; subst; by apply Hiter|].
      apply Hstop; [done | by left].
    + destruct (k x) eqn:Ek; [inversion H; subst; apply Hstop; [done | by left]|].
      by apply Hiter.
  - destruct (negb (mn =? 0)) eqn:Emn; [by apply Hiter|].
    apply negb_false_iff, Nat.eqb_eq in Emn.
    destruct greedy.
    + destruct (m _ _) eqn:Ei; [inversion H; subst; by apply Hiter|].
      apply Hstop; [done | by left].
    + destruct (k x) eqn:Ek; [inversion H; subst; apply Hstop; [done | by left]|].
      by apply Hiter.
Qed.

(** Whatever a pattern matches, its continuation resumes further along in
    the text, past at least [min_len] characters. *)
Lemma rmatch_reads (r : Regex) : reads_at_least (min_len r) (rmatch r).
Proof.
  induction r as [| c | | neg items | r1 IH1 r2 IH2 | r1 IH1 r2 IH2
                  | r1 IH1 mn mx greedy pi pc | n r1 IH1 | positive r1 IH1 | n
                  | | | positive]; intros x k z H; cbn [rmatch min_len] in *.
  - exists x, []. split; [done|]. split; [apply reads_refl | done].
  - unfold step_char in H. destruct (ms_rest x) as [|d tl] eqn:Er; [done|].
    destruct (d =? c)%N; [|done].
    eexists _, [d]. split; [exact H|]. split; [|done]. split; cbn; [done|lia].
  - unfold step_char in H. destruct (ms_rest x) as [|d tl] eqn:Er; [done|].
    destruct (negb (is_line_terminator d)); [|done].
    eexists _, [d]. split; [exact H|]. split; [|done]. split; cbn; [done|lia].
  - unfold step_char in H. destruct (ms_rest x) as [|d tl] eqn:Er; [done|].
    destruct (class_matches neg items d); [|done].
    eexists _, [d]. split; [exact H|]. split; [|done]. split; cbn; [done|lia].
  - destruct (IH1 _ _ _ H) as (y1 & s1 & H2 & Hr1 & Hn1).
    destruct (IH2 _ _ _ H2) as (y & s2 & Hk & Hr2 & Hn2).
    exists y, (s1 ++ s2). split; [done|]. split; [by eapply reads_trans|].
    rewrite length_app. lia.
  - destruct (rmatch r1 x k) eqn:E1.
    + inversion H; subst. destruct (IH1 _ _ _ E1) as (y & s & Hk & Hr & Hn).
      exists y, s. repeat split; try done; try apply Hr. lia.
    + destruct (IH2 _ _ _ H) as (y & s & Hk & Hr & Hn).
      exists y, s. repeat split; try done; try apply Hr. lia.
  - destruct (repeat_matcher_reads _ _ _ IH1 _ _ _ _ _ _ _ _ H) as (y & s & Hk & Hr & Hn).
    exists y, s. split; [done|]. split; [done|]. by destruct mx.
  - destruct (IH1 _ _ _ H) as (y & s & Hk & Hr & Hn).
    eexists _, s. split; [exact Hk|]. split; [|done]. by apply reads_with_caps_r.
  - destruct (rmatch r1 x Some) as [y0|]; destruct positive; try done.
    + eexists _, []. split; [exact H|]. split; [|done].
      apply reads_with_caps_r, reads_refl.
    + exists x, []. split; [done|]. split; [apply reads_refl | done].
  - destruct (ms_caps x !! pred n) as [[s|]|].
    + destruct (strip_prefix s (ms_rest x)) as [tl|] eqn:Es; [|done].
      eexists _, s. split; [exact H|]. split; [|lia].
      split; cbn; [by apply strip_prefix_Some | done].
    + exists x, []. split; [done|]. split; [apply reads_refl | done].
    + exists x, []. split; [done|]. split; [apply reads_refl | done].
  - destruct (ms_prev x); [done|].
    exists x, []. split; [done|]. split; [apply reads_refl | done].
  - destruct (ms_rest x); [|done].
    exists x, []. split; [done|]. split; [apply reads_refl | done].
  - destruct (eqb positive _); [|done].
    exists x, []. split; [done|]. split; [apply reads_refl | done].
Qed.

(** ** What [exec] reports *)

(** A match found by the search loop is a piece of the text: some
    characters are skipped, the matched ones follow.  The index reported
    is where they start, and the end where they stop. *)
Lemma scan_found (re : Regex) (n : nat) (rest : jstring) :
  forall prev i m e,
    scan re n prev rest i = Some (m, e) ->
    exists skipped after,
      rest = skipped ++ m_text m ++ after
      /\ m_index m = i + length skipped
      /\ e = m_index m + length (m_text m)
      /\ min_len re <= length (m_text m).
Proof.
  induction rest as [|c rest IH]; intros prev i m e H; cbn [scan] in H.
  - destruct (rmatch re _ Some) as [y|] eqn:Em; [|done].
    destruct (rmatch_reads re _ _ _ Em) as (y' & s & Hy & [Hr He] & Hn).
    inversion Hy; subst y'.
    cbn [ms_rest ms_end] in Hr, He. inversion H; subst. cbn [m_index m_text].
    destruct s; [|done]. exists [], []. cbn in *. repeat split; try done.
    + by rewrite take_nil.
    + rewrite take_nil. cbn. lia.
    + by rewrite take_nil.
  - destruct (rmatch re _ Some) as [y|] eqn:Em.
    + destruct (rmatch_reads re _ _ _ Em) as (y' & s & Hy & [Hr He] & Hn).
      inversion Hy; subst y'.
      cbn [ms_rest ms_end] in Hr, He. inversion H; subst. cbn [m_index m_text].
      rewrite He, Hr. replace (i + length s - i) with (length s) by lia.
      rewrite take_app_length.
      exists [], (ms_rest y). cbn [app length]. repeat split; try done; lia.
    + destruct (IH _ _ _ _ H) as (skipped & after & Hr & Hi & He & Hn).
      exists (c :: skipped), after. cbn [app length]. repeat split; try done.
      * by rewrite Hr.
      * lia.
Qed.

(** [exec] from [lastIndex]: a match lies in the text at the index
    reported, which is not before [lastIndex]; the new [lastIndex] is its
    end. *)
Lemma exec_global_found (p : Pattern) (text : jstring) (i : nat) (m : Match) (e : nat) :
  exec_global p text i = (Some m, e) ->
  exists before after,
    text = before ++ m_text m ++ after
    /\ m_index m = length before
    /\ i <= m_index m
    /\ e = m_index m + length (m_text m)
    /\ min_len (p_re p) <= length (m_text m).
Proof.
  unfold exec_global. intros H.
  destruct (length text <? i) eqn:El; [done|]. apply Nat.ltb_ge in El.
  destruct (scan _ _ _ _ _) as [[m' e']|] eqn:Es; [|done]. inversion H; subst.
  destruct (scan_found _ _ _ _ _ _ _ Es) as (skipped & after & Hr & Hi & He & Hn).
  exists (take i text ++ skipped), after.
  assert (Hlen : length (take i text) = i) by (rewrite length_take; lia).
  repeat split; try done.
  - rewrite <- app_assoc, <- Hr. by rewrite take_drop.
  - rewrite length_app, Hlen. done.
  - lia.
Qed.

Lemma exec_global_end (p : Pattern) (text : jstring) (i : nat) (m : Match) (e : nat) :
  exec_global p text i = (Some m, e) ->
  i + min_len (p_re p) <= e /\ e <= length text.
Proof.
  intros H. destruct (exec_global_found _ _ _ _ _ H)
    as (before & after & Ht & Hi & Hle & He & Hn).
  split; [lia|]. rewrite Ht, !length_app. lia.
Qed.

(** ** The parser always answers *)

(** [text.replace] ends: every round moves [lastIndex] forward. *)
Lemma replace_loop_total (p : Pattern) (text repl : jstring) (fuel : nat) :
  forall i copied acc,
    1 <= fuel ->
    S (length text) < fuel + i ->
    is_Some (replace_loop fuel p text repl i copied acc).
Proof.
  induction fuel as [|fuel IH]; intros i copied acc Hf Hi; [lia|].
  cbn [replace_loop].
  destruct (exec_global p text i) as [[m|] e] eqn:Ee; [|eauto].
  destruct (exec_global_end _ _ _ _ _ Ee) as [Hlo Hhi].
  destruct (exec_global_found _ _ _ _ _ Ee) as (b & a & _ & _ & Hle & He & _).
  apply IH; destruct (Nat.eqb_spec e (m_index m)); lia.
Qed.

Lemma replace_global_total (p : Pattern) (text repl : jstring) :
  is_Some (replace_global p text repl).
Proof. apply replace_loop_total; lia. Qed.

Lemma attrs_pattern_min_len : min_len (p_re Shortcode.attrs_pattern) = 1.
Proof. reflexivity. Qed.

(** The [while] loop of the parser ends: every match of the attribute
    pattern holds at least one character, so each round starts further
    along in the text. *)
Lemma attrs_loop_total (text : jstring) (fuel : nat) :
  forall i named numeric,
    1 <= fuel ->
    length text < fuel + i ->
    is_Some (Shortcode.attrs_loop fuel text i named numeric).
Proof.
  induction fuel as [|fuel IH]; intros i named numeric Hf Hi; [lia|].
  cbn [Shortcode.attrs_loop].
  destruct (exec_global Shortcode.attrs_pattern text i) as [[m|] e] eqn:Ee; [|eauto].
  destruct (exec_global_end _ _ _ _ _ Ee) as [Hlo Hhi].
  rewrite attrs_pattern_min_len in Hlo.
  assert (H1 : 1 <= fuel) by lia.
  assert (H2 : length text < fuel + e) by lia.
  destruct (Shortcode.nonempty (m_get m 1));
    [|destruct (Shortcode.nonempty (m_get m 3));
      [|destruct (Shortcode.nonempty (m_get m 5));
        [|destruct (Shortcode.nonempty (m_get m 7));
          [|destruct (Shortcode.nonempty (m_get m 8))]]]];
    by apply IH.
Qed.

Lemma attrs_answers (w : World) (text : jstring) :
  exists l w',
    Shortcode.attrs text w = (Ok l, w')
    /\ w_attrs w' !! text = Some l
    /\ w_regexp w' = w_regexp w.
Proof.
  destruct (w_attrs w !! text) as [l|] eqn:Ec.
  - exists l, w. by rewrite (attrs_hit _ _ _ Ec).
  - destruct (replace_global_total Shortcode.spaces_pattern text (js " ")) as [text' Hr].
    destruct (attrs_loop_total text' (S (length text')) 0 [] []) as [[named numeric] Hl];
      [lia | lia |].
    do 2 eexists. rewrite (attrs_miss _ _ _ _ _ Ec Hr Hl).
    split; [reflexivity|]. cbn [with_parsed_attrs w_attrs w_regexp].
    by rewrite lookup_insert_eq.
Qed.

(** X1: [Shortcode.attrs] answers for every text: it throws nothing, its
    loop ends, and the object it answers with is the one its cache holds
    for the text from then on. *)
Theorem attrs_always_answers (w : World) (text : jstring) :
  exists l w',
    Shortcode.attrs text w = (Ok l, w')
    /\ w_attrs w' !! text = Some l
    /\ w_regexp w' = w_regexp w.
Proof. apply attrs_answers. Qed.

(** ** [next] always answers for a well-formed tag *)

(** The constructor answers whenever [attrs] is not an object: the only
    calls that can fail are those of [set]. *)
Lemma construct_total (o : Options) (w : World) :
  (forall l, o_attrs o <> VRef l) ->
  exists t w', Shortcode.construct o w = (Ok t, w').
Proof.
  intros Hnr. rewrite construct_unfold. cbv zeta.
  destruct (negb (truthy (o_attrs o))); [unfold ret; eauto|].
  destruct (o_attrs o) as [| s | n | l]; [unfold ret; eauto | | unfold ret; eauto
                                          | by destruct (Hnr l)].
  destruct (attrs_answers (with_default_attrs w) s) as (l & w' & Ha & _).
  rewrite (bind_ok _ _ _ _ _ Ha). unfold ret. eauto.
Qed.

Lemma next_known_total (re : nat) (p : Pattern) (text : jstring) (fuel : nat) :
  1 <= min_len (p_re p) ->
  forall i w,
    1 <= fuel ->
    length text < fuel + i ->
    exists r w', next_known fuel re p text i w = (Ok r, w').
Proof.
  intros Hmin. induction fuel as [|fuel IH]; intros i w Hf Hi; [lia|].
  cbn [next_known]. unfold bind at 1. unfold store at 1.
  destruct (exec_global p text i) as [[m|] e] eqn:Ee; cbn [fst snd];
    [|unfold ret; eauto].
  destruct (exec_global_end _ _ _ _ _ Ee) as [Hlo Hhi].
  destruct (escaped m).
  - apply IH; lia.
  - unfold Shortcode.fromMatch.
    edestruct construct_total as (t & w' & Hc);
      [|rewrite (bind_ok _ _ _ _ _ Hc); unfold ret; eauto].
    intros l. apply arg_match_array_not_ref.
Qed.

Lemma tag_pattern_min_len (tag : jstring) : 1 <= min_len (p_re (tag_pattern tag)).
Proof. cbn [tag_pattern p_re shortcode_regex min_len]. lia. Qed.

(** X2: for a tag of word characters and hyphens, [next] answers for every
    text and every start index, with a result or with [undefined]: nothing
    is thrown, and the search past escaped occurrences ends, each of them
    being at least one character long. *)
Theorem next_always_answers (w : World) (tag text : jstring) (start : option nat) :
  regexp_cache_ok w ->
  forallb tag_char tag = true ->
  exists r w', Shortcode.next tag text start w = (Ok r, w').
Proof.
  intros Hok Ht.
  destruct (regexp_ready w tag _ Hok (compile_tag tag Ht)) as (re & wA & Hr & Hat & _).
  rewrite (next_known_pattern _ _ _ _ _ _ _ Hr Hat).
  apply next_known_total; [apply tag_pattern_min_len | lia | lia].
Qed.

Lemma next_always_answers_witness :
  exists r w', Shortcode.next (js "x") (js "[[x]] [[x]] [x]") (Some 2) empty_world = (Ok r, w').
Proof.
  apply (next_always_answers empty_world (js "x") (js "[[x]] [[x]] [x]") (Some 2)).
  - intros tag l H. cbn in H. by rewrite lookup_empty in H.
  - reflexivity.
Defined.

(** ** Where [next] finds its result *)

Lemma report_located (m : Match) (sc : ShortcodeObj) (text before after : jstring) :
  text = before ++ m_text m ++ after ->
  m_index m = length before ->
  1 <= length (m_text m) ->
  m_index m <= Shortcode.index (report m sc)
  /\ exists before' after',
       text = before' ++ Shortcode.content (report m sc) ++ after'
       /\ length before' = Shortcode.index (report m sc).
Proof.
  intros Ht Hi Hn. unfold report.
  destruct (m_text m) as [|c mt] eqn:Em; [cbn in Hn; lia|].
  assert (Hlast : forall (s b a : jstring),
            text = b ++ s ++ a ->
            exists a', text = b ++ take (length s - 1) s ++ a').
  { intros s b a ->. exists (drop (length s - 1) s ++ a).
    by rewrite (app_assoc (take _ _)), take_drop. }
  destruct (truthy (of_capture (m_get m 1))), (truthy (of_capture (m_get m 7)));
    cbn [Shortcode.index Shortcode.content drop].
  - split; [lia|].
    destruct (Hlast mt (before ++ [c]) after) as [a' Ha'].
    { rewrite Ht, <- app_assoc. done. }
    exists (before ++ [c]), a'. split; [done|]. rewrite length_app. cbn. lia.
  - split; [lia|]. exists (before ++ [c]), after. split.
    + rewrite Ht, <- app_assoc. done.
    + rewrite length_app. cbn. lia.
  - split; [lia|]. destruct (Hlast (c :: mt) before after Ht) as [a' Ha'].
    exists before, a'. by split.
  - split; [lia|]. exists before, after. by split.
Qed.

Lemma next_known_located (re : nat) (p : Pattern) (text : jstring) (fuel : nat) :
  1 <= min_len (p_re p) ->
  forall i w r w',
    next_known fuel re p text i w = (Ok (Some r), w') ->
    i <= Shortcode.index r
    /\ exists before after,
         text = before ++ Shortcode.content r ++ after
         /\ length before = Shortcode.index r.
Proof.
  intros Hmin. induction fuel as [|fuel IH]; intros i w r w' H; [done|].
  cbn [next_known] in H. unfold bind at 1 in H. unfold store at 1 in H.
  destruct (exec_global p text i) as [[m|] e] eqn:Ee; cbn [fst snd] in H; [|done].
  destruct (exec_global_end _ _ _ _ _ Ee) as [Hlo Hhi].
  destruct (exec_global_found _ _ _ _ _ Ee) as (b & a & Ht & Hi & Hle & He & Hn).
  destruct (escaped m).
  - destruct (IH _ _ _ _ H) as [Hge Hex]. split; [lia | done].
  - unfold bind in H.
    destruct (Shortcode.fromMatch _ _) as [[sc| | |] w1]; try done.
    inversion H; subst r w'.
    destruct (report_located m sc text b a Ht Hi) as [Hge Hex]; [lia|].
    split; [lia | done].
Qed.

(** X3: for a tag of word characters and hyphens, what [next] reports lies
    in the text where it says: [content] is the piece of [text] that starts
    at [index], also after a lone bracket was dropped from either end, and
    [index] is not before the start index. *)
Theorem next_result_located (w w' : World) (tag text : jstring) (start : option nat)
    (r : Shortcode.NextResult) :
  regexp_cache_ok w ->
  forallb tag_char tag = true ->
  Shortcode.next tag text start w = (Ok (Some r), w') ->
  default 0 start <= Shortcode.index r
  /\ exists before after,
       text = before ++ Shortcode.content r ++ after
       /\ length before = Shortcode.index r.
Proof.
  intros Hok Ht H.
  destruct (regexp_ready w tag _ Hok (compile_tag tag Ht)) as (re & wA & Hr & Hat & _).
  rewrite (next_known_pattern _ _ _ _ _ _ _ Hr Hat) in H.
  eapply next_known_located; [apply tag_pattern_min_len | exact H].
Qed.

(** A call on a text with a lone leading bracket, and its result. *)
Definition located_call : Res (option Shortcode.NextResult) * World :=
  Shortcode.next (js "x") (js "a [[x] b") None empty_world.

Definition located_result : Shortcode.NextResult :=
  match fst located_call with
  | Ok (Some r) => r
  | _ => Shortcode.mkNextResult 0 [] (mkShortcode VUndef 0 VUndef VUndef)
  end.

Lemma next_result_located_witness :
  default 0 None <= Shortcode.index located_result
  /\ exists before after,
       js "a [[x] b" = before ++ Shortcode.content located_result ++ after
       /\ length before = Shortcode.index located_result.
Proof.
  apply (next_result_located empty_world (snd located_call) (js "x") (js "a [[x] b") None).
  - intros tag l H. cbn in H. by rewrite lookup_empty in H.
  - reflexivity.
  - vm_compute. reflexivity.
Defined.

(** ** [set] and [get] *)

Lemma jstring_eqb_true (a b : jstring) : jstring_eqb a b = true <-> a = b.
Proof. unfold jstring_eqb. apply bool_decide_eq_true. Qed.

Lemma jstring_eqb_false (a b : jstring) : jstring_eqb a b = false <-> a <> b.
Proof. unfold jstring_eqb. apply bool_decide_eq_false. Qed.

Lemma prop_get_update (props : list (jstring * Val)) (k k' : jstring) (v : Val) :
  prop_get (prop_update props k v) k'
  = if jstring_eqb k k'
    then match prop_get props k with Some _ => Some v | None => None end
    else prop_get props k'.
Proof.
  induction props as [|[k0 v0] props IH]; cbn [prop_update prop_get].
  - by destruct (jstring_eqb k k').
  - destruct (jstring_eqb k0 k) eqn:E0; cbn [prop_get].
    + apply jstring_eqb_true in E0 as ->.
      destruct (jstring_eqb k k') eqn:E; [done|].
      reflexivity.
    + destruct (jstring_eqb k0 k') eqn:E1; [|exact IH].
      apply jstring_eqb_true in E1 as ->. apply jstring_eqb_false in E0.
      destruct (jstring_eqb k k') eqn:E; [|done].
      apply jstring_eqb_true in E. by subst.
Qed.

Lemma prop_get_insert_index (props : list (jstring * Val)) n (k k' : jstring) (v : Val) :
  prop_get props k = None ->
  prop_get (prop_insert_index props n k v) k'
  = if jstring_eqb k k' then Some v else prop_get props k'.
Proof.
  induction props as [|[k0 v0] props IH]; intros Hk; cbn [prop_insert_index prop_get].
  - done.
  - cbn [prop_get] in Hk. destruct (jstring_eqb k0 k) eqn:E0; [done|].
    apply jstring_eqb_false in E0.
    destruct (array_index k0) as [n0|]; [destruct (n0 <? n)%N|]; cbn [prop_get]; try done.
    rewrite (IH Hk). destruct (jstring_eqb k0 k') eqn:E1; [|done].
    apply jstring_eqb_true in E1 as ->.
    destruct (jstring_eqb k k') eqn:E; [|done].
    apply jstring_eqb_true in E. by subst.
Qed.

Lemma prop_get_app (props : list (jstring * Val)) (k k' : jstring) (v : Val) :
  prop_get props k = None ->
  prop_get (props ++ [(k, v)]) k'
  = if jstring_eqb k k' then Some v else prop_get props k'.
Proof.
  induction props as [|[k0 v0] props IH]; intros Hk; cbn [app prop_get].
  - done.
  - cbn [prop_get] in Hk. destruct (jstring_eqb k0 k) eqn:E0; [done|].
    apply jstring_eqb_false in E0. rewrite (IH Hk).
    destruct (jstring_eqb k0 k') eqn:E1; [|done].
    apply jstring_eqb_true in E1 as ->.
    destruct (jstring_eqb k k') eqn:E; [|done].
    apply jstring_eqb_true in E. by subst.
Qed.

(** Reading an object after [obj[k] = v]: [k] reads [v], every other name
    reads what it read before. *)
Lemma prop_get_set (props : list (jstring * Val)) (k k' : jstring) (v : Val) :
  k <> js "__proto__" ->
  prop_get (prop_set props k v) k'
  = if jstring_eqb k k' then Some v else prop_get props k'.
Proof.
  intros Hk. unfold prop_set. apply jstring_eqb_false in Hk. rewrite Hk.
  destruct (prop_get props k) eqn:Eg.
  - rewrite prop_get_update, Eg. by destruct (jstring_eqb k k').
  - destruct (array_index k).
    + by apply prop_get_insert_index.
    + by apply prop_get_app.
Qed.

(** Reading an array after [arr[n] = v]: index [n] reads [v], every
    other index reads what it read before, [undefined] where the array
    had and has nothing. *)
Lemma arr_put_lookup (elems : list Val) (n j : nat) (v : Val) :
  default VUndef (arr_put elems n v !! j)
  = if decide (j = n) then v else default VUndef (elems !! j).
Proof.
  unfold arr_put. destruct (Nat.ltb_spec n (length elems)) as [Hlt|Hge].
  - destruct (decide (j = n)) as [->|Hne].
    + by rewrite list_lookup_insert_eq.
    + by rewrite list_lookup_insert_ne.
  - destruct (decide (j = n)) as [->|Hne].
    + rewrite lookup_app_r by done.
      rewrite lookup_app_r by (rewrite length_replicate; lia).
      rewrite length_replicate. by replace (n - length elems - (n - length elems)) with 0 by lia.
    + destruct (Nat.lt_ge_cases j (length elems)) as [Hj|Hj].
      * by rewrite lookup_app_l.
      * rewrite lookup_app_r by done. rewrite (lookup_ge_None_2 elems j) by done.
        cbn [default].
        destruct (Nat.lt_ge_cases (j - length elems) (n - length elems)) as [Hg|Hg].
        -- rewrite lookup_app_l by (by rewrite length_replicate).
           by rewrite lookup_replicate_2.
        -- rewrite lookup_app_r by (by rewrite length_replicate).
           rewrite length_replicate.
           destruct (j - length elems - (n - length elems)) as [|d] eqn:Ed; [lia|].
           done.
Qed.

(** The world after the object at [l] was given the contents [c]. *)
Definition with_cell (w : World) (l : nat) (c : Cell) : World :=
  mkWorld (<[l := c]> (w_heap w)) (w_regexp w) (w_attrs w).

Lemma bucket_known (w : World) (this : ShortcodeObj) props (attr : Val) :
  w_heap w !! sc_attrs this = Some (CObj props) ->
  Shortcode.prototype.bucket this attr w
  = (Ok (default VUndef (prop_get props (Shortcode.prototype.bucket_name attr))), w).
Proof.
  intros Ha. unfold Shortcode.prototype.bucket.
  by rewrite (bind_ok _ _ _ _ _ (load_ok _ _ _ Ha)).
Qed.

(** X4: [set] with a name other than [__proto__] answers the shortcode
    itself and writes into its [named] object; [get] with the same name
    then answers the value set, and with any other name what it answered
    before. *)
Theorem set_get_named (w : World) (this : ShortcodeObj) props (ln : nat) named
    (k : jstring) (v : Val) :
  w_heap w !! sc_attrs this = Some (CObj props) ->
  prop_get props (js "named") = Some (VRef ln) ->
  w_heap w !! ln = Some (CObj named) ->
  ln <> sc_attrs this ->
  k <> js "__proto__" ->
  let w' := with_cell w ln (CObj (prop_set named k v)) in
  Shortcode.prototype.set this (VStr k) v w = (Ok this, w')
  /\ Shortcode.prototype.get this (VStr k) w' = (Ok v, w')
  /\ forall k', k' <> k ->
       fst (Shortcode.prototype.get this (VStr k') w')
       = fst (Shortcode.prototype.get this (VStr k') w).
Proof.
  intros Ha Hn Hln Hne Hk w'.
  assert (Ha' : w_heap w' !! sc_attrs this = Some (CObj props)).
  { cbn [w' with_cell w_heap]. by rewrite list_lookup_insert_ne. }
  assert (Hln' : w_heap w' !! ln = Some (CObj (prop_set named k v))).
  { cbn [w' with_cell w_heap]. apply list_lookup_insert_eq. by eapply lookup_lt_Some. }
  assert (Hget : forall u cell k0,
            w_heap u !! sc_attrs this = Some (CObj props) ->
            w_heap u !! ln = Some (CObj cell) ->
            Shortcode.prototype.get this (VStr k0) u
            = (Ok (default VUndef (prop_get cell k0)), u)).
  { intros u cell k0 Hu Hc. unfold Shortcode.prototype.get.
    rewrite (bind_ok _ _ _ _ _ (bucket_known _ _ _ _ Hu)).
    cbn [Shortcode.prototype.bucket_name Shortcode.prototype.is_number].
    rewrite Hn. unfold default, from_option, id. cbv beta iota.
    rewrite (bind_ok _ _ _ _ _ (load_ok _ _ _ Hc)). reflexivity. }
  split; [|split].
  - unfold Shortcode.prototype.set.
    rewrite (bind_ok _ _ _ _ _ (bucket_known _ _ _ _ Ha)).
    cbn [Shortcode.prototype.bucket_name Shortcode.prototype.is_number].
    rewrite Hn. unfold default, from_option, id. cbv beta iota.
    rewrite (bind_ok _ _ _ _ _ (load_ok _ _ _ Hln)). reflexivity.
  - rewrite (Hget _ _ _ Ha' Hln'), prop_get_set by done.
    by rewrite (proj2 (jstring_eqb_true k k)).
  - intros k' Hk'. rewrite (Hget _ _ _ Ha' Hln'), (Hget _ _ _ Ha Hln).
    rewrite prop_get_set by done.
    by rewrite (proj2 (jstring_eqb_false k k')).
Qed.

(** A shortcode with the attributes [{named: {a: "1"}, numeric: ["n"]}]. *)
Definition sample_world : World :=
  mkWorld [CObj [(js "named", VRef 1); (js "numeric", VRef 2)];
           CObj [(js "a", VStr (js "1"))]; CArr [VStr (js "n")]] ∅ ∅.

Definition sample_shortcode : ShortcodeObj :=
  mkShortcode (VStr (js "x")) 0 (VStr (js "single")) VUndef.

(** The sample world after [set('b', '2')]. *)
Definition sample_world_b : World :=
  with_cell sample_world 1
    (CObj (prop_set [(js "a", VStr (js "1"))] (js "b") (VStr (js "2")))).

Lemma set_get_named_witness :
  Shortcode.prototype.set sample_shortcode (VStr (js "b")) (VStr (js "2")) sample_world
  = (Ok sample_shortcode, sample_world_b)
  /\ Shortcode.prototype.get sample_shortcode (VStr (js "b")) sample_world_b
     = (Ok (VStr (js "2")), sample_world_b)
  /\ forall k', k' <> js "b" ->
       fst (Shortcode.prototype.get sample_shortcode (VStr k') sample_world_b)
       = fst (Shortcode.prototype.get sample_shortcode (VStr k') sample_world).
Proof.
  apply (set_get_named sample_world sample_shortcode
           [(js "named", VRef 1); (js "numeric", VRef 2)] 1
           [(js "a", VStr (js "1"))] (js "b") (VStr (js "2")));
    try reflexivity; vm_compute; discriminate.
Defined.

Lemma set_numeric_at (w : World) (this : ShortcodeObj) props (lm : nat) numeric
    (n : N) (v : Val) :
  w_heap w !! sc_attrs this = Some (CObj props) ->
  prop_get props (js "numeric") = Some (VRef lm) ->
  w_heap w !! lm = Some (CArr numeric) ->
  (n <= max_array_index)%N ->
  Shortcode.prototype.set this (VNum n) v w
  = (Ok this, with_cell w lm (CArr (arr_put numeric (N.to_nat n) v))).
Proof.
  intros Ha Hn Hlm Hle. unfold Shortcode.prototype.set.
  rewrite (bind_ok _ _ _ _ _ (bucket_known _ _ _ _ Ha)).
  cbn [Shortcode.prototype.bucket_name Shortcode.prototype.is_number].
  rewrite Hn. unfold default, from_option, id. cbv beta iota.
  rewrite (bind_ok _ _ _ _ _ (load_ok _ _ _ Hlm)).
  unfold arr_set. rewrite (proj2 (N.leb_le _ _) Hle). reflexivity.
Qed.

(** X5: [set] with a number that is an array index (at most 2^32 - 2)
    answers the shortcode itself and writes into its [numeric] array, which
    grows when the index is past its end; [get] with the same number then
    answers the value set, and with any other number what it answered
    before. *)
Theorem set_get_numeric (w : World) (this : ShortcodeObj) props (lm : nat) numeric
    (n : N) (v : Val) :
  w_heap w !! sc_attrs this = Some (CObj props) ->
  prop_get props (js "numeric") = Some (VRef lm) ->
  w_heap w !! lm = Some (CArr numeric) ->
  lm <> sc_attrs this ->
  (n <= max_array_index)%N ->
  let w' := with_cell w lm (CArr (arr_put numeric (N.to_nat n) v)) in
  Shortcode.prototype.set this (VNum n) v w = (Ok this, w')
  /\ Shortcode.prototype.get this (VNum n) w' = (Ok v, w')
  /\ forall j, j <> n ->
       fst (Shortcode.prototype.get this (VNum j) w')
       = fst (Shortcode.prototype.get this (VNum j) w).
Proof.
  intros Ha Hn Hlm Hne Hle w'.
  assert (Ha' : w_heap w' !! sc_attrs this = Some (CObj props)).
  { cbn [w' with_cell w_heap]. by rewrite list_lookup_insert_ne. }
  assert (Hlm' : w_heap w' !! lm = Some (CArr (arr_put numeric (N.to_nat n) v))).
  { cbn [w' with_cell w_heap]. apply list_lookup_insert_eq. by eapply lookup_lt_Some. }
  assert (Hget : forall u elems j,
            w_heap u !! sc_attrs this = Some (CObj props) ->
            w_heap u !! lm = Some (CArr elems) ->
            Shortcode.prototype.get this (VNum j) u
            = (Ok (default VUndef (elems !! N.to_nat j)), u)).
  { intros u elems j Hu Hc. unfold Shortcode.prototype.get.
    rewrite (bind_ok _ _ _ _ _ (bucket_known _ _ _ _ Hu)).
    cbn [Shortcode.prototype.bucket_name Shortcode.prototype.is_number].
    rewrite Hn. unfold default, from_option, id. cbv beta iota.
    rewrite (bind_ok _ _ _ _ _ (load_ok _ _ _ Hc)). reflexivity. }
  split; [|split].
  - by apply (set_numeric_at w this props lm numeric n v).
  - rewrite (Hget _ _ _ Ha' Hlm'), arr_put_lookup. by rewrite decide_True.
  - intros j Hj. rewrite (Hget _ _ _ Ha' Hlm'), (Hget _ _ _ Ha Hlm).
    cbn [fst]. rewrite arr_put_lookup. rewrite decide_False; [done|]. lia.
Qed.

(** The sample world after [set(3, 'm')]. *)
Definition sample_world_3 : World :=
  with_cell sample_world 2 (CArr (arr_put [VStr (js "n")] 3 (VStr (js "m")))).

Lemma set_get_numeric_witness :
  Shortcode.prototype.set sample_shortcode (VNum 3) (VStr (js "m")) sample_world
  = (Ok sample_shortcode, sample_world_3)
  /\ Shortcode.prototype.get sample_shortcode (VNum 3) sample_world_3
     = (Ok (VStr (js "m")), sample_world_3)
  /\ forall j, j <> 3%N ->
       fst (Shortcode.prototype.get sample_shortcode (VNum j) sample_world_3)
       = fst (Shortcode.prototype.get sample_shortcode (VNum j) sample_world).
Proof.
  apply (set_get_numeric sample_world sample_shortcode
           [(js "named", VRef 1); (js "numeric", VRef 2)] 2 [VStr (js "n")] 3
           (VStr (js "m")));
    try reflexivity; vm_compute; discriminate.
Defined.

(** ** What the parser files *)

Lemma nonempty_Some (o : option jstring) (s : jstring) :
  Shortcode.nonempty o = Some s -> s <> [].
Proof. destruct o as [[|c t]|]; cbn; intros H; inversion H; by subst. Qed.

Lemma toLowerCase_nonempty (s : jstring) : s <> [] -> toLowerCase s <> [].
Proof. by destruct s. Qed.

(** A positional value the parser files: a non-empty string. *)
Definition filed_value (v : Val) : Prop := exists s, v = VStr s /\ s <> [].

(** A name the parser files: non-empty and lower-cased. *)
Definition filed_name (k : jstring) : Prop := k <> [] /\ lower_cased k.

Lemma attrs_loop_files (fuel : nat) :
  forall text i named numeric named' numeric',
    Forall filed_name (map fst named) ->
    Forall filed_value numeric ->
    Shortcode.attrs_loop fuel text i named numeric = Some (named', numeric') ->
    Forall filed_name (map fst named') /\ Forall filed_value numeric'.
Proof.
  induction fuel as [|fuel IH]; intros text i named numeric named' numeric' Hn Hv Hl;
    [done|].
  cbn [Shortcode.attrs_loop] in Hl.
  destruct (exec_global Shortcode.attrs_pattern text i) as [[m|] e];
    [|by inversion Hl; subst].
  assert (Hname : forall k v, Shortcode.nonempty k = Some v ->
                              filed_name (toLowerCase v)).
  { intros k v Hk. split; [|apply toLowerCase_lower_cased].
    apply toLowerCase_nonempty. by eapply nonempty_Some. }
  assert (Hvalue : forall k v, Shortcode.nonempty k = Some v ->
                               Forall filed_value (numeric ++ [VStr v])).
  { intros k v Hk. apply Forall_app. split; [done|]. constructor; [|done].
    exists v. split; [done|]. by eapply nonempty_Some. }
  destruct (Shortcode.nonempty (m_get m 1)) eqn:E1;
    [|destruct (Shortcode.nonempty (m_get m 3)) eqn:E3;
      [|destruct (Shortcode.nonempty (m_get m 5)) eqn:E5;
        [|destruct (Shortcode.nonempty (m_get m 7)) eqn:E7;
          [|destruct (Shortcode.nonempty (m_get m 8)) eqn:E8]]]];
    (eapply IH; [| |exact Hl]); eauto using prop_set_keys.
Qed.

(** X6: on a text it has not parsed before, [Shortcode.attrs] files only
    non-empty lower-cased names and only non-empty strings as positional
    values; an empty quoted token is dropped. *)
Theorem attrs_files_nonempty (w w' : World) (text : jstring) (l : nat) named numeric :
  w_attrs w !! text = None ->
  Shortcode.attrs text w = (Ok l, w') ->
  attrs_view w' l = Some (named, numeric) ->
  Forall filed_name (map fst named) /\ Forall filed_value numeric.
Proof.
  intros Hc Ha Hv.
  destruct (replace_global_total Shortcode.spaces_pattern text (js " ")) as [text' Hr].
  destruct (attrs_loop_total text' (S (length text')) 0 [] []) as [[named0 numeric0] Hl];
    [lia | lia |].
  rewrite (attrs_miss _ _ _ _ _ Hc Hr Hl) in Ha. inversion Ha; subst l w'.
  rewrite attrs_view_parsed in Hv. inversion Hv; subst named0 numeric0.
  eapply attrs_loop_files; [| |exact Hl]; constructor.
Qed.

(** The attribute list [A="" "" b], with an empty value and an empty token. *)
Definition empty_tokens : jstring :=
  js "A=" ++ dq ++ dq ++ js " " ++ dq ++ dq ++ js " b".

Lemma attrs_files_nonempty_witness :
  Forall filed_name (map fst [(js "a", VStr [])]) /\ Forall filed_value [VStr (js "b")].
Proof.
  apply (attrs_files_nonempty empty_world
           (with_parsed_attrs empty_world empty_tokens [(js "a", VStr [])] [VStr (js "b")])
           empty_tokens 2).
  - reflexivity.
  - vm_compute. reflexivity.
  - vm_compute. reflexivity.
Defined.

(** ** The caches *)

(** X7: once [Shortcode.regexp] and [Shortcode.attrs] have answered, a
    further call of either with the same argument answers with the very
    object the first call answered with, and changes nothing. *)
Theorem memoized_calls_share_result (w w1 w2 : World) (tag text : jstring) (re l : nat) :
  Shortcode.regexp tag w = (Ok re, w1) ->
  Shortcode.attrs text w1 = (Ok l, w2) ->
  Shortcode.regexp tag w2 = (Ok re, w2) /\ Shortcode.attrs text w2 = (Ok l, w2).
Proof.
  intros Hr Ha. split; [|by eapply attrs_again].
  apply regexp_hit.
  destruct (attrs_answers w1 text) as (l' & w' & Ha' & _ & Hreg).
  rewrite Ha in Ha'. inversion Ha'; subst l' w'. rewrite Hreg.
  unfold Shortcode.regexp, memoize in Hr.
  destruct (w_regexp w !! tag) as [l0|] eqn:Ec; [by inversion Hr; subst|].
  destruct (compile (Shortcode.regexp_source tag)); try done.
  cbn in Hr. inversion Hr; subst. cbn [w_regexp record_regexp].
  by rewrite lookup_insert_eq.
Qed.

Lemma memoized_calls_share_result_witness :
  Shortcode.regexp (js "x")
    (with_parsed_attrs
       (mkWorld [CRegExp (tag_pattern (js "x")) 0] {[ js "x" := 0 ]} ∅)
       (js "a=1") [(js "a", VStr (js "1"))] [])
  = (Ok 0,
     with_parsed_attrs
       (mkWorld [CRegExp (tag_pattern (js "x")) 0] {[ js "x" := 0 ]} ∅)
       (js "a=1") [(js "a", VStr (js "1"))] [])
  /\ Shortcode.attrs (js "a=1")
       (with_parsed_attrs
          (mkWorld [CRegExp (tag_pattern (js "x")) 0] {[ js "x" := 0 ]} ∅)
          (js "a=1") [(js "a", VStr (js "1"))] [])
     = (Ok 3,
        with_parsed_attrs
          (mkWorld [CRegExp (tag_pattern (js "x")) 0] {[ js "x" := 0 ]} ∅)
          (js "a=1") [(js "a", VStr (js "1"))] []).
Proof.
  apply (memoized_calls_share_result empty_world
           (mkWorld [CRegExp (tag_pattern (js "x")) 0] {[ js "x" := 0 ]} ∅)).
  - vm_compute. reflexivity.
  - vm_compute. reflexivity.
Defined.

(** ** [replace] *)

(** X8: with a tag whose pattern source is ill-formed, [replace] throws
    the syntax error of [Shortcode.regexp]; [asyncReplace] is not reached,
    whatever it is, and the store is left as it was. *)
Theorem replace_throws_before_asyncReplace {R : Type}
    (asyncReplace : jstring -> nat -> (list Val -> M Shortcode.CallbackRun) -> Val -> M R)
    (w : World) (tag text : jstring) (replacer : Shortcode.Replacer) (callback : Val) :
  regexp_cache_ok w ->
  compile (Shortcode.regexp_source tag) = SyntaxError ->
  Shortcode.replace asyncReplace tag text replacer callback w = (Throw ESyntaxError, w).
Proof.
  intros Hok Hc. unfold Shortcode.replace, bind, Shortcode.regexp, memoize.
  destruct (w_regexp w !! tag) as [l|] eqn:Ec.
  - destruct (Hok _ _ Ec) as (p & j & _ & Hp). congruence.
  - by rewrite Hc.
Qed.

(** An [asyncReplace] that calls nothing and answers the text. *)
Definition inert_asyncReplace
  : jstring -> nat -> (list Val -> M Shortcode.CallbackRun) -> Val -> M jstring :=
  fun text _ _ _ => ret text.

Lemma replace_throws_before_asyncReplace_witness :
  Shortcode.replace inert_asyncReplace (js "(") (js "a (b") idle_replacer VUndef empty_world
  = (Throw ESyntaxError, empty_world).
Proof.
  apply replace_throws_before_asyncReplace.
  - intros tag l H. cbn in H. by rewrite lookup_empty in H.
  - vm_compute. reflexivity.
Defined.

(** ** The caches stay sound *)

(** From [w] to [w'] every object of the store is kept as it is, but for
    the [lastIndex] of a pattern object. *)
Definition store_grows (w w' : World) : Prop :=
  forall k c,
    w_heap w !! k = Some c ->
    match c with
    | CRegExp p _ => exists j, w_heap w' !! k = Some (CRegExp p j)
    | _ => w_heap w' !! k = Some c
    end.

Lemma store_grows_refl (w : World) : store_grows w w.
Proof. intros k c H. destruct c; eauto. Qed.

Lemma store_grows_trans (w1 w2 w3 : World) :
  store_grows w1 w2 -> store_grows w2 w3 -> store_grows w1 w3.
Proof.
  intros H12 H23 k c H. specialize (H12 k c H). destruct c as [props|elems|p j].
  - apply (H23 _ _ H12).
  - apply (H23 _ _ H12).
  - destruct H12 as [j' H12]. apply (H23 _ _ H12).
Qed.

Lemma store_grows_app (w w' : World) (cells : list Cell) :
  w_heap w' = w_heap w ++ cells -> store_grows w w'.
Proof.
  intros Hh k c H. rewrite Hh.
  destruct c; [| |eexists]; by apply lookup_app_l_Some.
Qed.

Lemma store_grows_set_lastIndex (w : World) re p j i :
  w_heap w !! re = Some (CRegExp p j) -> store_grows w (set_lastIndex w re p i).
Proof.
  intros Hre k c H. destruct (decide (k = re)) as [->|Hne].
  - rewrite Hre in H. inversion H; subst. exists i. by eapply lookup_set_lastIndex_eq.
  - rewrite <- (lookup_set_lastIndex_ne w re p i k Hne) in H. destruct c; eauto.
Qed.

Lemma attrs_grows (s : jstring) (w w' : World) (r : Res nat) :
  Shortcode.attrs s w = (r, w') -> store_grows w w' /\ w_regexp w' = w_regexp w.
Proof.
  intros H. unfold Shortcode.attrs, memoize, Shortcode.attrs_body in H.
  destruct (w_attrs w !! s); [inversion H; subst; split; [apply store_grows_refl|done]|].
  destruct (replace_global Shortcode.spaces_pattern s (js " ")) as [s'|];
    [|inversion H; subst; split; [apply store_grows_refl|done]].
  destruct (Shortcode.attrs_loop (S (length s')) s' 0 [] []) as [[named numeric]|];
    [|inversion H; subst; split; [apply store_grows_refl|done]].
  cbn in H. inversion H; subst. split; [|done].
  eapply store_grows_app. cbn [w_heap]. by rewrite <- !app_assoc.
Qed.

Lemma construct_grows (o : Options) (w w' : World) (r : Res ShortcodeObj) :
  (forall l, o_attrs o <> VRef l) ->
  Shortcode.construct o w = (r, w') ->
  store_grows w w' /\ w_regexp w' = w_regexp w.
Proof.
  intros Hnr H. rewrite construct_unfold in H. cbv zeta in H.
  assert (Hd : store_grows w (with_default_attrs w)) by (by eapply store_grows_app).
  destruct (negb (truthy (o_attrs o))); [by inversion H; subst|].
  destruct (o_attrs o) as [| s | n | l]; [by inversion H; subst | |by inversion H; subst
                                          | by destruct (Hnr l)].
  unfold bind in H.
  destruct (Shortcode.attrs s (with_default_attrs w)) as [ra wa] eqn:Ea.
  destruct (attrs_grows _ _ _ _ Ea) as [Hg Hr].
  assert (w' = wa) by (destruct ra; by inversion H). subst wa.
  split; [by eapply store_grows_trans | done].
Qed.

Lemma next_known_grows (re : nat) (p : Pattern) (text : jstring) (fuel : nat) :
  forall i w r w',
    (exists j, w_heap w !! re = Some (CRegExp p j)) ->
    next_known fuel re p text i w = (r, w') ->
    store_grows w w' /\ w_regexp w' = w_regexp w.
Proof.
  induction fuel as [|fuel IH]; intros i w r w' [j Hre] H.
  { inversion H; subst. split; [apply store_grows_refl | done]. }
  cbn [next_known] in H. unfold bind at 1 in H. unfold store at 1 in H.
  change (mkWorld (<[re:=CRegExp p (snd (exec_global p text i))]> (w_heap w))
            (w_regexp w) (w_attrs w))
    with (set_lastIndex w re p (snd (exec_global p text i))) in H.
  pose proof (store_grows_set_lastIndex w re p j (snd (exec_global p text i)) Hre) as Hs.
  destruct (fst (exec_global p text i)) as [m|]; [|by inversion H; subst].
  destruct (escaped m).
  - destruct (IH _ _ _ _ (ex_intro _ _ (lookup_set_lastIndex_eq _ _ _ _ _ Hre)) H)
      as [Hg Hr].
    split; [by eapply store_grows_trans | done].
  - unfold bind, Shortcode.fromMatch in H.
    destruct (Shortcode.construct _ _) as [rc wc] eqn:Ec.
    pose proof (fun Hnr => construct_grows _ _ _ _ Hnr Ec) as Hc.
    destruct (Hc (fun l => arg_match_array_not_ref m 3 l)) as [Hg Hr].
    assert (w' = wc) by (destruct rc; by inversion H). subst wc.
    split; [by eapply store_grows_trans | done].
Qed.

Lemma regexp_cache_ok_grows (w w' : World) :
  store_grows w w' -> w_regexp w' = w_regexp w ->
  regexp_cache_ok w -> regexp_cache_ok w'.
Proof.
  intros Hg Hr Hok tag l Hl. rewrite Hr in Hl.
  destruct (Hok _ _ Hl) as (p & j & Hc & Hp).
  destruct (Hg _ _ Hc) as [j' Hc']. eauto.
Qed.

Lemma regexp_keeps_cache_ok (w w' : World) (tag : jstring) (r : Res nat) :
  regexp_cache_ok w ->
  Shortcode.regexp tag w = (r, w') ->
  regexp_cache_ok w' /\ store_grows w w' /\ w_attrs w' = w_attrs w.
Proof.
  intros Hok H. unfold Shortcode.regexp, memoize in H.
  destruct (w_regexp w !! tag) as [l|] eqn:Ec;
    [inversion H; subst; repeat split; [done | apply store_grows_refl]|].
  destruct (compile (Shortcode.regexp_source tag)) as [p| |] eqn:Ep;
    [|inversion H; subst; repeat split; [done | apply store_grows_refl]..].
  cbn in H. inversion H; subst. unfold record_regexp. cbn [w_regexp w_heap w_attrs].
  split; [|split; [|done]].
  - intros tag' l Hl. cbn [w_regexp w_heap] in *.
    destruct (decide (tag = tag')) as [<-|Hne].
    + rewrite lookup_insert_eq in Hl. inversion Hl; subst.
      exists p, 0. by rewrite lookup_snoc_0.
    + rewrite lookup_insert_ne in Hl by done.
      destruct (Hok _ _ Hl) as (p' & j & Hc & Hp'). exists p', j.
      split; [by apply lookup_app_l_Some | done].
  - by eapply store_grows_app.
Qed.

(** X10: a call of [next] keeps both caches sound: afterwards every
    pattern object the cache holds is still the one compiled from its tag,
    and every parse it holds is still an attribute object of the store. *)
Theorem next_keeps_caches_sound (w w' : World) (tag text : jstring) (start : option nat)
    (r : Res (option Shortcode.NextResult)) :
  regexp_cache_ok w ->
  attrs_cache_ok w ->
  Shortcode.next tag text start w = (r, w') ->
  regexp_cache_ok w' /\ attrs_cache_ok w'.
Proof.
  intros Hok Hca H.
  destruct (Shortcode.regexp tag w) as [rr wA] eqn:Er.
  destruct (regexp_keeps_cache_ok _ _ _ _ Hok Er) as (HokA & HgA & HaA).
  destruct rr as [re| | |].
  2-4: (unfold Shortcode.next in H; cbn [Shortcode.next_from] in H;
        unfold bind in H; rewrite Er in H;
        assert (HwA : wA = w) by
          (unfold Shortcode.regexp, memoize in Er;
           destruct (w_regexp w !! tag); [by inversion Er|];
           destruct (compile (Shortcode.regexp_source tag)); by inversion Er);
        assert (Hw' : w' = wA) by congruence;
        by subst).
  assert (Hat : exists p, regexp_at wA tag re p).
  { unfold Shortcode.regexp, memoize in Er.
    destruct (w_regexp w !! tag) as [l|] eqn:Ec.
    - inversion Er; subst. destruct (Hok _ _ Ec) as (p & j & Hc & _).
      exists p. split; eauto.
    - destruct (compile (Shortcode.regexp_source tag)) as [p| |]; try done.
      cbn in Er. inversion Er; subst. exists p. unfold record_regexp.
      split; cbn [w_regexp w_heap].
      + by rewrite lookup_insert_eq.
      + exists 0. by rewrite lookup_snoc_0. }
  destruct Hat as [p Hat].
  rewrite (next_known_pattern _ _ _ _ _ _ _ Er Hat) in H.
  assert (HcaA : attrs_cache_ok wA).
  { intros s l Hl. rewrite HaA in Hl. destruct (Hca s l Hl) as [v Hv]. exists v.
    unfold attrs_view in *.
    destruct (w_heap w !! l) as [[props| |]|] eqn:El; try done.
    rewrite (HgA _ _ El).
    destruct (prop_get props (js "named")) as [[| | |ln]|]; try done.
    destruct (prop_get props (js "numeric")) as [[| | |lm]|]; try done.
    destruct (w_heap w !! ln) as [[named| |]|] eqn:En; try done.
    destruct (w_heap w !! lm) as [[|numeric|]|] eqn:Em; try done.
    by rewrite (HgA _ _ En), (HgA _ _ Em). }
  assert (Hinv : next_inv re p wA) by (split; [by destruct Hat | done]).
  destruct (next_known_again re p text _ _ _ _ _ Hinv H) as ([_ Hca'] & _ & _).
  destruct (next_known_grows re p text _ _ _ _ _ (proj2 Hat) H) as [Hg Hr].
  split; [|done]. by eapply regexp_cache_ok_grows.
Qed.

Lemma next_keeps_caches_sound_witness :
  regexp_cache_ok (snd first_call) /\ attrs_cache_ok (snd first_call).
Proof.
  apply (next_keeps_caches_sound empty_world (snd first_call) (js "x")
           (js "a [x b=1] c") None (fst first_call)).
  - intros tag l H. cbn in H. by rewrite lookup_empty in H.
  - intros text l H. cbn in H. by rewrite lookup_empty in H.
  - vm_compute. reflexivity.
Defined.

(** ** The attributes the constructor is given as an object *)

Lemma set_named_at (w : World) (this : ShortcodeObj) props (ln : nat) named
    (k : jstring) (v : Val) :
  w_heap w !! sc_attrs this = Some (CObj props) ->
  prop_get props (js "named") = Some (VRef ln) ->
  w_heap w !! ln = Some (CObj named) ->
  Shortcode.prototype.set this (VStr k) v w
  = (Ok this, with_cell w ln (CObj (prop_set named k v))).
Proof.
  intros Ha Hn Hln. unfold Shortcode.prototype.set.
  rewrite (bind_ok _ _ _ _ _ (bucket_known _ _ _ _ Ha)).
  cbn [Shortcode.prototype.bucket_name Shortcode.prototype.is_number].
  rewrite Hn. unfold default, from_option, id. cbv beta iota.
  rewrite (bind_ok _ _ _ _ _ (load_ok _ _ _ Hln)). reflexivity.
Qed.

Lemma lookup_with_cell_eq (w : World) (l : nat) (c c0 : Cell) :
  w_heap w !! l = Some c0 -> w_heap (with_cell w l c) !! l = Some c.
Proof.
  intros H. cbn [with_cell w_heap]. apply list_lookup_insert_eq. by eapply lookup_lt_Some.
Qed.

Lemma lookup_with_cell_ne (w : World) (l j : nat) (c : Cell) :
  j <> l -> w_heap (with_cell w l c) !! j = w_heap w !! j.
Proof. intros H. cbn [with_cell w_heap]. by apply list_lookup_insert_ne. Qed.

(** The properties [named] has after each pair of [props] was assigned to
    it, in order. *)
Definition assign_all (props named : list (jstring * Val)) : list (jstring * Val) :=
  fold_left (fun n kv => prop_set n (fst kv) (snd kv)) props named.

Definition set_each (this : ShortcodeObj) (entries : list (Val * Val)) : M ShortcodeObj :=
  foldM (fun this kv => Shortcode.prototype.set this (fst kv) (snd kv)) entries this.

Lemma set_each_named (this : ShortcodeObj) aprops (ln : nat) (ps : list (jstring * Val)) :
  prop_get aprops (js "named") = Some (VRef ln) ->
  ln <> sc_attrs this ->
  forall named u,
    w_heap u !! sc_attrs this = Some (CObj aprops) ->
    w_heap u !! ln = Some (CObj named) ->
    exists u',
      set_each this (map (fun kv => (VStr (fst kv), snd kv)) ps) u = (Ok this, u')
      /\ w_heap u' !! ln = Some (CObj (assign_all ps named))
      /\ (forall j, j <> ln -> w_heap u' !! j = w_heap u !! j)
      /\ w_regexp u' = w_regexp u /\ w_attrs u' = w_attrs u.
Proof.
  intros Hn Hne. induction ps as [|[k v] ps IH]; intros named u Ha Hln.
  - exists u. by repeat split.
  - unfold set_each. cbn [map foldM fst snd].
    rewrite (bind_ok _ _ _ _ _ (set_named_at _ _ _ _ _ k v Ha Hn Hln)).
    destruct (IH (prop_set named k v) (with_cell u ln (CObj (prop_set named k v))))
      as (u' & Hrun & Hln' & Hothers & Hr & Hc).
    + by rewrite lookup_with_cell_ne.
    + by eapply lookup_with_cell_eq.
    + exists u'. unfold set_each in Hrun. rewrite Hrun. repeat split; try done.
      intros j Hj. by rewrite (Hothers j Hj), lookup_with_cell_ne.
Qed.

Lemma arr_put_end (elems : list Val) (v : Val) :
  arr_put elems (length elems) v = elems ++ [v].
Proof.
  unfold arr_put. rewrite (proj2 (Nat.ltb_ge _ _)) by lia.
  by rewrite Nat.sub_diag.
Qed.

Lemma set_each_numeric (this : ShortcodeObj) aprops (lm : nat) (suf : list Val) :
  prop_get aprops (js "numeric") = Some (VRef lm) ->
  lm <> sc_attrs this ->
  forall pre u,
    w_heap u !! sc_attrs this = Some (CObj aprops) ->
    w_heap u !! lm = Some (CArr pre) ->
    (N.of_nat (length pre + length suf) <= max_array_index + 1)%N ->
    exists u',
      set_each this (imap (fun i v => (VNum (N.of_nat (length pre + i)), v)) suf) u
      = (Ok this, u')
      /\ w_heap u' !! lm = Some (CArr (pre ++ suf))
      /\ (forall j, j <> lm -> w_heap u' !! j = w_heap u !! j)
      /\ w_regexp u' = w_regexp u /\ w_attrs u' = w_attrs u.
Proof.
  intros Hn Hne. induction suf as [|v suf IH]; intros pre u Ha Hlm Hlen.
  - exists u. rewrite app_nil_r. by repeat split.
  - unfold set_each. cbn [imap foldM fst snd]. cbn [length] in Hlen.
    rewrite (bind_ok _ _ _ _ _
               (set_numeric_at _ _ _ _ _ (N.of_nat (length pre + 0)) v Ha Hn Hlm ltac:(lia))).
    rewrite Nat.add_0_r, Nat2N.id, arr_put_end.
    destruct (IH (pre ++ [v]) (with_cell u lm (CArr (pre ++ [v]))))
      as (u' & Hrun & Hlm' & Hothers & Hr & Hc).
    + by rewrite lookup_with_cell_ne.
    + by eapply lookup_with_cell_eq.
    + rewrite length_app. cbn [length]. lia.
    + exists u'. unfold set_each in Hrun.
      rewrite <- Hrun, <- app_assoc in *. repeat split; try done.
      * f_equal. apply imap_ext. intros i x _. cbn. rewrite length_app. cbn [length].
        do 2 f_equal. lia.
      * intros j Hj. by rewrite (Hothers j Hj), lookup_with_cell_ne.
Qed.

(** X11: given a plain object of attributes that is neither of the form
    [{named, numeric}] nor array-like, the constructor assigns every entry,
    in enumeration order, to the named attributes of a fresh attribute
    object, array-index names included; the numeric attributes stay empty
    and the object given is left as it was. *)
Theorem flat_attrs_become_named (w : World) (o : Options) (l : nat)
    (props : list (jstring * Val)) :
  o_attrs o = VRef l ->
  w_heap w !! l = Some (CObj props) ->
  map fst props <> [js "named"; js "numeric"] ->
  (forall n, prop_get props (js "length") <> Some (VNum n)) ->
  exists w',
    Shortcode.construct o w
    = (Ok (mkShortcode (o_tag o) (default_attrs_loc w) (o_type o) (o_content o)), w')
    /\ attrs_view w' (default_attrs_loc w) = Some (assign_all props [], [])
    /\ w_heap w' !! l = Some (CObj props)
    /\ w_attrs w' = w_attrs w.
Proof.
  intros Ho Hl Hkeys Hlen. rewrite construct_unfold, Ho. cbv zeta. cbn [truthy negb].
  pose proof (lookup_with_default_attrs _ _ _ Hl) as Hl'.
  rewrite (bind_ok _ _ _ _ _ (load_ok _ _ _ Hl')).
  cbn [keys_of]. rewrite bool_decide_eq_false_2 by done.
  rewrite (bind_ok _ _ _ _ _ (entries_of_ref _ _ _ Hl')).
  assert (He : entries_of_cell (CObj props)
               = map (fun kv => (VStr (fst kv), snd kv)) props).
  { cbn [entries_of_cell].
    destruct (prop_get props (js "length")) as [[| |n|]|] eqn:E; try done.
    by destruct (Hlen n). }
  rewrite He.
  set (this := mkShortcode (o_tag o) (default_attrs_loc w) (o_type o) (o_content o)).
  pose proof (lookup_lt_Some _ _ _ Hl) as Hlt.
  destruct (set_each_named this
              [(js "named", VRef (length (w_heap w)));
               (js "numeric", VRef (S (length (w_heap w))))]
              (length (w_heap w)) props) with (named := @nil (jstring * Val))
              (u := with_default_attrs w)
    as (u' & Hrun & Hln & Hothers & _ & Hc).
  - reflexivity.
  - cbn [this sc_attrs]. unfold default_attrs_loc. lia.
  - cbn [this sc_attrs with_default_attrs w_heap]. unfold default_attrs_loc.
    apply lookup_snoc_2.
  - cbn [with_default_attrs w_heap]. apply lookup_snoc_0.
  - exists u'. unfold set_each in Hrun. rewrite Hrun. split; [done|]. split; [|split].
    + unfold attrs_view.
      rewrite (Hothers (default_attrs_loc w)) by (unfold default_attrs_loc; lia).
      cbn [with_default_attrs w_heap]. unfold default_attrs_loc.
      rewrite lookup_snoc_2, prop_get_named, prop_get_numeric, Hln.
      rewrite (Hothers (S (length (w_heap w)))) by lia.
      cbn [with_default_attrs w_heap]. by rewrite lookup_snoc_1.
    + rewrite (Hothers l) by lia. done.
    + by rewrite Hc.
Qed.

(** The object [{b: "2", 0: "z"}], whose own keys are enumerated as 0, b. *)
Definition flat_attrs_world : World :=
  mkWorld [CObj [(js "0", VStr (js "z")); (js "b", VStr (js "2"))]] ∅ ∅.

Lemma flat_attrs_become_named_witness :
  exists w',
    Shortcode.construct attrs_at_0 flat_attrs_world
    = (Ok (mkShortcode (VStr (js "x")) 3 VUndef VUndef), w')
    /\ attrs_view w' 3
       = Some ([(js "0", VStr (js "z")); (js "b", VStr (js "2"))], [])
    /\ w_heap w' !! 0 = Some (CObj [(js "0", VStr (js "z")); (js "b", VStr (js "2"))])
    /\ w_attrs w' = ∅.
Proof.
  apply (flat_attrs_become_named flat_attrs_world attrs_at_0 0
           [(js "0", VStr (js "z")); (js "b", VStr (js "2"))]).
  - reflexivity.
  - reflexivity.
  - vm_compute. discriminate.
  - intros n. vm_compute. discriminate.
Defined.

Lemma array_keys_differ (elems : list Val) :
  keys_of (CArr elems) <> [js "named"; js "numeric"].
Proof.
  cbn [keys_of]. by destruct elems as [|a [|b [|c elems]]].
Qed.

(** X12: given an array of attributes (of at most 2^32 - 1 elements, as
    every array is), the constructor assigns its elements, in order, to the
    numeric attributes of a fresh attribute object; the named attributes
    stay empty and the array given is left as it was. *)
Theorem array_attrs_become_numeric (w : World) (o : Options) (l : nat)
    (elems : list Val) :
  o_attrs o = VRef l ->
  w_heap w !! l = Some (CArr elems) ->
  (N.of_nat (length elems) <= max_array_index + 1)%N ->
  exists w',
    Shortcode.construct o w
    = (Ok (mkShortcode (o_tag o) (default_attrs_loc w) (o_type o) (o_content o)), w')
    /\ attrs_view w' (default_attrs_loc w) = Some ([], elems)
    /\ w_heap w' !! l = Some (CArr elems)
    /\ w_attrs w' = w_attrs w.
Proof.
  intros Ho Hl Hlen. rewrite construct_unfold, Ho. cbv zeta. cbn [truthy negb].
  pose proof (lookup_with_default_attrs _ _ _ Hl) as Hl'.
  rewrite (bind_ok _ _ _ _ _ (load_ok _ _ _ Hl')).
  rewrite bool_decide_eq_false_2 by apply array_keys_differ.
  rewrite (bind_ok _ _ _ _ _ (entries_of_ref _ _ _ Hl')).
  cbn [entries_of_cell].
  set (this := mkShortcode (o_tag o) (default_attrs_loc w) (o_type o) (o_content o)).
  pose proof (lookup_lt_Some _ _ _ Hl) as Hlt.
  destruct (set_each_numeric this
              [(js "named", VRef (length (w_heap w)));
               (js "numeric", VRef (S (length (w_heap w))))]
              (S (length (w_heap w))) elems) with (pre := @nil Val)
              (u := with_default_attrs w)
    as (u' & Hrun & Hlm & Hothers & _ & Hc).
  - reflexivity.
  - cbn [this sc_attrs]. unfold default_attrs_loc. lia.
  - cbn [this sc_attrs with_default_attrs w_heap]. unfold default_attrs_loc.
    apply lookup_snoc_2.
  - cbn [with_default_attrs w_heap]. apply lookup_snoc_1.
  - exact Hlen.
  - exists u'. unfold set_each in Hrun. cbn [length Nat.add app] in Hrun, Hlm.
    rewrite Hrun. split; [done|]. split; [|split].
    + unfold attrs_view.
      rewrite (Hothers (default_attrs_loc w)) by (unfold default_attrs_loc; lia).
      cbn [with_default_attrs w_heap]. unfold default_attrs_loc.
      rewrite lookup_snoc_2, prop_get_named, prop_get_numeric, Hlm.
      rewrite (Hothers (length (w_heap w))) by lia.
      cbn [with_default_attrs w_heap]. by rewrite lookup_snoc_0.
    + rewrite (Hothers l) by lia. done.
    + by rewrite Hc.
Qed.

(** The array [["a", "b c"]]. *)
Definition array_attrs_world : World :=
  mkWorld [CArr [VStr (js "a"); VStr (js "b c")]] ∅ ∅.

Lemma array_attrs_become_numeric_witness :
  exists w',
    Shortcode.construct attrs_at_0 array_attrs_world
    = (Ok (mkShortcode (VStr (js "x")) 3 VUndef VUndef), w')
    /\ attrs_view w' 3 = Some ([], [VStr (js "a"); VStr (js "b c")])
    /\ w_heap w' !! 0 = Some (CArr [VStr (js "a"); VStr (js "b c")])
    /\ w_attrs w' = ∅.
Proof.
  apply (array_attrs_become_numeric array_attrs_world attrs_at_0 0
           [VStr (js "a"); VStr (js "b c")]); [reflexivity | reflexivity | by vm_compute].
Defined.

(** ** An attribute object of its own *)

(** A store whose cache holds the parse of [a="1"]. *)
Definition cached_parse_world : World :=
  mkWorld [CObj [(js "a", VStr (js "1"))]; CArr [];
           CObj [(js "named", VRef 0); (js "numeric", VRef 1)]]
    ∅ {[ a_is_1 := 2 ]}.

(** X13: a shortcode constructed without attributes has an attribute
    object of its own: [set] on it files the value there, and every parse
    the cache holds reads as before. *)
Theorem fresh_attrs_not_shared (w : World) (o : Options) (k : jstring) (v : Val) :
  attrs_cache_ok w ->
  truthy (o_attrs o) = false ->
  exists this w1 w2,
    Shortcode.construct o w = (Ok this, w1)
    /\ Shortcode.prototype.set this (VStr k) v w1 = (Ok this, w2)
    /\ attrs_view w2 (sc_attrs this) = Some (prop_set [] k v, [])
    /\ forall text l, w_attrs w2 !! text = Some l -> attrs_view w2 l = attrs_view w l.
Proof.
  intros Hca Ho. rewrite construct_unfold. cbv zeta. rewrite Ho. cbn [negb].
  set (this := mkShortcode (o_tag o) (default_attrs_loc w) (o_type o) (o_content o)).
  assert (Ha : w_heap (with_default_attrs w) !! sc_attrs this
               = Some (CObj [(js "named", VRef (length (w_heap w)));
                             (js "numeric", VRef (S (length (w_heap w))))])).
  { cbn [this sc_attrs with_default_attrs w_heap]. apply lookup_snoc_2. }
  assert (Hln : w_heap (with_default_attrs w) !! length (w_heap w) = Some (CObj [])).
  { cbn [with_default_attrs w_heap]. apply lookup_snoc_0. }
  eexists this, _, _. split; [reflexivity|]. split; [|split].
  - apply (set_named_at _ _ _ _ _ k v Ha (prop_get_named _ _) Hln).
  - unfold attrs_view. cbn [this sc_attrs] in *.
    rewrite lookup_with_cell_ne by (unfold default_attrs_loc; lia).
    rewrite Ha, prop_get_named, prop_get_numeric.
    rewrite (lookup_with_cell_eq _ _ _ _ Hln).
    rewrite lookup_with_cell_ne by lia.
    cbn [with_default_attrs w_heap]. by rewrite lookup_snoc_1.
  - intros text l Hl. cbn [with_cell with_default_attrs w_attrs] in Hl.
    destruct (Hca _ _ Hl) as [view Hview]. rewrite Hview.
    apply (attrs_view_extend w); [|done].
    intros j c Hj. pose proof (lookup_lt_Some _ _ _ Hj).
    rewrite lookup_with_cell_ne by lia. by apply lookup_with_default_attrs.
Qed.

Lemma fresh_attrs_not_shared_witness :
  exists this w1 w2,
    Shortcode.construct (mkOptions (VStr (js "x")) VUndef VUndef VUndef) cached_parse_world
    = (Ok this, w1)
    /\ Shortcode.prototype.set this (VStr (js "a")) (VStr (js "changed")) w1 = (Ok this, w2)
    /\ attrs_view w2 (sc_attrs this)
       = Some (prop_set [] (js "a") (VStr (js "changed")), [])
    /\ forall text l,
         w_attrs w2 !! text = Some l -> attrs_view w2 l = attrs_view cached_parse_world l.
Proof.
  apply (fresh_attrs_not_shared cached_parse_world
           (mkOptions (VStr (js "x")) VUndef VUndef VUndef) (js "a")
           (VStr (js "changed"))).
  - intros text l H. cbn [cached_parse_world w_attrs] in H.
    apply lookup_singleton_Some in H as [_ <-]. by eexists.
  - reflexivity.
Defined.

(** ** What only reads the store *)

(** A computation that leaves the store as it found it. *)
Definition quiet {A} (c : M A) : Prop := forall w, snd (c w) = w.

Lemma quiet_ret {A} (a : A) : quiet (ret a).
Proof. by intros w. Qed.

Lemma quiet_beyond {A} : quiet (@beyond A).
Proof. by intros w. Qed.

Lemma quiet_throw {A} (e : Exn) : quiet (@throw A e).
Proof. by intros w. Qed.

Lemma quiet_lift {A} (o : option A) : quiet (lift o).
Proof. by destruct o. Qed.

Lemma quiet_load (l : nat) : quiet (load l).
Proof. intros w. unfold load. by destruct (w_heap w !! l). Qed.

Lemma quiet_bind {A B} (c : M A) (k : A -> M B) :
  quiet c -> (forall a, quiet (k a)) -> quiet (bind c k).
Proof.
  intros Hc Hk w. unfold bind. specialize (Hc w).
  destruct (c w) as [[a| | |] w1]; cbn [snd] in *; subst; [apply Hk|done..].
Qed.

Lemma quiet_foldM {A B} (f : B -> A -> M B) (l : list A) :
  (forall b a, quiet (f b a)) -> forall b, quiet (foldM f l b).
Proof.
  intros Hf. induction l as [|a l IH]; intros b; [apply quiet_ret|].
  cbn [foldM]. apply quiet_bind; [apply Hf | done].
Qed.

Lemma quiet_entries_of (v : Val) : quiet (entries_of v).
Proof.
  destruct v; cbn [entries_of]; try apply quiet_ret.
  apply quiet_bind; [apply quiet_load | intros c; apply quiet_ret].
Qed.

Ltac quiet_step :=
  first [ apply quiet_ret | apply quiet_beyond | apply quiet_throw | apply quiet_lift
        | apply quiet_load | apply quiet_entries_of
        | apply quiet_foldM; intros ? ?
        | apply quiet_bind; [|intros ?] ].

(** X14: [get] and [string] of a shortcode only read: whatever they
    answer, the store and the caches are left as they were. *)
Theorem get_and_string_only_read (this : ShortcodeObj) (attr : Val) (w : World) :
  snd (Shortcode.prototype.get this attr w) = w
  /\ snd (Shortcode.prototype.string this w) = w.
Proof.
  split.
  - revert w. change (quiet (Shortcode.prototype.get this attr)).
    unfold Shortcode.prototype.get, Shortcode.prototype.bucket.
    apply quiet_bind; [repeat quiet_step; destruct a; quiet_step|].
    intros b. destruct b as [| | |lb]; [quiet_step..|].
    apply quiet_bind; [quiet_step|]. intros c.
    destruct c; [repeat quiet_step | destruct attr; repeat quiet_step | quiet_step].
  - revert w. change (quiet (Shortcode.prototype.string this)).
    unfold Shortcode.prototype.string, Shortcode.prototype.string_numeric,
      Shortcode.prototype.string_named.
    apply quiet_bind; [quiet_step|]. intros tag.
    apply quiet_bind; [quiet_step|]. intros a.
    destruct a as [props|elems|p j]; [|quiet_step..].
    apply quiet_bind; [quiet_step|]. intros numeric.
    apply quiet_bind.
    { apply quiet_foldM. intros text kv. apply quiet_bind; [quiet_step|].
      intros value. destruct (test _ _); quiet_step. }
    intros text. apply quiet_bind; [quiet_step|]. intros named.
    apply quiet_bind.
    { apply quiet_foldM. intros text' kv. repeat quiet_step. }
    intros text'.
    destruct (strict_eq_str _ _); [quiet_step|].
    destruct (strict_eq_str _ _); [quiet_step|].
    apply quiet_bind; [|intros; quiet_step].
    destruct (truthy _); repeat quiet_step.
Qed.

(** ** The spaces the parser reads *)

(** U+00A0 and U+200B *)
Definition is_odd_space (c : char) : bool := (c =? 160)%N || (c =? 8203)%N.

(** The text with each of them replaced by a space. *)
Definition plain_spaces (s : jstring) : jstring :=
  map (fun c => if is_odd_space c then 32%N else c) s.

Lemma plain_spaces_idem (s : jstring) : plain_spaces (plain_spaces s) = plain_spaces s.
Proof.
  unfold plain_spaces. rewrite map_map. apply map_ext. intros c.
  by destruct (is_odd_space c) eqn:E; [|rewrite E].
Qed.

(** The search for the first of them: none is there, or the one reported
    is the first. *)
Lemma scan_odd_space (rest : jstring) :
  forall prev i,
    (scan (p_re Shortcode.spaces_pattern) 0 prev rest i = None
     /\ plain_spaces rest = rest)
    \/ (exists pre c tl,
          rest = pre ++ c :: tl
          /\ plain_spaces pre = pre
          /\ is_odd_space c = true
          /\ scan (p_re Shortcode.spaces_pattern) 0 prev rest i
             = Some (mkMatch (i + length pre) [c] [], S (i + length pre))).
Proof.
  cbn [Shortcode.spaces_pattern p_re].
  induction rest as [|c rest IH]; intros prev i; [by left|].
  cbn [scan rmatch]. unfold step_char.
  cbn [ms_rest ms_end ms_caps replicate].
  replace (class_matches false [CChar 160; CChar 8203] c) with (is_odd_space c)
    by (unfold class_matches, is_odd_space; cbn [existsb item_matches xorb];
        by rewrite orb_false_r).
  destruct (is_odd_space c) eqn:Ec.
  - right. exists [], c, rest. cbn [app length plain_spaces map ms_end ms_caps].
    rewrite Nat.add_0_r. replace (S i - i) with 1 by lia. by cbn [take].
  - destruct (IH (Some c) (S i)) as [[Hs Hp]|(pre & d & tl & -> & Hp & Hd & Hs)].
    + left. split; [done|]. cbn [plain_spaces map]. rewrite Ec. f_equal. exact Hp.
    + right. exists (c :: pre), d, tl. cbn [app length plain_spaces map]. rewrite Ec.
      split; [done|]. split; [by f_equal|]. split; [done|].
      rewrite Hs. by replace (S i + length pre) with (i + S (length pre)) by lia.
Qed.

Lemma replace_loop_spaces (fuel : nat) :
  forall seen rest acc,
    length rest < fuel ->
    replace_loop fuel Shortcode.spaces_pattern (seen ++ rest) (js " ")
      (length seen) (length seen) acc
    = Some (acc ++ plain_spaces rest).
Proof.
  induction fuel as [|fuel IH]; intros seen rest acc Hf; [lia|].
  cbn [replace_loop]. unfold exec_global.
  rewrite (proj2 (Nat.ltb_ge _ _)) by (rewrite length_app; lia).
  rewrite take_app_length, drop_app_length.
  change (p_groups Shortcode.spaces_pattern) with 0.
  destruct (scan_odd_space rest (last_char seen None) (length seen))
    as [[Hs Hp]|(pre & c & tl & -> & Hp & Hc & Hs)]; rewrite Hs.
  - by rewrite Hp.
  - cbn [m_index].
    rewrite (proj2 (Nat.eqb_neq _ _)) by lia.
    replace (length seen + length pre - length seen) with (length pre) by lia.
    rewrite take_app_length.
    replace (seen ++ pre ++ c :: tl) with ((seen ++ pre ++ [c]) ++ tl)
      by (by rewrite <- !app_assoc).
    replace (S (length seen + length pre)) with (length (seen ++ pre ++ [c]))
      by (rewrite !length_app; cbn [length]; lia).
    rewrite IH by (rewrite length_app in Hf; cbn [length] in Hf; lia).
    f_equal. rewrite <- !app_assoc. do 2 f_equal.
    unfold plain_spaces in *. rewrite map_app, Hp. cbn [map]. by rewrite Hc.
Qed.

(** [text.replace] with the pattern of the two characters and a space. *)
Lemma replace_global_spaces (text : jstring) :
  replace_global Shortcode.spaces_pattern text (js " ") = Some (plain_spaces text).
Proof.
  unfold replace_global. apply (replace_loop_spaces _ [] text []). lia.
Qed.

(** X15: the parser reads U+00A0 and U+200B as spaces: a text that is not
    in the cache is parsed into the same named and numeric attributes as
    the text with each of them replaced by a space. *)
Theorem attrs_reads_odd_spaces_as_spaces (w : World) (text : jstring) :
  w_attrs w !! text = None ->
  w_attrs w !! plain_spaces text = None ->
  exists l1 w1 l2 w2 view,
    Shortcode.attrs text w = (Ok l1, w1)
    /\ Shortcode.attrs (plain_spaces text) w = (Ok l2, w2)
    /\ attrs_view w1 l1 = Some view
    /\ attrs_view w2 l2 = Some view.
Proof.
  intros H1 H2.
  destruct (attrs_loop_total (plain_spaces text) (S (length (plain_spaces text))) 0 [] [])
    as [[named numeric] Hl]; [lia | lia |].
  do 4 eexists. exists (named, numeric).
  rewrite (attrs_miss _ _ _ _ _ H1 (replace_global_spaces text) Hl).
  pose proof (replace_global_spaces (plain_spaces text)) as Hr.
  rewrite plain_spaces_idem in Hr.
  rewrite (attrs_miss _ _ _ _ _ H2 Hr Hl).
  split; [reflexivity|]. split; [reflexivity|]. by rewrite !attrs_view_parsed.
Qed.

(** The attribute list [a=1], U+00A0, [b]. *)
Definition a_nbsp_b : jstring := js "a=1" ++ [160%N] ++ js "b".

Lemma attrs_reads_odd_spaces_as_spaces_witness :
  exists l1 w1 l2 w2 view,
    Shortcode.attrs a_nbsp_b empty_world = (Ok l1, w1)
    /\ Shortcode.attrs (plain_spaces a_nbsp_b) empty_world = (Ok l2, w2)
    /\ attrs_view w1 l1 = Some view
    /\ attrs_view w2 l2 = Some view.
Proof.
  apply (attrs_reads_odd_spaces_as_spaces empty_world a_nbsp_b); apply lookup_empty.
Defined.

(** ** The captures a pattern leaves alone *)

(** Whether the pattern may write the capture at index [j] (group [j+1]):
    it holds the group, or a repetition that resets it. *)
Fixpoint writes (r : Regex) (j : nat) : bool :=
  match r with
  | RSeq a b | RAlt a b => writes a j || writes b j
  | RQuant a _ _ _ pi pc => writes a j || ((pi <=? j) && (j <? pi + pc))
  | RGroup n a => (j =? pred n) || writes a j
  | RLook _ a => writes a j
  | _ => false
  end.

(** The matcher [m] hands its continuation only states whose capture [j]
    is the one it started with, among as many captures. *)
Definition keeps_capture (j : nat) (m : Matcher) : Prop :=
  forall x k z,
    m x k = Some z ->
    exists y,
      k y = Some z
      /\ ms_caps y !! j = ms_caps x !! j
      /\ length (ms_caps y) = length (ms_caps x).

Lemma clear_caps_outside (pc : nat) :
  forall pi caps j,
    (pi <=? j) && (j <? pi + pc) = false ->
    clear_caps pi pc caps !! j = caps !! j.
Proof.
  induction pc as [|pc IH]; intros pi caps j H; [done|].
  cbn [clear_caps]. rewrite IH.
  - apply list_lookup_insert_ne. intros ->.
    rewrite Nat.leb_refl in H. cbn [andb] in H. apply Nat.ltb_ge in H. lia.
  - apply andb_false_iff in H as [H|H].
    + apply Nat.leb_gt in H. apply andb_false_iff. left. apply Nat.leb_gt. lia.
    + apply Nat.ltb_ge in H. apply andb_false_iff. right. apply Nat.ltb_ge. lia.
Qed.

Lemma clear_caps_length (pc : nat) :
  forall pi caps, length (clear_caps pi pc caps) = length caps.
Proof.
  induction pc as [|pc IH]; intros pi caps; [done|].
  cbn [clear_caps]. by rewrite IH, length_insert.
Qed.

Lemma repeat_matcher_keeps (j : nat) (m : Matcher) (pi pc : nat) (fuel : nat) :
  keeps_capture j m ->
  (pi <=? j) && (j <? pi + pc) = false ->
  forall mn mx greedy, keeps_capture j (repeat_matcher fuel m mn mx greedy pi pc).
Proof.
  intros Hm Hout. induction fuel as [|fuel IH]; intros mn mx greedy x k z H; [done|].
  cbn [repeat_matcher] in H.
  assert (Hstop : k x = Some z ->
                  exists y, k y = Some z /\ ms_caps y !! j = ms_caps x !! j
                            /\ length (ms_caps y) = length (ms_caps x)) by eauto.
  assert (Hiter :
    m (with_caps x (clear_caps pi pc (ms_caps x)))
      (fun y => if (mn =? 0) && (ms_end y =? ms_end x) then None
                else repeat_matcher fuel m (pred mn) (pred <$> mx) greedy pi pc y k)
    = Some z ->
    exists y, k y = Some z /\ ms_caps y !! j = ms_caps x !! j
              /\ length (ms_caps y) = length (ms_caps x)).
  { intros Hi. destruct (Hm _ _ _ Hi) as (y1 & Hd & Hc1 & Hl1).
    destruct ((mn =? 0) && (ms_end y1 =? ms_end x)); [done|].
    destruct (IH _ _ _ _ _ _ Hd) as (y & Hk & Hc & Hl).
    exists y. split; [done|]. cbn [with_caps ms_caps] in Hc1, Hl1. split.
    - rewrite Hc, Hc1. by apply clear_caps_outside.
    - by rewrite Hl, Hl1, clear_caps_length. }
  destruct mx as [[|mx]|].
  - by apply Hstop.
  - destruct (negb (mn =? 0)); [by apply Hiter|].
    destruct greedy.
    + destruct (m _ _) eqn:Ei; [inversion H; subst; by apply Hiter | by apply Hstop].
    + destruct (k x) eqn:Ek; [inversion H; subst; by apply Hstop | by apply Hiter].
  - destruct (negb (mn =? 0)); [by apply Hiter|].
    destruct greedy.
    + destruct (m _ _) eqn:Ei; [inversion H; subst; by apply Hiter | by apply Hstop].
    + destruct (k x) eqn:Ek; [inversion H; subst; by apply Hstop | by apply Hiter].
Qed.

(** A pattern leaves the captures of the groups outside it as they are. *)
Lemma rmatch_keeps (j : nat) (r : Regex) :
  writes r j = false -> keeps_capture j (rmatch r).
Proof.
  induction r as [| c | | neg items | r1 IH1 r2 IH2 | r1 IH1 r2 IH2
                  | r1 IH1 mn mx greedy pi pc | n r1 IH1 | positive r1 IH1 | n
                  | | | positive]; intros Hw x k z H; cbn [rmatch writes] in *.
  - eauto.
  - unfold step_char in H. destruct (ms_rest x) as [|d tl]; [done|].
    destruct (d =? c)%N; [|done]. eexists. split; [exact H | done].
  - unfold step_char in H. destruct (ms_rest x) as [|d tl]; [done|].
    destruct (negb (is_line_terminator d)); [|done]. eexists. split; [exact H | done].
  - unfold step_char in H. destruct (ms_rest x) as [|d tl]; [done|].
    destruct (class_matches neg items d); [|done]. eexists. split; [exact H | done].
  - apply orb_false_iff in Hw as [H1 H2].
    destruct (IH1 H1 _ _ _ H) as (y1 & Hk1 & Hc1 & Hl1).
    destruct (IH2 H2 _ _ _ Hk1) as (y & Hk & Hc & Hl).
    exists y. split; [done|]. split; [by rewrite Hc, Hc1 | by rewrite Hl, Hl1].
  - apply orb_false_iff in Hw as [H1 H2].
    destruct (rmatch r1 x k) eqn:E1.
    + inversion H; subst. by apply (IH1 H1).
    + by apply (IH2 H2).
  - apply orb_false_iff in Hw as [H1 H2].
    by apply (repeat_matcher_keeps j _ pi pc _ (IH1 H1) H2 _ _ _ _ _ _ H).
  - apply orb_false_iff in Hw as [H1 H2].
    destruct (IH1 H2 _ _ _ H) as (y & Hk & Hc & Hl).
    eexists. split; [exact Hk|]. cbn [with_caps ms_caps]. unfold set_cap. split.
    + rewrite list_lookup_insert_ne; [done|]. apply Nat.eqb_neq in H1. lia.
    + by rewrite length_insert.
  - destruct (rmatch r1 x Some) as [y0|] eqn:E0; destruct positive; try done.
    + destruct (IH1 Hw _ _ _ E0) as (y & Hy & Hc & Hl). inversion Hy; subst y0.
      eexists. split; [exact H|]. done.
    + eauto.
  - destruct (ms_caps x !! pred n) as [[s|]|]; [|eauto..].
    destruct (strip_prefix s (ms_rest x)) as [tl|]; [|done].
    eexists. split; [exact H | done].
  - destruct (ms_prev x); [done|]. eauto.
  - destruct (ms_rest x); [|done]. eauto.
  - destruct (eqb positive _); [|done]. eauto.
Qed.

Lemma writes_chars (s : jstring) (j : nat) : writes (mk_seq (map RChar s)) j = false.
Proof. induction s as [|c s IH]; [done|]. cbn [map mk_seq foldr writes]. exact IH. Qed.

(** A match of the pattern of a tag reports seven captures. *)
Lemma rmatch_tag_groups (tag : jstring) (x z : MState) :
  rmatch (shortcode_regex (mk_seq (map RChar tag))) x Some = Some z ->
  length (ms_caps z) = length (ms_caps x).
Proof.
  intros H.
  assert (Hw : writes (shortcode_regex (mk_seq (map RChar tag))) 7 = false).
  { unfold shortcode_regex. cbn [writes]. by rewrite writes_chars. }
  destruct (rmatch_keeps 7 _ Hw _ _ _ H) as (y & Hy & _ & Hl). by inversion Hy; subst.
Qed.

(** ** The shape of an occurrence *)

(** A sequence of literal characters matches only a text that starts with
    them. *)
Lemma rmatch_chars_inv (s : jstring) :
  forall rest prev e caps (k : Cont) z,
    rmatch (mk_seq (map RChar s)) (mkMState rest prev e caps) k = Some z ->
    exists r,
      rest = s ++ r
      /\ k (mkMState r (last_char s prev) (e + length s) caps) = Some z.
Proof.
  induction s as [|c s IH]; intros rest prev e caps k z H.
  - exists rest. split; [done|]. cbn in *. by rewrite Nat.add_0_r.
  - cbn [map mk_seq foldr rmatch] in H. unfold step_char in H.
    cbn [ms_rest ms_end ms_caps] in H.
    destruct rest as [|d rest]; [done|].
    destruct (N.eqb_spec d c) as [->|]; [|done].
    fold (mk_seq (map RChar s)) in H.
    destruct (IH _ _ _ _ _ _ H) as (r & -> & Hk).
    exists r. split; [done|]. rewrite last_char_cons. cbn [length].
    by replace (e + S (length s)) with (S e + length s) by lia.
Qed.

Lemma rmatch_char_inv (c : char) (x : MState) (k : Cont) (z : MState) :
  rmatch (RChar c) x k = Some z ->
  exists r,
    ms_rest x = c :: r
    /\ k (mkMState r (Some c) (S (ms_end x)) (ms_caps x)) = Some z.
Proof.
  cbn [rmatch]. unfold step_char. intros H.
  destruct (ms_rest x) as [|d r]; [done|].
  destruct (N.eqb_spec d c) as [->|]; [|done]. eauto.
Qed.

(** An optional character: it is read, or the match goes on without it. *)
Lemma rmatch_optional_char_inv (c : char) (x : MState) (k : Cont) (z : MState) :
  rmatch (RQuant (RChar c) 0 (Some 1) true 0 0) x k = Some z ->
  k x = Some z
  \/ exists r,
       ms_rest x = c :: r
       /\ k (mkMState r (Some c) (S (ms_end x)) (ms_caps x)) = Some z.
Proof.
  destruct x as [rest prev e caps].
  cbn [rmatch repeat_matcher Nat.eqb negb clear_caps Nat.add].
  unfold step_char, with_caps. cbn [ms_caps ms_rest ms_prev ms_end].
  destruct rest as [|d r]; [by left|].
  destruct (N.eqb_spec d c) as [->|]; [|by left].
  cbn [length repeat_matcher andb pred fmap option_fmap option_map ms_end].
  rewrite (proj2 (Nat.eqb_neq (S e) e)) by lia. cbn [andb].
  destruct (k (mkMState r (Some c) (S e) caps)) as [z'|] eqn:Ek; [|by left].
  intros H. inversion H; subst z'. right. eauto.
Qed.

Lemma rmatch_look_not_inv (a : Regex) (x : MState) (k : Cont) (z : MState) :
  rmatch (RLook false a) x k = Some z -> rmatch a x Some = None /\ k x = Some z.
Proof. cbn [rmatch]. by destruct (rmatch a x Some). Qed.

(** What follows the tag in the pattern: the attributes, the end of the
    opening tag with content and closing tag, the last bracket. *)
Definition re_after_tag : Regex :=
  RSeq re_attrs
    (RSeq re_end
       (RSeq (RGroup 7 (RSeq (RQuant (RChar 93) 0 (Some 1) true 0 0) REmpty)) REmpty)).

(** A match of the pattern of [tag] starts with an opening bracket,
    perhaps a second one, and the tag, which no character of a tag follows;
    the first two captures hold the second bracket and the tag, and what
    follows the tag in the pattern matches the rest. *)
Lemma rmatch_tag_prefix (tag rest : jstring) prev (i : nat) (z : MState) :
  rmatch (shortcode_regex (mk_seq (map RChar tag)))
    (mkMState rest prev i (replicate 7 None)) Some = Some z ->
  exists g1 r3 prev3,
    rest = 91%N :: g1 ++ tag ++ r3
    /\ (g1 = [] \/ g1 = [91%N])
    /\ (forall c r', r3 = c :: r' -> tag_char c = false)
    /\ rmatch re_after_tag
         (mkMState r3 prev3 (S i + length g1 + length tag)
            (<[1 := Some tag]> (<[0 := Some g1]> (replicate 7 None)))) Some = Some z.
Proof.
  intros H. unfold shortcode_regex in H. fold re_after_tag in H.
  rewrite rmatch_seq in H.
  apply rmatch_char_inv in H as (r1 & Hrest & H). cbn [ms_rest ms_end ms_caps] in *.
  subst rest.
  rewrite rmatch_seq, rmatch_group, rmatch_seq in H.
  (* the optional second bracket *)
  assert (Hopt : exists g1 r2,
            r1 = g1 ++ r2 /\ (g1 = [] \/ g1 = [91%N])
            /\ rmatch (RSeq (RGroup 2 (mk_seq (map RChar tag)))
                         (RSeq (RLook false
                                  (RSeq (RClass false [CWord true; CChar 45]) REmpty))
                            re_after_tag))
                 (mkMState r2 (last_char g1 (Some 91%N)) (S i + length g1)
                    (<[0 := Some g1]> (replicate 7 None))) Some = Some z).
  { apply rmatch_optional_char_inv in H as [H|(r2 & Hr & H)];
      rewrite rmatch_empty in H; unfold with_caps, set_cap in H;
      cbn [ms_rest ms_prev ms_end ms_caps pred] in *.
    - exists [], r1. split; [done|]. split; [by left|].
      rewrite Nat.sub_diag, take_0 in H. cbn [length last_char last].
      by rewrite Nat.add_0_r.
    - subst r1. exists [91%N], r2. split; [done|]. split; [by right|].
      replace (S (S i) - S i) with 1 in H by lia.
      cbn [take length last_char last] in *.
      by replace (S i + 1) with (S (S i)) by lia. }
  clear H. destruct Hopt as (g1 & r2 & -> & Hg1 & H).
  (* the tag *)
  rewrite rmatch_seq, rmatch_group in H.
  apply rmatch_chars_inv in H as (r3 & -> & H).
  unfold with_caps, set_cap in H. cbn [ms_rest ms_prev ms_end ms_caps pred] in H.
  replace (S i + length g1 + length tag - (S i + length g1)) with (length tag) in H by lia.
  rewrite take_app_length in H.
  (* no character of a tag follows *)
  rewrite rmatch_seq in H.
  apply rmatch_look_not_inv in H as [Elook H].
  cbn [rmatch] in Elook.
  unfold step_char in Elook. cbn [ms_rest] in Elook.
  exists g1, r3, (last_char tag (last_char g1 (Some 91%N))).
  split; [done|]. split; [done|]. split; [|exact H].
  intros c r' ->.
  replace (tag_char c) with (class_matches false [CWord true; CChar 45] c)
    by (unfold class_matches, tag_char; cbn [existsb item_matches xorb];
        by rewrite orb_false_r).
  by destruct (class_matches false [CWord true; CChar 45] c).
Qed.

(** A match of the pattern of [tag] reads an opening bracket, perhaps a
    second one, the tag, and at least one more character, the first of which
    is no character of a tag; the first two captures hold the second
    bracket and the tag. *)
Lemma rmatch_tag_shape (tag rest : jstring) prev (i : nat) (z : MState) :
  rmatch (shortcode_regex (mk_seq (map RChar tag)))
    (mkMState rest prev i (replicate 7 None)) Some = Some z ->
  exists g1 s,
    rest = 91%N :: g1 ++ tag ++ s ++ ms_rest z
    /\ (g1 = [] \/ g1 = [91%N])
    /\ ms_end z = i + S (length g1 + length tag + length s)
    /\ 1 <= length s
    /\ (forall c s', s = c :: s' -> tag_char c = false)
    /\ ms_caps z !! 0 = Some (Some g1)
    /\ ms_caps z !! 1 = Some (Some tag).
Proof.
  intros H0.
  destruct (rmatch_tag_prefix _ _ _ _ _ H0) as (g1 & r3 & prev3 & -> & Hg1 & Hhead & H).
  destruct (rmatch_reads _ _ _ _ H) as (y & s & Hy & [Hr He] & Hn).
  inversion Hy; subst y. cbn [ms_rest ms_end] in Hr, He.
  destruct (rmatch_keeps 0 re_after_tag eq_refl _ _ _ H) as (y0 & Hy0 & Hc0 & _).
  inversion Hy0; subst y0.
  destruct (rmatch_keeps 1 re_after_tag eq_refl _ _ _ H) as (y1 & Hy1 & Hc1 & _).
  inversion Hy1; subst y1.
  cbn [ms_caps] in Hc0, Hc1.
  exists g1, s. rewrite Hr in *. split; [done|]. split; [done|]. split; [|split; [|split]].
  - rewrite He. unfold char in *. lia.
  - exact Hn.
  - intros c s' ->. by eapply Hhead.
  - split; [etrans; [exact Hc0|] | etrans; [exact Hc1|]];
      by destruct Hg1 as [-> | ->].
Qed.

(** The text of an occurrence of [tag]: after the opening bracket [g1],
    the tag, and then [s]. *)
Definition occurrence_of (tag : jstring) (m : Match) (g1 s : jstring) : Prop :=
  m_text m = 91%N :: g1 ++ tag ++ s
  /\ (g1 = [] \/ g1 = [91%N])
  /\ 1 <= length s
  /\ (forall c s', s = c :: s' -> tag_char c = false)
  /\ m_get m 1 = Some g1
  /\ m_get m 2 = Some tag.

Lemma scan_tag_shape (tag rest : jstring) :
  forall prev i m e,
    scan (p_re (tag_pattern tag)) 7 prev rest i = Some (m, e) ->
    exists g1 s, occurrence_of tag m g1 s.
Proof.
  cbn [tag_pattern p_re].
  assert (Hhere : forall rest prev i y,
            rmatch (shortcode_regex (mk_seq (map RChar tag)))
              (mkMState rest prev i (replicate 7 None)) Some = Some y ->
            exists g1 s,
              occurrence_of tag (mkMatch i (take (ms_end y - i) rest) (ms_caps y)) g1 s).
  { intros rest' prev i y Hy.
    destruct (rmatch_tag_shape _ _ _ _ _ Hy) as (g1 & s & Hr & Hg & He & Hn & Hc & H0 & H1).
    exists g1, s. unfold occurrence_of. cbn [m_text m_get m_groups].
    split; [|split; [done|split; [done|split; [done|split]]]].
    - rewrite Hr, He. replace (i + S (length g1 + length tag + length s) - i)
        with (length (91%N :: g1 ++ tag ++ s))
        by (cbn [length]; rewrite !length_app; unfold char in *; lia).
      replace (91%N :: g1 ++ tag ++ s ++ ms_rest y)
        with ((91%N :: g1 ++ tag ++ s) ++ ms_rest y)
        by (cbn [app]; by rewrite <- !app_assoc).
      by rewrite take_app_length.
    - unfold default, from_option, id.
      match goal with |- match ?a with _ => _ end = _ => replace a with (Some (Some g1)) end.
      done.
    - unfold default, from_option, id.
      match goal with |- match ?a with _ => _ end = _ => replace a with (Some (Some tag)) end.
      done. }
  induction rest as [|c rest IH]; intros prev i m e H; cbn [scan] in H.
  - destruct (rmatch _ _ Some) as [y|] eqn:Em; [|done].
    inversion H; subst. by eapply Hhere.
  - destruct (rmatch _ _ Some) as [y|] eqn:Em.
    + inversion H; subst. by eapply Hhere.
    + by eapply IH.
Qed.

Lemma exec_tag_shape (tag text : jstring) (i : nat) (m : Match) (e : nat) :
  exec_global (tag_pattern tag) text i = (Some m, e) ->
  exists g1 s, occurrence_of tag m g1 s.
Proof.
  unfold exec_global. intros H.
  destruct (length text <? i); [done|].
  destruct (scan _ _ _ _ _) as [[m' e']|] eqn:Es; [|done]. inversion H; subst.
  change (p_groups (tag_pattern tag)) with 7 in Es. by eapply scan_tag_shape.
Qed.

(** What [next] reports of an occurrence starts with the opening bracket
    and the tag. *)
Lemma report_shape (tag : jstring) (m : Match) (sc : ShortcodeObj) g1 s :
  occurrence_of tag m g1 s ->
  Shortcode.shortcode (report m sc) = sc
  /\ exists rest,
       Shortcode.content (report m sc) = 91%N :: tag ++ rest
       /\ (forall c tl, rest = c :: tl -> tag_char c = false).
Proof.
  intros (Htext & Hg & Hn & Hc & H1 & H2). unfold report. rewrite H1, Htext.
  assert (Htrim : forall c tl,
            take (length s - 1) s = c :: tl -> tag_char c = false).
  { intros c tl Ht. destruct s as [|d s']; [done|].
    cbn [length] in Ht. rewrite Nat.sub_succ, Nat.sub_0_r in Ht.
    destruct s' as [|d' s'']; [done|]. cbn [length take] in Ht.
    inversion Ht; subst. by eapply Hc. }
  assert (Htake : take (length (91%N :: tag ++ s) - 1) (91%N :: tag ++ s)
                  = 91%N :: tag ++ take (length s - 1) s).
  { cbn [length]. rewrite Nat.sub_succ, Nat.sub_0_r, length_app.
    replace (length tag + length s) with (S (length tag + (length s - 1)))
      by (unfold char in *; lia).
    cbn [take]. f_equal. by rewrite take_app_add'. }
  cbv zeta.
  destruct Hg as [-> | ->];
    [change (truthy (of_capture (Some []))) with false
    |change (truthy (of_capture (Some [91%N]))) with true];
    cbn [Shortcode.index Shortcode.content drop app];
    destruct (truthy (of_capture (m_get m 7)));
    cbn [Shortcode.shortcode Shortcode.content]; (split; [done|]);
    first [ exists (take (length s - 1) s); split; [exact Htake | exact Htrim]
          | by exists s ].
Qed.

(** The constructor keeps the tag, the type and the content it was given. *)
Lemma construct_fields (o : Options) (w w' : World) (t : ShortcodeObj) :
  (forall l, o_attrs o <> VRef l) ->
  Shortcode.construct o w = (Ok t, w') ->
  sc_tag t = o_tag o /\ sc_type t = o_type o /\ sc_content t = o_content o.
Proof.
  intros Hnr H. rewrite construct_unfold in H. cbv zeta in H.
  destruct (negb (truthy (o_attrs o))); [by inversion H; subst|].
  destruct (o_attrs o) as [| s | n | l]; [by inversion H; subst | |by inversion H; subst
                                          | by destruct (Hnr l)].
  unfold bind in H.
  destruct (Shortcode.attrs s (with_default_attrs w)) as [[l| | |] wa]; try done.
  by inversion H; subst.
Qed.

Lemma next_known_shape (re : nat) (tag text : jstring) (fuel : nat) :
  forall i w r w',
    next_known fuel re (tag_pattern tag) text i w = (Ok (Some r), w') ->
    sc_tag (Shortcode.shortcode r) = VStr tag
    /\ (exists ty, sc_type (Shortcode.shortcode r) = VStr ty
                   /\ In ty [js "single"; js "self-closing"; js "closed"])
    /\ exists rest,
         Shortcode.content r = 91%N :: tag ++ rest
         /\ (forall c tl, rest = c :: tl -> tag_char c = false).
Proof.
  induction fuel as [|fuel IH]; intros i w r w' H; [done|].
  cbn [next_known] in H. unfold bind at 1 in H. unfold store at 1 in H.
  destruct (exec_global (tag_pattern tag) text i) as [[m|] e] eqn:Ee;
    cbn [fst snd] in H; [|done].
  destruct (escaped m); [by eapply IH|].
  unfold bind in H.
  destruct (Shortcode.fromMatch _ _) as [[sc| | |] w1] eqn:Ef; try done.
  inversion H; subst r w'.
  destruct (exec_tag_shape _ _ _ _ _ Ee) as (g1 & s & Hocc).
  destruct (report_shape tag m sc g1 s Hocc) as [Hsc Hcontent].
  rewrite Hsc. unfold Shortcode.fromMatch in Ef.
  pose proof (fun Hnr => construct_fields _ _ _ _ Hnr Ef) as Hf.
  destruct (Hf (fun l => arg_match_array_not_ref m 3 l)) as (Htag & Hty & _).
  cbn [o_tag o_type] in Htag, Hty.
  split; [|split; [|done]].
  - rewrite Htag. destruct Hocc as (_ & _ & _ & _ & _ & H2).
    unfold arg, match_array. rewrite lookup_cons, list_lookup_fmap.
    cbn [m_get] in H2. by destruct (m_groups m !! 1) as [[g|]|]; inversion H2; subst.
  - eexists. split; [exact Hty|].
    destruct (truthy _); [cbn; tauto|]. destruct (truthy _); cbn; tauto.
Qed.

(** X16: for a tag of word characters and hyphens, what [next] reports is
    an occurrence of that tag as a whole word: [content] starts with the
    opening bracket and the tag, and what follows the tag does not start
    with a word character or a hyphen; the shortcode object carries the tag
    asked for, and its type is one of the three. *)
Theorem next_result_shape (w w' : World) (tag text : jstring) (start : option nat)
    (r : Shortcode.NextResult) :
  regexp_cache_ok w ->
  forallb tag_char tag = true ->
  Shortcode.next tag text start w = (Ok (Some r), w') ->
  sc_tag (Shortcode.shortcode r) = VStr tag
  /\ (exists ty, sc_type (Shortcode.shortcode r) = VStr ty
                 /\ In ty [js "single"; js "self-closing"; js "closed"])
  /\ exists rest,
       Shortcode.content r = 91%N :: tag ++ rest
       /\ (forall c tl, rest = c :: tl -> tag_char c = false).
Proof.
  intros Hok Ht H.
  destruct (regexp_ready w tag _ Hok (compile_tag tag Ht)) as (re & wA & Hr & Hat & _).
  rewrite (next_known_pattern _ _ _ _ _ _ _ Hr Hat) in H.
  by eapply next_known_shape.
Qed.

(** A call on a text that holds the tag first as part of a longer name. *)
Definition shape_call : Res (option Shortcode.NextResult) * World :=
  Shortcode.next (js "x") (js "[xy] [x-1] [[x a=1]") None empty_world.

Definition shape_result : Shortcode.NextResult :=
  match fst shape_call with
  | Ok (Some r) => r
  | _ => Shortcode.mkNextResult 0 [] (mkShortcode VUndef 0 VUndef VUndef)
  end.

Lemma next_result_shape_witness :
  sc_tag (Shortcode.shortcode shape_result) = VStr (js "x")
  /\ (exists ty, sc_type (Shortcode.shortcode shape_result) = VStr ty
                 /\ In ty [js "single"; js "self-closing"; js "closed"])
  /\ exists rest,
       Shortcode.content shape_result = 91%N :: js "x" ++ rest
       /\ (forall c tl, rest = c :: tl -> tag_char c = false).
Proof.
  apply (next_result_shape empty_world (snd shape_call) (js "x")
           (js "[xy] [x-1] [[x a=1]") None).
  - intros tag l H. cbn in H. by rewrite lookup_empty in H.
  - reflexivity.
  - vm_compute. reflexivity.
Defined.

(** ** The callback of [replace] on an occurrence *)

Lemma scan_tag_groups (tag rest : jstring) :
  forall prev i m e,
    scan (p_re (tag_pattern tag)) 7 prev rest i = Some (m, e) ->
    length (m_groups m) = 7.
Proof.
  cbn [tag_pattern p_re].
  induction rest as [|c rest IH]; intros prev i m e H; cbn [scan] in H.
  - destruct (rmatch _ _ Some) as [y|] eqn:Em; [|done].
    inversion H; subst. cbn [m_groups]. by rewrite (rmatch_tag_groups _ _ _ Em).
  - destruct (rmatch _ _ Some) as [y|] eqn:Em.
    + inversion H; subst. cbn [m_groups]. by rewrite (rmatch_tag_groups _ _ _ Em).
    + by eapply IH.
Qed.

Lemma exec_tag_groups (tag text : jstring) (i : nat) (m : Match) (e : nat) :
  exec_global (tag_pattern tag) text i = (Some m, e) ->
  length (m_groups m) = 7.
Proof.
  unfold exec_global. intros H.
  destruct (length text <? i); [done|].
  destruct (scan _ _ _ _ _) as [[m' e']|] eqn:Es; [|done]. inversion H; subst.
  change (p_groups (tag_pattern tag)) with 7 in Es. by eapply scan_tag_groups.
Qed.

(** The callback reads the match and its captures where [exec] has them,
    and [done] after the offset and the text. *)
Lemma arg_callback_args_capture (m : Match) text done (i : nat) :
  length (m_groups m) = 7 ->
  i <= 7 ->
  arg (callback_args m text done) i = arg (match_array m) i.
Proof.
  intros Hl Hi. unfold arg, callback_args.
  rewrite lookup_app_l; [done|]. unfold match_array. cbn [length].
  rewrite length_map. lia.
Qed.



(** A replacer that answers a replacement text. *)
Definition loud_replacer : Shortcode.Replacer := fun _ _ => ret (VStr (js "LOUD")).



(** ** The end of an occurrence *)

Lemma rmatch_char_reads (c : char) (x : MState) (k : Cont) (z : MState) :
  rmatch (RChar c) x k = Some z ->
  exists y, k y = Some z /\ reads x y [c].
Proof.
  intros H. apply rmatch_char_inv in H as (r & Hr & H).
  eexists. split; [exact H|]. split; cbn [ms_rest ms_end app length]; [done | lia].
Qed.

Lemma rmatch_quant (r : Regex) mn mx g pi pc (x : MState) (k : Cont) :
  rmatch (RQuant r mn mx g pi pc) x k
  = repeat_matcher (S (mn + length (ms_rest x))) (rmatch r) mn mx g pi pc x k.
Proof. reflexivity. Qed.

(** An optional group: the match goes on without it, or the group
    matches and the match goes on after it. *)
Lemma rmatch_optional_inv (a : Regex) pi pc (x : MState) (k : Cont) (z : MState) :
  rmatch (RQuant a 0 (Some 1) true pi pc) x k = Some z ->
  k x = Some z
  \/ exists k' : Cont,
       rmatch a (with_caps x (clear_caps pi pc (ms_caps x))) k' = Some z
       /\ forall y, k' y = Some z -> k y = Some z.
Proof.
  rewrite rmatch_quant.
  cbn [repeat_matcher Nat.eqb negb Nat.add andb pred fmap option_fmap option_map].
  match goal with
  | |- match rmatch a ?xr ?d with _ => _ end = _ -> _ =>
      destruct (rmatch a xr d) as [z'|] eqn:Ea
  end; [|by left].
  intros H. inversion H; subst z'. right. eexists. split; [exact Ea|].
  intros y Hy. cbn beta in Hy. destruct (ms_end y =? ms_end x); [done|].
  destruct (length (ms_rest x)); cbn [repeat_matcher] in Hy; done.
Qed.

Lemma rmatch_alt_inv (a b : Regex) (x : MState) (k : Cont) (z : MState) :
  rmatch (RAlt a b) x k = Some z -> rmatch a x k = Some z \/ rmatch b x k = Some z.
Proof.
  cbn [rmatch]. destruct (rmatch a x k) as [z'|]; [left | by right].
  by inversion H; subst.
Qed.

(** The end of the opening tag, with content and closing tag if they are
    there, ends with a closing bracket. *)
Lemma rmatch_end_reads (x : MState) (k : Cont) (z : MState) :
  rmatch re_end x k = Some z ->
  exists y s, k y = Some z /\ reads x y (s ++ [93%N]).
Proof.
  unfold re_end. intros H. apply rmatch_alt_inv in H as [H|H].
  - rewrite rmatch_seq, rmatch_group, rmatch_seq in H.
    apply rmatch_char_reads in H as (y1 & H & Hr1).
    rewrite rmatch_empty, rmatch_seq in H.
    apply rmatch_char_reads in H as (y2 & H & Hr2).
    rewrite rmatch_empty in H. apply reads_with_caps_l in Hr2.
    exists y2, [47%N]. split; [exact H|]. by apply (reads_trans x y1 y2 [47%N] [93%N]).
  - rewrite rmatch_seq in H. apply rmatch_char_reads in H as (y1 & H & Hr1).
    rewrite rmatch_seq in H. apply rmatch_optional_inv in H as [H|(k' & H & Hk')].
    + rewrite rmatch_empty in H. exists y1, []. by split.
    + rewrite rmatch_seq in H.
      destruct (rmatch_reads _ _ _ _ H) as (y2 & s2 & H2 & Hr2 & _).
      apply reads_with_caps_l in Hr2. cbn beta in H2.
      rewrite rmatch_seq in H2. unfold re_closing in H2.
      rewrite rmatch_group, rmatch_seq in H2.
      apply rmatch_char_reads in H2 as (y3 & H3 & Hr3).
      unfold re_close_tail in H3. rewrite rmatch_seq in H3.
      apply rmatch_char_reads in H3 as (y4 & H4 & Hr4).
      rewrite rmatch_seq in H4.
      destruct (rmatch_reads _ _ _ _ H4) as (y5 & s5 & H5 & Hr5 & _). cbn beta in H5.
      rewrite rmatch_seq in H5.
      apply rmatch_char_reads in H5 as (y6 & H6 & Hr6).
      rewrite !rmatch_empty in H6. apply Hk' in H6. rewrite rmatch_empty in H6.
      eexists _, ([93%N] ++ s2 ++ [91%N] ++ [47%N] ++ s5). split; [exact H6|].
      apply reads_with_caps_r.
      rewrite <- !app_assoc.
      eapply reads_trans; [exact Hr1|].
      eapply reads_trans; [exact Hr2|].
      eapply reads_trans; [exact Hr3|].
      eapply reads_trans; [exact Hr4|].
      eapply reads_trans; [exact Hr5|]. exact Hr6.
Qed.

(** What follows the tag reads a text that ends with a closing bracket,
    and then the last bracket if it is there; the seventh capture holds
    it. *)
Lemma rmatch_after_tag_reads (x z : MState) :
  length (ms_caps x) = 7 ->
  rmatch re_after_tag x Some = Some z ->
  exists s g7,
    reads x z ((s ++ [93%N]) ++ g7)
    /\ ms_caps z !! 6 = Some (Some g7).
Proof.
  intros Hlen H.
  destruct (rmatch_keeps 7 re_after_tag eq_refl _ _ _ H) as (z' & Hz' & _ & Hlz).
  inversion Hz'; subst z'. rewrite Hlen in Hlz.
  unfold re_after_tag in H. rewrite rmatch_seq in H.
  destruct (rmatch_reads _ _ _ _ H) as (y1 & s1 & H1 & Hr1 & _). cbn beta in H1.
  rewrite rmatch_seq in H1.
  apply rmatch_end_reads in H1 as (y2 & s2 & H2 & Hr2).
  rewrite rmatch_seq, rmatch_group, rmatch_seq in H2.
  assert (Hg7 : exists y3 g7,
            reads y2 y3 g7
            /\ ms_caps y3 = ms_caps y2
            /\ take (ms_end y3 - ms_end y2) (ms_rest y2) = g7
            /\ rmatch REmpty y3
                 (fun y => rmatch REmpty
                             (with_caps y
                                (set_cap 7 (Some (take (ms_end y - ms_end y2) (ms_rest y2)))
                                   (ms_caps y))) Some) = Some z).
  { apply rmatch_optional_char_inv in H2 as [H2|(r & Hr & H2)].
    - exists y2, []. split; [apply reads_refl|]. split; [done|].
      by rewrite Nat.sub_diag, take_0.
    - eexists _, [93%N]. split; [|split; [|split; [|exact H2]]].
      + split; cbn [ms_rest ms_end app length]; [done | lia].
      + done.
      + cbn [ms_end]. rewrite Hr. replace (S (ms_end y2) - ms_end y2) with 1 by lia.
        done. }
  destruct Hg7 as (y3 & g7 & Hr3 & Hcaps & Htake & H3).
  rewrite !rmatch_empty in H3. rewrite Htake in H3. inversion H3; subst z.
  exists (s1 ++ s2), g7. split.
  - apply reads_with_caps_r. rewrite <- (app_assoc s1).
    eapply reads_trans; [|exact Hr3]. eapply reads_trans; [exact Hr1 | exact Hr2].
  - cbn [with_caps ms_caps] in *. unfold set_cap in *. cbn [pred] in *.
    rewrite length_insert in Hlz. apply list_lookup_insert_eq.
    unfold jstring, char in *. lia.
Qed.

(** An occurrence whose last capture is a bracket ends with two closing
    brackets. *)
Lemma scan_tag_tail (tag rest : jstring) :
  forall prev i m e,
    scan (p_re (tag_pattern tag)) 7 prev rest i = Some (m, e) ->
    m_get m 7 = Some [93%N] ->
    exists g1 s,
      m_text m = 91%N :: g1 ++ tag ++ s ++ [93%N; 93%N] /\ m_get m 1 = Some g1.
Proof.
  cbn [tag_pattern p_re].
  assert (Hhere : forall rest prev i y,
            rmatch (shortcode_regex (mk_seq (map RChar tag)))
              (mkMState rest prev i (replicate 7 None)) Some = Some y ->
            default None (ms_caps y !! 6) = Some [93%N] ->
            exists g1 s,
              take (ms_end y - i) rest = 91%N :: g1 ++ tag ++ s ++ [93%N; 93%N]
              /\ default None (ms_caps y !! 0) = Some g1).
  { intros rest' prev i y Hy H7.
    destruct (rmatch_tag_prefix _ _ _ _ _ Hy) as (g1 & r3 & prev3 & -> & _ & _ & H).
    destruct (fun Hl => rmatch_after_tag_reads _ _ Hl H) as (s & g7 & [Hr He] & Hc7);
      [cbn [ms_caps]; by rewrite !length_insert|].
    cbn [ms_rest ms_end] in Hr, He.
    assert (g7 = [93%N]) as ->.
    { unfold char in *. rewrite Hc7 in H7. cbn in H7. by inversion H7. }
    destruct (rmatch_keeps 0 re_after_tag eq_refl _ _ _ H) as (y0 & Hy0 & Hc0 & _).
    inversion Hy0; subst y0. cbn [ms_caps] in Hc0.
    exists g1, s. split.
    - rewrite Hr, He.
      match goal with
      | |- take ?n ?l = ?r =>
          assert (Htext : l = r ++ ms_rest y)
            by (cbn [app]; by rewrite <- !app_assoc);
          etrans; [exact (f_equal (take n) Htext)|]
      end.
      apply take_app_length'.
      cbn [length]. rewrite ?length_app. cbn [length]. rewrite ?length_app. cbn [length].
      unfold jstring, char in *. lia.
    - assert (Hc : ms_caps y !! 0 = Some (Some g1)).
      { etrans; [exact Hc0|]. rewrite list_lookup_insert_ne by done.
        apply list_lookup_insert_eq. rewrite length_replicate. lia. }
      unfold jstring, char in *. by rewrite Hc. }
  induction rest as [|c rest IH]; intros prev i m e H H7; cbn [scan] in H.
  - destruct (rmatch _ _ Some) as [y|] eqn:Em; [|done].
    inversion H; subst. cbn [m_text m_get m_groups] in *. by eapply Hhere.
  - destruct (rmatch _ _ Some) as [y|] eqn:Em.
    + inversion H; subst. cbn [m_text m_get m_groups] in *. by eapply Hhere.
    + by eapply IH.
Qed.

Lemma exec_tag_tail (tag text : jstring) (i : nat) (m : Match) (e : nat) :
  exec_global (tag_pattern tag) text i = (Some m, e) ->
  m_get m 7 = Some [93%N] ->
  exists g1 s,
    m_text m = 91%N :: g1 ++ tag ++ s ++ [93%N; 93%N] /\ m_get m 1 = Some g1.
Proof.
  unfold exec_global. intros H.
  destruct (length text <? i); [done|].
  destruct (scan _ _ _ _ _) as [[m' e']|] eqn:Es; [|done]. inversion H; subst.
  change (p_groups (tag_pattern tag)) with 7 in Es. by eapply scan_tag_tail.
Qed.

(** ** Escaped occurrences in [replace] (C1) *)

Lemma length_unescape (s : jstring) : length (unescape s) = length s - 2.
Proof. unfold unescape. rewrite length_drop, length_take. lia. Qed.

Lemma unescape_brackets (a : char) (s : jstring) (b : char) :
  unescape (a :: s ++ [b]) = s.
Proof.
  unfold unescape. cbn [length]. rewrite Nat.sub_succ, Nat.sub_0_r, length_app.
  cbn [length]. rewrite Nat.add_1_r. cbn [take]. by rewrite take_app_length.
Qed.

(** C1: for a tag of word characters and hyphens, on every escaped
    occurrence that the pattern of the tag finds, the callback of [replace]
    answers with the matched text as it stands, which starts with both
    opening brackets, ends with both closing brackets, and is not the text
    with one layer removed (the tag and what follows it between single
    brackets); it calls
    no one: neither [replacer] nor [done], the one way a replacement is
    handed on, and the store is left as it was. *)
Theorem escaped_occurrence_never_reaches_done
    (tag text : jstring) (p : Pattern) (i e : nat) (m : Match)
    (replacer : Shortcode.Replacer) (done : Val) (w : World) :
  forallb tag_char tag = true ->
  compile (Shortcode.regexp_source tag) = Compiled p ->
  exec_global p text i = (Some m, e) ->
  escaped m = true ->
  Shortcode.replace_callback replacer (callback_args m text done) w
  = (Ok (Shortcode.mkCallbackRun (VStr (m_text m)) []), w)
  /\ (exists mid,
        m_text m = js "[[" ++ tag ++ mid ++ js "]]"
        /\ unescape (m_text m) = js "[" ++ tag ++ mid ++ js "]")
  /\ m_text m <> unescape (m_text m).
Proof.
  intros Ht Hp He Hesc.
  rewrite (compile_tag tag Ht) in Hp. inversion Hp; subst p.
  pose proof (exec_tag_groups _ _ _ _ _ He) as Hl.
  destruct (exec_tag_shape _ _ _ _ _ He) as (g1 & s & Htext & Hg & Hn & _ & H1 & _).
  assert (Hargs : forall j, j < 7 ->
            arg (match_array m) (S j) = of_capture (m_get m (S j))).
  { intros j Hj. unfold arg, match_array. rewrite lookup_cons, list_lookup_fmap.
    cbn [m_get]. destruct (lookup_lt_is_Some_2 (m_groups m) j) as [g Hg']; [lia|].
    by rewrite Hg'. }
  assert (Hg1 : g1 = [91%N]).
  { destruct Hg as [-> | ->]; [|done]. unfold escaped in Hesc. by rewrite H1 in Hesc. }
  subst g1. split; [|split].
  - unfold Shortcode.replace_callback.
    rewrite !(arg_callback_args_capture m text done) by (done || lia).
    rewrite (Hargs 0), (Hargs 6) by lia. fold (escaped m). rewrite Hesc.
    unfold arg, match_array. reflexivity.
  - assert (H7 : m_get m 7 = Some [93%N]).
    { unfold escaped in Hesc. apply andb_prop in Hesc as [_ Hesc].
      destruct (m_get m 7) as [g|]; [|done].
      cbn [of_capture strict_eq_str] in Hesc. unfold jstring_eqb in Hesc.
      apply bool_decide_eq_true in Hesc. by rewrite Hesc. }
    destruct (exec_tag_tail _ _ _ _ _ He H7) as (g1 & mid & Hmid & Hg1).
    rewrite H1 in Hg1. inversion Hg1; subst g1.
    exists mid. split; [exact Hmid|].
    rewrite Hmid.
    etrans; [|apply (unescape_brackets 91%N (js "[" ++ tag ++ mid ++ js "]") 93%N)].
    f_equal. change (js "[") with [91%N]. change (js "]") with [93%N].
    cbn [app]. by rewrite <- !app_assoc.
  - intros Heq. apply (f_equal length) in Heq. rewrite length_unescape, Htext in Heq.
    cbn [length] in Heq. lia.
Qed.

(** The escaped occurrence [[[x]]] of the text [[[x]]]. *)
Definition escaped_match : Match :=
  mkMatch 0 (js "[[x]]") [Some (js "["); Some (js "x"); Some []; None; None; None;
                          Some (js "]")].

Lemma escaped_occurrence_never_reaches_done_witness :
  Shortcode.replace_callback loud_replacer
    (callback_args escaped_match (js "[[x]]") (VRef 7)) empty_world
  = (Ok (Shortcode.mkCallbackRun (VStr (m_text escaped_match)) []), empty_world)
  /\ (exists mid,
        m_text escaped_match = js "[[" ++ js "x" ++ mid ++ js "]]"
        /\ unescape (m_text escaped_match) = js "[" ++ js "x" ++ mid ++ js "]")
  /\ m_text escaped_match <> unescape (m_text escaped_match).
Proof.
  apply (escaped_occurrence_never_reaches_done (js "x") (js "[[x]]")
           (tag_pattern (js "x")) 0 5 escaped_match loud_replacer (VRef 7) empty_world).
  - reflexivity.
  - vm_compute. reflexivity.
  - vm_compute. reflexivity.
  - vm_compute. reflexivity.
Defined.

(** ** The parser on a written attribute list *)

(** The pieces of the attribute pattern. *)
Definition re_word_plus : Regex := RQuant (RClass false [CWord true]) 1 None true 0 0.
Definition re_space_star : Regex := RQuant (RClass false [CSpace true]) 0 None true 0 0.
Definition re_token_end : Regex :=
  RAlt (RSeq (RClass false [CSpace true]) REmpty) (RSeq REol REmpty).

(** A name, an equals sign, and what [value] matches. *)
Definition re_assignment (n : nat) (value : Regex) : Regex :=
  RSeq (RGroup n (RSeq re_word_plus REmpty))
    (RSeq re_space_star (RSeq (RChar 61) (RSeq re_space_star value))).

Definition re_quoted (q : char) (n : nat) : Regex :=
  RSeq (RChar q)
    (RSeq (RGroup n (RSeq (RQuant (RClass true [CChar q]) 0 None true 0 0) REmpty))
       (RSeq (RChar q) (RSeq re_token_end REmpty))).

Definition re_bare_value : Regex :=
  RSeq (RGroup 6
          (RSeq (RQuant (RClass true [CSpace true; CChar 39; CChar 34]) 1 None true 0 0)
             REmpty))
    (RSeq re_token_end REmpty).

Definition re_bare : Regex :=
  RSeq (RGroup 8 (RSeq (RQuant (RClass false [CSpace false]) 1 None true 0 0) REmpty))
    (RSeq re_token_end REmpty).

Definition attrs_regex : Regex :=
  RAlt (re_assignment 1 (re_quoted 34 2))
    (RAlt (re_assignment 3 (re_quoted 39 4))
       (RAlt (re_assignment 5 re_bare_value)
          (RAlt (re_quoted 34 7) re_bare))).

Lemma attrs_pattern_regex : Shortcode.attrs_pattern = mkPattern attrs_regex 8.
Proof. reflexivity. Qed.

Lemma rmatch_alt_first (a b : Regex) (x : MState) (k : Cont) (z : MState) :
  rmatch a x k = Some z -> rmatch (RAlt a b) x k = Some z.
Proof. intros H. cbn [rmatch]. by rewrite H. Qed.

Lemma rmatch_char_fails (c : char) (x : MState) (k : Cont) :
  head (ms_rest x) <> Some c -> rmatch (RChar c) x k = None.
Proof.
  intros H. cbn [rmatch]. unfold step_char. destruct (ms_rest x) as [|d r]; [done|].
  destruct (N.eqb_spec d c) as [->|]; [by destruct H | done].
Qed.

(** The text left when the leading characters that satisfy [f] are gone. *)
Fixpoint skip (f : char -> bool) (s : jstring) : jstring :=
  match s with
  | c :: s' => if f c then skip f s' else s
  | [] => []
  end.

(** One round of a greedy run of a class. *)
Lemma repeat_class_step neg items (s : jstring) mn prev e caps (k : Cont) fuel :
  repeat_matcher (S fuel) (rmatch (RClass neg items)) mn None true 0 0
    (mkMState s prev e caps) k
  = let d :=
      match s with
      | c :: s' =>
          if class_matches neg items c
          then repeat_matcher fuel (rmatch (RClass neg items)) (pred mn) None true 0 0
                 (mkMState s' (Some c) (S e) caps) k
          else None
      | [] => None
      end in
    if negb (mn =? 0) then d
    else match d with Some z => Some z | None => k (mkMState s prev e caps) end.
Proof.
  cbn [repeat_matcher clear_caps]. unfold with_caps. cbn [ms_rest ms_prev ms_end ms_caps].
  assert (Hd : rmatch (RClass neg items) (mkMState s prev e caps)
                 (fun y => if (mn =? 0) && (ms_end y =? e) then None
                           else repeat_matcher fuel (rmatch (RClass neg items)) (pred mn)
                                  (pred <$> None) true 0 0 y k)
               = match s with
                 | c :: s' =>
                     if class_matches neg items c
                     then repeat_matcher fuel (rmatch (RClass neg items)) (pred mn) None
                            true 0 0 (mkMState s' (Some c) (S e) caps) k
                     else None
                 | [] => None
                 end).
  { cbn [rmatch]. unfold step_char. cbn [ms_rest ms_end ms_caps].
    destruct s as [|c s']; [done|]. destruct (class_matches neg items c); [|done].
    cbn [ms_end]. rewrite (proj2 (Nat.eqb_neq (S e) e)) by lia. by rewrite andb_false_r. }
  cbv zeta. by rewrite Hd.
Qed.

(** A greedy run of a class fails when what follows it fails after the
    longest run and wherever a character of the class comes next. *)
Lemma repeat_class_fails neg items (s : jstring) :
  forall mn prev e caps (k : Cont) fuel,
    (forall y c r, ms_rest y = c :: r -> class_matches neg items c = true -> k y = None) ->
    (forall y, ms_rest y = skip (class_matches neg items) s -> k y = None) ->
    repeat_matcher fuel (rmatch (RClass neg items)) mn None true 0 0
      (mkMState s prev e caps) k = None.
Proof.
  induction s as [|c s IH]; intros mn prev e caps k fuel Hin Hend;
    (destruct fuel as [|fuel]; [done|]); rewrite repeat_class_step; cbv zeta.
  - rewrite (Hend (mkMState [] prev e caps)) by done. by destruct (negb (mn =? 0)).
  - cbn [skip] in Hend. destruct (class_matches neg items c) eqn:Ec.
    + rewrite IH by done. rewrite (Hin (mkMState (c :: s) prev e caps) c s) by done.
      by destruct (negb (mn =? 0)).
    + rewrite (Hend (mkMState (c :: s) prev e caps)) by done.
      by destruct (negb (mn =? 0)).
Qed.

(** A greedy run of a class of at least [mn] characters reads the longest
    prefix it can; when the continuation accepts there, that is the match. *)
Lemma repeat_class_run_min neg items (p : jstring) :
  forall mn r prev e caps (k : Cont) z fuel,
    Forall (fun c => class_matches neg items c = true) p ->
    (forall c r', r = c :: r' -> class_matches neg items c = false) ->
    mn <= length p ->
    length p < fuel ->
    k (mkMState r (last_char p prev) (e + length p) caps) = Some z ->
    repeat_matcher fuel (rmatch (RClass neg items)) mn None true 0 0
      (mkMState (p ++ r) prev e caps) k = Some z.
Proof.
  induction p as [|c p IH]; intros mn r prev e caps k z fuel Hp Hr Hmn Hf Hk;
    (destruct fuel as [|fuel]; [lia|]); rewrite repeat_class_step; cbv zeta.
  - cbn [length] in Hmn. assert (mn = 0) as -> by lia.
    cbn [last_char last length app Nat.eqb negb] in *. rewrite Nat.add_0_r in Hk.
    destruct r as [|c r']; [done|]. by rewrite (Hr c r' eq_refl).
  - cbn [app]. inversion Hp as [|? ? Hc Hp']; subst. rewrite Hc.
    erewrite IH; [by destruct (negb (mn =? 0)) |done|done| cbn [length] in Hmn; lia
                 | cbn [length] in Hf; lia |].
    rewrite last_char_cons in Hk. cbn [length] in Hk.
    by replace (S e + length p) with (e + S (length p)) by lia.
Qed.

(** A capture group around a run of a class. *)
Lemma rmatch_group_run (n : nat) neg items mn (p r : jstring) prev e caps (k : Cont) z :
  Forall (fun c => class_matches neg items c = true) p ->
  (forall c r', r = c :: r' -> class_matches neg items c = false) ->
  mn <= length p ->
  k (mkMState r (last_char p prev) (e + length p) (set_cap n (Some p) caps)) = Some z ->
  rmatch (RGroup n (RSeq (RQuant (RClass neg items) mn None true 0 0) REmpty))
    (mkMState (p ++ r) prev e caps) k = Some z.
Proof.
  intros Hp Hr Hmn Hk. rewrite rmatch_group, rmatch_seq, rmatch_quant.
  apply repeat_class_run_min; try done.
  - cbn [ms_rest]. rewrite length_app. lia.
  - rewrite rmatch_empty. unfold with_caps. cbn [ms_rest ms_prev ms_end ms_caps].
    replace (e + length p - e) with (length p) by lia. by rewrite take_app_length.
Qed.

Lemma rmatch_token_end_space (r : jstring) prev e caps (k : Cont) :
  rmatch re_token_end (mkMState (32%N :: r) prev e caps) k
  = k (mkMState r (Some 32%N) (S e) caps).
Proof.
  unfold re_token_end. cbn [rmatch]. unfold step_char. cbn [ms_rest ms_end ms_caps].
  change (class_matches false [CSpace true] 32) with true. cbv iota.
  by destruct (k _).
Qed.

Lemma rmatch_token_end_eol prev e caps (k : Cont) :
  rmatch re_token_end (mkMState [] prev e caps) k = k (mkMState [] prev e caps).
Proof. reflexivity. Qed.

Lemma class_word (c : char) : class_matches false [CWord true] c = is_word c.
Proof. unfold class_matches. cbn [existsb item_matches xorb]. by rewrite orb_false_r. Qed.

Lemma class_space (c : char) : class_matches false [CSpace true] c = is_space c.
Proof. unfold class_matches. cbn [existsb item_matches xorb]. by rewrite orb_false_r. Qed.

Lemma class_not_space (c : char) : class_matches false [CSpace false] c = negb (is_space c).
Proof. unfold class_matches. cbn [existsb item_matches xorb]. by rewrite orb_false_r. Qed.

Lemma class_not_char (q c : char) : class_matches true [CChar q] c = negb (c =? q)%N.
Proof. unfold class_matches. cbn [existsb item_matches xorb]. by rewrite orb_false_r. Qed.

Lemma skip_ext (f g : char -> bool) (s : jstring) :
  (forall c, f c = g c) -> skip f s = skip g s.
Proof. intros H. induction s as [|c s IH]; [done|]. cbn [skip]. by rewrite H, IH. Qed.

Lemma word_not_equals (c : char) : is_word c = true -> c <> 61%N.
Proof. by intros H ->. Qed.

Lemma space_not_equals (c : char) : is_space c = true -> c <> 61%N.
Proof. by intros H ->. Qed.

Lemma word_not_space (c : char) : is_word c = true -> is_space c = false.
Proof.
  intros Hw. apply not_true_iff_false. intros Hs.
  unfold is_word, is_space, is_lower, is_upper, is_digit, char_in in *.
  rewrite ?orb_true_iff, ?andb_true_iff, ?N.leb_le, ?N.eqb_eq in *. lia.
Qed.

(** A name and an equals sign are not there: after the word characters
    and the spaces that follow them, the text does not go on with an equals
    sign. *)
Lemma rmatch_assignment_fails (n : nat) (value : Regex) (s : jstring) prev e caps (k : Cont) :
  head (skip is_space (skip is_word s)) <> Some 61%N ->
  rmatch (re_assignment n value) (mkMState s prev e caps) k = None.
Proof.
  intros Hs. unfold re_assignment.
  assert (Hspace : forall (r : jstring) (y : MState),
            ms_rest y = r ->
            head (skip is_space r) <> Some 61%N ->
            rmatch (RSeq re_space_star (RSeq (RChar 61) (RSeq re_space_star value))) y k
            = None).
  { intros r [r0 prev0 e0 caps0] Hr Hhead. cbn [ms_rest] in Hr. subst r0.
    rewrite rmatch_seq. unfold re_space_star at 1. rewrite rmatch_quant.
    apply repeat_class_fails.
    - intros y c r' Hy Hc. rewrite rmatch_seq. apply rmatch_char_fails. rewrite Hy.
      cbn [head]. rewrite class_space in Hc. intros [= ->]. done.
    - intros y Hy. rewrite rmatch_seq. apply rmatch_char_fails. rewrite Hy.
      by rewrite (skip_ext _ is_space) by apply class_space. }
  rewrite rmatch_seq, rmatch_group, rmatch_seq. unfold re_word_plus. rewrite rmatch_quant.
  apply repeat_class_fails.
  - intros y c r Hy Hc. rewrite rmatch_empty. rewrite class_word in Hc.
    apply (Hspace (c :: r)); [done|]. cbn [skip].
    rewrite (word_not_space c Hc). cbn [head]. intros [= ->]. done.
  - intros y Hy. rewrite rmatch_empty.
    apply (Hspace (skip is_word s)); [|done].
    unfold with_caps. cbn [ms_rest]. rewrite Hy. apply skip_ext, class_word.
Qed.

(** The tokens [string] writes for the attributes: a name with its quoted
    value, a quoted value, a bare value. *)
Inductive Tok :=
  | TNamed (k v : jstring)
  | TQuoted (v : jstring)
  | TBare (v : jstring).

Definition written (t : Tok) : jstring :=
  match t with
  | TNamed k v => k ++ 61%N :: 34%N :: v ++ [34%N]
  | TQuoted v => 34%N :: v ++ [34%N]
  | TBare v => v
  end.

Definition no_quote (v : jstring) : bool := forallb (fun c => negb (c =? 34)%N) v.

(** The tokens the parser reads back as they were written. *)
Definition tok_ok (t : Tok) : Prop :=
  match t with
  | TNamed k v => k <> [] /\ forallb is_word k = true /\ no_quote v = true
  | TQuoted v => v <> [] /\ no_quote v = true
  | TBare v =>
      v <> [] /\ existsb is_space v = false
      /\ head v <> Some 34%N /\ head (skip is_word v) <> Some 61%N
  end.

(** The captures of the match of a token. *)
Definition caps_of (t : Tok) : list (option jstring) :=
  match t with
  | TNamed k v => [Some k; Some v; None; None; None; None; None; None]
  | TQuoted v => [None; None; None; None; None; None; Some v; None]
  | TBare v => [None; None; None; None; None; None; None; Some v]
  end.

(** What may follow a token: nothing, or a space and a character that is
    neither a space nor an equals sign. *)
Definition follows (rest : jstring) : Prop :=
  rest = [] \/ exists c r, rest = 32%N :: c :: r /\ is_space c = false /\ c <> 61%N.

Lemma rmatch_token_end_follows (rest : jstring) prev e caps (k : Cont) :
  follows rest ->
  rmatch re_token_end (mkMState rest prev e caps) k
  = k (mkMState (drop 1 rest) (if rest is [] then prev else Some 32%N)
         (e + Nat.min 1 (length rest)) caps).
Proof.
  intros [-> | (c & r & -> & _)].
  - rewrite rmatch_token_end_eol. cbn. by rewrite Nat.add_0_r.
  - rewrite rmatch_token_end_space. cbn [drop length Nat.min].
    by replace (e + 1) with (S e) by lia.
Qed.

Lemma forallb_Forall (f g : char -> bool) (s : jstring) :
  forallb f s = true -> (forall c, f c = true -> g c = true) ->
  Forall (fun c => g c = true) s.
Proof.
  intros H Hfg. induction s as [|c s IH]; [constructor|].
  cbn [forallb] in H. apply andb_true_iff in H as [Hc Hs].
  constructor; [by apply Hfg | by apply IH].
Qed.

Lemma existsb_Forall (f g : char -> bool) (s : jstring) :
  existsb f s = false -> (forall c, f c = false -> g c = true) ->
  Forall (fun c => g c = true) s.
Proof.
  intros H Hfg. induction s as [|c s IH]; [constructor|].
  cbn [existsb] in H. apply orb_false_iff in H as [Hc Hs].
  constructor; [by apply Hfg | by apply IH].
Qed.

(** The attribute pattern on a name with its quoted value. *)
Lemma rmatch_named (k v rest : jstring) prev e :
  tok_ok (TNamed k v) ->
  follows rest ->
  exists prev',
    rmatch attrs_regex
      (mkMState (k ++ 61%N :: 34%N :: v ++ 34%N :: rest) prev e (replicate 8 None)) Some
    = Some (mkMState (drop 1 rest) prev'
              (e + length (written (TNamed k v)) + Nat.min 1 (length rest))
              (caps_of (TNamed k v))).
Proof.
  intros (Hne & Hk & Hv) Hf.
  eexists. unfold attrs_regex. apply rmatch_alt_first.
  unfold re_assignment. rewrite rmatch_seq.
  apply rmatch_group_run.
  { eapply forallb_Forall; [exact Hk|]. intros c Hc. by rewrite class_word. }
  { by intros c r' [= <- <-]. }
  { destruct k; [done | cbn; lia]. }
  rewrite rmatch_seq. unfold re_space_star at 1.
  eapply (rmatch_class_run false [CSpace true] []);
    [constructor | by intros c r' [= <- <-] |].
  rewrite rmatch_seq, rmatch_char, rmatch_seq. unfold re_space_star.
  eapply (rmatch_class_run false [CSpace true] []);
    [constructor | by intros c r' [= <- <-] |].
  unfold re_quoted. rewrite rmatch_seq, rmatch_char, rmatch_seq.
  apply rmatch_group_run.
  { eapply forallb_Forall; [exact Hv|]. intros c Hc. by rewrite class_not_char. }
  { by intros c r' [= <- <-]. }
  { lia. }
  rewrite rmatch_seq, rmatch_char, rmatch_seq.
  cbn [last_char last length Nat.add]. rewrite !Nat.add_0_r.
  unfold set_cap. cbn [pred replicate]. cbn [insert list_insert].
  rewrite (rmatch_token_end_follows rest _ _ _ _ Hf). rewrite !rmatch_empty.
  f_equal. f_equal.
  unfold written. rewrite !length_app. cbn [length]. rewrite length_app. cbn [length].
  unfold char in *. lia.
Qed.

(** The attribute pattern on a quoted value. *)
Lemma rmatch_quoted (v rest : jstring) prev e :
  tok_ok (TQuoted v) ->
  follows rest ->
  exists prev',
    rmatch attrs_regex
      (mkMState (34%N :: v ++ 34%N :: rest) prev e (replicate 8 None)) Some
    = Some (mkMState (drop 1 rest) prev'
              (e + length (written (TQuoted v)) + Nat.min 1 (length rest))
              (caps_of (TQuoted v))).
Proof.
  intros [_ Hv] Hf.
  eexists. unfold attrs_regex.
  rewrite rmatch_alt_second by (by apply rmatch_assignment_fails).
  rewrite rmatch_alt_second by (by apply rmatch_assignment_fails).
  rewrite rmatch_alt_second by (by apply rmatch_assignment_fails).
  apply rmatch_alt_first.
  unfold re_quoted. rewrite rmatch_seq, rmatch_char, rmatch_seq.
  apply rmatch_group_run.
  { eapply forallb_Forall; [exact Hv|]. intros c Hc. by rewrite class_not_char. }
  { by intros c r' [= <- <-]. }
  { lia. }
  rewrite rmatch_seq, rmatch_char, rmatch_seq.
  unfold set_cap. cbn [pred replicate]. cbn [insert list_insert].
  rewrite (rmatch_token_end_follows rest _ _ _ _ Hf). rewrite !rmatch_empty.
  f_equal. f_equal.
  unfold written. cbn [length]. rewrite length_app. cbn [length].
  unfold char in *. lia.
Qed.

Lemma skip_app_stop (f : char -> bool) (a b : jstring) :
  skip f a <> [] -> skip f (a ++ b) = skip f a ++ b.
Proof.
  induction a as [|c a IH]; [done|]. cbn [skip app].
  destruct (f c); [exact IH | done].
Qed.

Lemma skip_app_all (f : char -> bool) (a b : jstring) :
  skip f a = [] -> skip f (a ++ b) = skip f b.
Proof.
  induction a as [|c a IH]; [done|]. cbn [skip app].
  destruct (f c); [exact IH | done].
Qed.

Lemma skip_suffix (f : char -> bool) (a : jstring) (c : char) (r : jstring) :
  skip f a = c :: r -> In c a.
Proof.
  induction a as [|d a IH]; [done|]. cbn [skip].
  destruct (f d); [right; by apply IH | intros [= <- _]; by left].
Qed.

(** After a bare value the text does not go on as an assignment does. *)
Lemma bare_no_assignment (v rest : jstring) :
  tok_ok (TBare v) ->
  follows rest ->
  head (skip is_space (skip is_word (v ++ rest))) <> Some 61%N.
Proof.
  intros (Hne & Hsp & _ & Heq) Hf.
  destruct (skip is_word v) as [|c r] eqn:Es.
  - rewrite skip_app_all by done.
    destruct Hf as [-> | (c & r & -> & Hc & Hc')]; [done|].
    cbn [skip]. change (is_word 32) with false. cbv iota. cbn [skip].
    change (is_space 32) with true. cbv iota. rewrite Hc. cbn [head]. congruence.
  - rewrite skip_app_stop by (by rewrite Es). rewrite Es. cbn [app skip].
    assert (Hc : is_space c = false).
    { apply skip_suffix in Es. destruct (is_space c) eqn:E; [|done].
      assert (existsb is_space v = true); [|congruence].
      apply existsb_exists. eauto. }
    rewrite Hc. cbn [head]. cbn [head] in Heq. exact Heq.
Qed.

(** The attribute pattern on a bare value. *)
Lemma rmatch_bare (v rest : jstring) prev e :
  tok_ok (TBare v) ->
  follows rest ->
  exists prev',
    rmatch attrs_regex (mkMState (v ++ rest) prev e (replicate 8 None)) Some
    = Some (mkMState (drop 1 rest) prev'
              (e + length (written (TBare v)) + Nat.min 1 (length rest))
              (caps_of (TBare v))).
Proof.
  intros Hok Hf. pose proof (bare_no_assignment v rest Hok Hf) as Hna.
  destruct Hok as (Hne & Hsp & Hq & Heq).
  eexists. unfold attrs_regex.
  rewrite rmatch_alt_second by (by apply rmatch_assignment_fails).
  rewrite rmatch_alt_second by (by apply rmatch_assignment_fails).
  rewrite rmatch_alt_second by (by apply rmatch_assignment_fails).
  rewrite rmatch_alt_second.
  2:{ unfold re_quoted. rewrite rmatch_seq. apply rmatch_char_fails.
      cbn [ms_rest]. by destruct v. }
  unfold re_bare. rewrite rmatch_seq.
  apply rmatch_group_run.
  { eapply existsb_Forall; [exact Hsp|]. intros c Hc. by rewrite class_not_space, Hc. }
  { intros c r' ->. rewrite class_not_space.
    destruct Hf as [? | (c' & r & [= -> ->] & _)]; done. }
  { destruct v; [done | cbn; lia]. }
  rewrite rmatch_seq.
  unfold set_cap. cbn [pred replicate]. cbn [insert list_insert].
  rewrite (rmatch_token_end_follows rest _ _ _ _ Hf). rewrite !rmatch_empty.
  f_equal.
Qed.

Lemma scan_here (re : Regex) (n : nat) prev (rest : jstring) (i : nat) (y : MState) :
  rmatch re (mkMState rest prev i (replicate n None)) Some = Some y ->
  scan re n prev rest i = Some (mkMatch i (take (ms_end y - i) rest) (ms_caps y), ms_end y).
Proof. intros H. destruct rest; cbn [scan]; by rewrite H. Qed.

(** The tokens, each after a space: the attribute list as [string] writes
    it. *)
Fixpoint sep_text (ts : list Tok) : jstring :=
  match ts with
  | [] => []
  | t :: ts' => 32%N :: written t ++ sep_text ts'
  end.

(** What the parser files for a token. *)
Definition file_tok (t : Tok) (acc : list (jstring * Val) * list Val)
  : list (jstring * Val) * list Val :=
  match t with
  | TNamed k v => (prop_set (fst acc) (toLowerCase k) (VStr v), snd acc)
  | TQuoted v | TBare v => (fst acc, snd acc ++ [VStr v])
  end.

Definition file_all (ts : list Tok) (acc : list (jstring * Val) * list Val)
  : list (jstring * Val) * list Val :=
  fold_left (fun acc t => file_tok t acc) ts acc.

Lemma token_head (t : Tok) :
  tok_ok t -> exists c r, written t = c :: r /\ is_space c = false /\ c <> 61%N.
Proof.
  destruct t as [k v | v | v]; cbn [tok_ok written].
  - intros (Hne & Hk & _). destruct k as [|c k]; [done|].
    cbn [forallb] in Hk. apply andb_true_iff in Hk as [Hc _].
    exists c, (k ++ 61%N :: 34%N :: v ++ [34%N]). split; [done|].
    split; [by apply word_not_space | by apply word_not_equals].
  - intros _. by exists 34%N, (v ++ [34%N]).
  - intros (Hne & Hsp & _ & Heq). destruct v as [|c v]; [done|].
    cbn [existsb] in Hsp. apply orb_false_iff in Hsp as [Hc _].
    exists c, v. split; [done|]. split; [done|]. intros ->. by cbn in Heq.
Qed.

Lemma follows_sep_text (ts : list Tok) : Forall tok_ok ts -> follows (sep_text ts).
Proof.
  intros H. destruct ts as [|t ts]; [by left|]. right.
  inversion H as [|? ? Ht _]; subst.
  destruct (token_head t Ht) as (c & r & Hw & Hc & Hc').
  exists c, (r ++ sep_text ts). cbn [sep_text]. by rewrite Hw.
Qed.

(** The attribute pattern on a token and what follows it: the token is
    read, with the space after it if there is one. *)
Lemma rmatch_tok (t : Tok) (rest : jstring) prev e :
  tok_ok t ->
  follows rest ->
  exists prev',
    rmatch attrs_regex (mkMState (written t ++ rest) prev e (replicate 8 None)) Some
    = Some (mkMState (drop 1 rest) prev'
              (e + length (written t) + Nat.min 1 (length rest)) (caps_of t)).
Proof.
  intros Hok Hf. destruct t as [k v | v | v]; cbn [written].
  - rewrite <- app_assoc. cbn [app]. rewrite <- app_assoc. cbn [app].
    by apply rmatch_named.
  - cbn [app]. rewrite <- app_assoc. cbn [app]. by apply rmatch_quoted.
  - by apply rmatch_bare.
Qed.

(** The attribute pattern finds nothing at a space before a token, nor at
    the end of the text. *)
Lemma rmatch_attrs_at_space (c : char) (r : jstring) prev e caps :
  is_space c = false -> c <> 61%N ->
  rmatch attrs_regex (mkMState (32%N :: c :: r) prev e caps) Some = None.
Proof.
  intros Hc Hc'.
  assert (Hna : head (skip is_space (skip is_word (32%N :: c :: r))) <> Some 61%N).
  { cbn [skip]. change (is_word 32) with false. cbv iota. cbn [skip].
    change (is_space 32) with true. cbv iota. rewrite Hc. cbn [head]. congruence. }
  unfold attrs_regex.
  rewrite rmatch_alt_second by (by apply rmatch_assignment_fails).
  rewrite rmatch_alt_second by (by apply rmatch_assignment_fails).
  rewrite rmatch_alt_second by (by apply rmatch_assignment_fails).
  rewrite rmatch_alt_second
    by (unfold re_quoted; rewrite rmatch_seq; by apply rmatch_char_fails).
  unfold re_bare. rewrite rmatch_seq, rmatch_group, rmatch_seq, rmatch_quant.
  by rewrite repeat_class_step.
Qed.

Lemma rmatch_attrs_at_end prev e caps :
  rmatch attrs_regex (mkMState [] prev e caps) Some = None.
Proof. reflexivity. Qed.

(** The loop of the parser over the tokens that are left: [seen] has been
    read, the next token starts at [lastIndex]. *)
Lemma attrs_loop_tokens (ts : list Tok) :
  forall seen acc fuel,
    Forall tok_ok ts ->
    length ts < fuel ->
    Shortcode.attrs_loop fuel (seen ++ drop 1 (sep_text ts)) (length seen)
      (fst acc) (snd acc)
    = Some (file_all ts acc).
Proof.
  induction ts as [|t ts IH]; intros seen acc fuel Hok Hf;
    (destruct fuel as [|fuel]; [lia|]); cbn [Shortcode.attrs_loop]; unfold exec_global;
    change (p_re Shortcode.attrs_pattern) with attrs_regex;
    change (p_groups Shortcode.attrs_pattern) with 8.
  - cbn [sep_text drop]. rewrite app_nil_r, (proj2 (Nat.ltb_ge _ _)) by lia.
    rewrite drop_all. cbn [scan]. rewrite rmatch_attrs_at_end. by destruct acc.
  - inversion Hok as [|? ? Ht Hts]; subst.
    cbn [sep_text drop]. rewrite drop_0.
    rewrite (proj2 (Nat.ltb_ge _ _)) by (rewrite length_app; lia).
    rewrite take_app_length, drop_app_length.
    destruct (rmatch_tok t (sep_text ts) (last_char seen None) (length seen) Ht
                (follows_sep_text ts Hts)) as [prev' Hm].
    rewrite (scan_here _ _ _ _ _ _ Hm). cbn [ms_end ms_caps].
    assert (Hnext :
      forall acc',
        Shortcode.attrs_loop fuel (seen ++ written t ++ sep_text ts)
          (length seen + length (written t) + Nat.min 1 (length (sep_text ts)))
          (fst acc') (snd acc')
        = Some (file_all ts acc')).
    { intros acc'.
      rewrite <- (IH (seen ++ written t ++ take 1 (sep_text ts)) acc' fuel) by
        (done || cbn [length] in Hf; lia).
      rewrite !length_app, length_take. rewrite <- !app_assoc, take_drop.
      by rewrite Nat.add_assoc. }
    destruct t as [k v | v | v]; cbn [caps_of m_get m_groups lookup list_lookup default
                                       from_option id Shortcode.nonempty];
      cbn [tok_ok] in Ht.
    + destruct Ht as (Hne & _). destruct k as [|c k]; [done|].
      cbn [Shortcode.nonempty of_capture].
      apply (Hnext (prop_set (fst acc) (toLowerCase (c :: k)) (VStr v), snd acc)).
    + destruct Ht as (Hne & _). destruct v as [|c v]; [done|].
      cbn [Shortcode.nonempty of_capture].
      apply (Hnext (fst acc, snd acc ++ [VStr (c :: v)])).
    + destruct Ht as (Hne & _). destruct v as [|c v]; [done|].
      cbn [Shortcode.nonempty of_capture].
      apply (Hnext (fst acc, snd acc ++ [VStr (c :: v)])).
Qed.

(** The first round of the loop walks past the leading space. *)
Lemma exec_attrs_leading_space (c : char) (r : jstring) :
  is_space c = false -> c <> 61%N ->
  exec_global Shortcode.attrs_pattern (32%N :: c :: r) 0
  = exec_global Shortcode.attrs_pattern (32%N :: c :: r) 1.
Proof.
  intros Hc Hc'. unfold exec_global.
  change (p_re Shortcode.attrs_pattern) with attrs_regex.
  change (p_groups Shortcode.attrs_pattern) with 8.
  cbn [length Nat.ltb Nat.leb take drop last_char last scan].
  by rewrite rmatch_attrs_at_space.
Qed.

(** The parser reads a written attribute list back token by token. *)
Lemma attrs_loop_written (ts : list Tok) :
  Forall tok_ok ts ->
  Shortcode.attrs_loop (S (length (sep_text ts))) (sep_text ts) 0 [] []
  = Some (file_all ts ([], [])).
Proof.
  intros Hok.
  assert (Hlen : forall ts', length ts' <= length (sep_text ts')).
  { induction ts' as [|t' ts' IH]; [done|]. cbn [sep_text length].
    rewrite length_app. lia. }
  destruct ts as [|t ts].
  - apply (attrs_loop_tokens [] [] ([], []) 1); [done | cbn; lia].
  - pose proof (follows_sep_text (t :: ts) Hok) as [Hnil | (c & r & Hs & Hc & Hc')];
      [done|].
    rewrite <- (attrs_loop_tokens (t :: ts) [32%N] ([], []) (S (length (sep_text (t :: ts)))))
      by (done || specialize (Hlen (t :: ts)); lia).
    rewrite Hs. cbn [drop app length Shortcode.attrs_loop fst snd].
    by rewrite exec_attrs_leading_space.
Qed.

(** ** Closed shortcodes with attributes (C6) *)

Definition no_bracket (s : jstring) : bool := forallb (fun c => negb (c =? 93)%N) s.

(** The text of a closed shortcode: the opening tag with the attribute
    list [a], the content, the closing tag. *)
Definition closed_text_with (tag a content : jstring) : jstring :=
  91%N :: tag ++ a ++ 93%N :: content ++ closing_text tag.

(** The attribute list is empty or starts with a character that does not
    go on the tag. *)
Definition ends_tag (a : jstring) : Prop :=
  a = [] \/ exists c a', a = c :: a' /\ tag_char c = false.

Lemma class_attr_char (c : char) :
  class_matches true [CChar 93; CChar 47] c = negb (c =? 93)%N && negb (c =? 47)%N.
Proof.
  unfold class_matches. cbn [existsb item_matches xorb].
  rewrite orb_false_r. by destruct (c =? 93)%N, (c =? 47)%N.
Qed.

Lemma class_tag_char (c : char) :
  class_matches false [CWord true; CChar 45] c = tag_char c.
Proof.
  unfold class_matches, tag_char. cbn [existsb item_matches xorb]. by rewrite orb_false_r.
Qed.

(** A slash of the attribute list with what may follow it. *)
Definition re_slash_run : Regex :=
  RSeq (RChar 47) (RSeq (RLook false (RSeq (RChar 93) REmpty)) (RSeq re_attr_run REmpty)).

(** A text without closing bracket splits into its longest prefix free of
    slashes and a rest that is empty or starts with one. *)
Lemma split_attr_run (a : jstring) :
  no_bracket a = true ->
  exists p a',
    a = p ++ a'
    /\ Forall (fun c => class_matches true [CChar 93; CChar 47] c = true) p
    /\ (a' = [] \/ exists a'', a' = 47%N :: a'').
Proof.
  induction a as [|c a IH]; intros H.
  - exists [], []. repeat split; [constructor | by left].
  - cbn [no_bracket forallb] in H. apply andb_true_iff in H as [Hc Ha].
    destruct (IH Ha) as (p & a' & -> & Hp & Ha').
    destruct (N.eqb_spec c 47) as [->|Hne].
    + exists [], (47%N :: p ++ a'). repeat split; [constructor | right; eauto].
    + exists (c :: p), a'. repeat split; [|done].
      constructor; [|done]. rewrite class_attr_char, Hc.
      apply N.eqb_neq in Hne. by rewrite Hne.
Qed.

Lemma attr_run_stops (a' rest : jstring) :
  (a' = [] \/ exists a'', a' = 47%N :: a'') ->
  forall d r', a' ++ 93%N :: rest = d :: r' ->
               class_matches true [CChar 93; CChar 47] d = false.
Proof.
  intros [->|[a'' ->]] d r' H; cbn [app] in H; by inversion H; subst.
Qed.

Lemma no_bracket_app (a b : jstring) :
  no_bracket (a ++ b) = no_bracket a && no_bracket b.
Proof. apply forallb_app. Qed.

(** The slashes of the attribute list, each with the run after it, are
    read one by one up to the closing bracket: before each of them what
    follows the list is tried, and fails. *)
Lemma repeat_slashes (n : nat) :
  forall a prev e caps (K : Cont) z rest fuel,
    length a <= n ->
    (a = [] \/ exists a', a = 47%N :: a') ->
    no_bracket a = true ->
    last a <> Some 47%N ->
    length a < fuel ->
    (forall y c r, ms_rest y = 47%N :: c :: r -> c <> 93%N -> K y = None) ->
    K (mkMState (93%N :: rest) (last_char a prev) (e + length a) caps) = Some z ->
    repeat_matcher fuel (rmatch re_slash_run) 0 None false 0 0
      (mkMState (a ++ 93%N :: rest) prev e caps) K = Some z.
Proof.
  induction n as [|n IH]; intros a prev e caps K z rest fuel Hn Ha Hnb Hlast Hf Hfail HK;
    (destruct fuel as [|fuel]; [lia|]).
  - destruct a; [|cbn in Hn; lia].
    cbn [app last_char last length] in *. rewrite Nat.add_0_r in HK.
    cbn [repeat_matcher Nat.eqb negb]. by rewrite HK.
  - destruct Ha as [->|[a' ->]].
    { cbn [app last_char last length] in *. rewrite Nat.add_0_r in HK.
      cbn [repeat_matcher Nat.eqb negb]. by rewrite HK. }
    cbn [no_bracket forallb] in Hnb. apply andb_true_iff in Hnb as [_ Hnb].
    fold (no_bracket a') in Hnb.
    destruct a' as [|c a']; [done|].
    assert (Hc : c <> 93%N).
    { cbn [no_bracket forallb] in Hnb. apply andb_true_iff in Hnb as [Hc _].
      intros ->. done. }
    destruct (split_attr_run (c :: a') Hnb) as (p & a'' & Hsplit & Hp & Ha'').
    cbn [repeat_matcher Nat.eqb negb clear_caps]. unfold with_caps.
    cbn [ms_rest ms_prev ms_end ms_caps app].
    rewrite (Hfail _ c (a' ++ 93%N :: rest)) by done.
    unfold re_slash_run at 1. rewrite rmatch_seq, rmatch_char, rmatch_seq.
    rewrite rmatch_look_not
      by (rewrite rmatch_seq; apply rmatch_char_fails; cbn [ms_rest head]; congruence).
    rewrite rmatch_seq. unfold re_attr_run. rewrite app_comm_cons, Hsplit, <- app_assoc.
    erewrite rmatch_class_run; [done | done | by apply attr_run_stops |].
    cbn [rmatch ms_end andb Nat.eqb].
    replace (S e + length p =? e) with false by (symmetry; apply Nat.eqb_neq; lia).
    cbn [pred fmap option_fmap option_map].
    assert (Hlen : length (c :: a') = length p + length a'').
    { by rewrite Hsplit, length_app. }
    cbn [length] in Hn, Hf, Hlen.
    rewrite Hsplit, no_bracket_app in Hnb. apply andb_true_iff in Hnb as [_ Hnb''].
    apply (IH a''); [unfold char in *; lia | done | done | | unfold char in *; lia
                    | done |].
    + destruct Ha'' as [->|[a3 ->]]; [done|].
      rewrite last_cons_cons, Hsplit, last_app in Hlast.
      by destruct (last (47%N :: a3)).
    + rewrite <- HK. f_equal. f_equal.
      * rewrite (last_char_cons 47), Hsplit. by rewrite last_char_app.
      * cbn [length]. unfold char in *. lia.
Qed.

(** The attribute list is read whole. *)
Lemma rmatch_attr_list (a rest : jstring) prev e caps (K : Cont) z :
  no_bracket a = true ->
  last a <> Some 47%N ->
  (forall y c r, ms_rest y = 47%N :: c :: r -> c <> 93%N -> K y = None) ->
  K (mkMState (93%N :: rest) (last_char a prev) (e + length a) caps) = Some z ->
  rmatch (RSeq re_attr_run (RSeq (RQuant re_slash_run 0 None false 0 0) REmpty))
    (mkMState (a ++ 93%N :: rest) prev e caps) K = Some z.
Proof.
  intros Hnb Hlast Hfail HK.
  destruct (split_attr_run a Hnb) as (p & a' & -> & Hp & Ha').
  rewrite rmatch_seq. unfold re_attr_run at 1. rewrite <- app_assoc.
  erewrite rmatch_class_run; [done | done | by apply attr_run_stops |].
  rewrite rmatch_seq, rmatch_quant. cbn [ms_rest Nat.add].
  rewrite no_bracket_app in Hnb. apply andb_true_iff in Hnb as [_ Hnb'].
  apply (repeat_slashes (length a')); [done | done | done | | | |].
  - destruct Ha' as [->|[a3 ->]]; [done|].
    rewrite last_app in Hlast. unfold char in *. by destruct (last (47%N :: a3)).
  - rewrite length_app. cbn [length]. unfold char in *. lia.
  - intros y c r Hy Hc. rewrite rmatch_empty. by eapply Hfail.
  - rewrite rmatch_empty, <- HK. f_equal. f_equal.
    + by rewrite last_char_app.
    + rewrite length_app. unfold char in *. lia.
Qed.

(** At a slash that no closing bracket follows, the opening tag does not
    end. *)
Lemma rmatch_end_fails_at_slash (c : char) (r : jstring) prev e caps (k : Cont) :
  c <> 93%N ->
  rmatch re_end (mkMState (47%N :: c :: r) prev e caps) k = None.
Proof.
  intros Hc. unfold re_end.
  rewrite rmatch_alt_second.
  - rewrite rmatch_seq. by apply rmatch_char_fails.
  - rewrite rmatch_seq, rmatch_group, rmatch_seq, rmatch_char, rmatch_empty.
    unfold with_caps. cbn [ms_rest ms_prev ms_end ms_caps].
    rewrite rmatch_seq. apply rmatch_char_fails. cbn [ms_rest head]. congruence.
Qed.

(** The pattern of the tag matches such a text whole, at once, with the
    tag, the attribute list, the content and the closing tag in captures
    2, 3, 5 and 6. *)
Lemma rmatch_closed_with (tag a content : jstring) :
  tag <> [] ->
  forallb tag_char tag = true ->
  no_bracket a = true ->
  last a <> Some 47%N ->
  ends_tag a ->
  no_closing tag content ->
  exists prev,
    rmatch (shortcode_regex (mk_seq (map RChar tag)))
      (mkMState (closed_text_with tag a content) None 0 (replicate 7 None)) Some
    = Some (mkMState [] prev (length (closed_text_with tag a content))
              [Some []; Some tag; Some a; None; Some content;
               Some (closing_text tag); Some []]).
Proof.
  intros Hne Ht Ha Hlast Hends Hno. eexists.
  unfold shortcode_regex, closed_text_with.
  rewrite rmatch_seq, rmatch_char.
  rewrite rmatch_seq, rmatch_group, rmatch_seq.
  rewrite rmatch_optional_absent.
  2:{ intros d r Hr. cbn [ms_rest] in Hr. destruct tag as [|t0 tag']; [done|].
      cbn [app] in Hr. inversion Hr; subst. intros ->. by vm_compute in Ht. }
  rewrite rmatch_empty. step.
  rewrite rmatch_seq, rmatch_group, rmatch_chars. step.
  rewrite rmatch_seq, rmatch_look_not.
  2:{ cbn [rmatch]. unfold step_char. cbn [ms_rest].
      destruct Hends as [-> | (c & a' & -> & Hc)]; [reflexivity|].
      cbn [app]. by rewrite class_tag_char, Hc. }
  step.
  unfold re_attrs. rewrite rmatch_seq, rmatch_group.
  apply rmatch_attr_list; [done | done | |].
  { intros y c r Hy Hc. step. rewrite rmatch_seq.
    destruct y as [ry py ey cy]. cbn [ms_rest] in Hy. subst ry.
    cbn [ms_rest ms_prev ms_end ms_caps]. by apply rmatch_end_fails_at_slash. }
  step.
  rewrite rmatch_seq. unfold re_end. rewrite rmatch_alt_second by reflexivity.
  rewrite rmatch_seq, rmatch_char, rmatch_seq.
  apply rmatch_optional_taken; [cbn [ms_rest]; by destruct content|]. step.
  rewrite rmatch_seq. unfold re_content. rewrite rmatch_group.
  apply rmatch_content_body;
    [done | done | cbn; by rewrite Nat.sub_0_r, take_app_length |]. step.
  rewrite rmatch_seq. unfold re_closing. rewrite rmatch_group, rmatch_seq.
  unfold closing_text at 1. rewrite rmatch_char.
  rewrite <- (app_nil_r (close_tail_text tag)) at 1.
  rewrite rmatch_close_tail_accepts
    by (cbn; by rewrite Nat.sub_0_r, take_app_length).
  step.
  rewrite rmatch_empty. step.
  rewrite (proj2 (Nat.eqb_neq _ _)) by lia.
  rewrite rmatch_empty. step.
  rewrite rmatch_seq, rmatch_group, rmatch_seq.
  rewrite rmatch_optional_absent by done.
  rewrite !rmatch_empty. step.
  f_equal. f_equal.
  - unfold closing_text, close_tail_text. cbn [length].
    repeat (rewrite length_app; cbn [length]). unfold char in *. lia.
  - cbn. rewrite ?Nat.sub_0_r, ?Nat.add_0_r.
    replace (length tag + length a - length tag) with (length a) by lia.
    replace (length tag + length a + length content - (length tag + length a))
      with (length content) by lia.
    rewrite Nat.sub_diag.
    rewrite !take_0, (take_app_length tag), (take_app_length a),
      (take_app_length content).
    rewrite take_ge; [reflexivity|].
    unfold closing_text, close_tail_text. cbn [length]. rewrite length_app.
    cbn [length]. unfold char in *. lia.
Qed.

Definition closed_match_with (tag a content : jstring) : Match :=
  mkMatch 0 (closed_text_with tag a content)
    [Some []; Some tag; Some a; None; Some content; Some (closing_text tag); Some []].

Lemma exec_closed_with (tag a content : jstring) :
  tag <> [] ->
  forallb tag_char tag = true ->
  no_bracket a = true ->
  last a <> Some 47%N ->
  ends_tag a ->
  no_closing tag content ->
  exec_global (tag_pattern tag) (closed_text_with tag a content) 0
  = (Some (closed_match_with tag a content), length (closed_text_with tag a content)).
Proof.
  intros Hne Ht Ha Hlast Hends Hno.
  destruct (rmatch_closed_with tag a content Hne Ht Ha Hlast Hends Hno) as [prev Hm].
  unfold exec_global. cbn [Nat.ltb Nat.leb tag_pattern p_re p_groups].
  rewrite take_0, drop_0. cbn [last_char last].
  rewrite (scan_here _ _ _ _ _ _ Hm). cbn [ms_end ms_caps].
  rewrite Nat.sub_0_r, firstn_all. reflexivity.
Qed.

(** *** What [string] writes for the attributes *)

(** A numeric value is written between quotes when it holds white space. *)
Definition tok_of_numeric (v : jstring) : Tok :=
  if test Shortcode.prototype.space_pattern v then TQuoted v else TBare v.

Definition tok_of_named (kv : jstring * jstring) : Tok := TNamed (fst kv) (snd kv).

(** The tokens of the attributes, in the order [string] writes them: the
    numeric values, then the named ones. *)
Definition tokens (named : list (jstring * jstring)) (numeric : list jstring) : list Tok :=
  map tok_of_numeric numeric ++ map tok_of_named named.

Definition attrs_text (named : list (jstring * jstring)) (numeric : list jstring)
  : jstring :=
  sep_text (tokens named numeric).

(** The properties of a [named] object whose values are the given strings. *)
Definition named_props (named : list (jstring * jstring)) : list (jstring * Val) :=
  map (fun kv => (fst kv, VStr (snd kv))) named.

Lemma sep_text_app (a b : list Tok) : sep_text (a ++ b) = sep_text a ++ sep_text b.
Proof.
  induction a as [|t a IH]; [done|]. cbn [app sep_text]. by rewrite IH, <- app_assoc.
Qed.

Lemma test_space (v : jstring) :
  test Shortcode.prototype.space_pattern v = existsb is_space v.
Proof.
  unfold test. cbn [Shortcode.prototype.space_pattern p_re p_groups].
  assert (H : forall prev i,
            match scan (RSeq (RClass false [CSpace true]) REmpty) 0 prev v i with
            | Some _ => true
            | None => false
            end = existsb is_space v); [|apply H].
  induction v as [|c v IH]; intros prev i; [done|].
  cbn [scan rmatch existsb]. unfold step_char. cbn [ms_rest].
  rewrite class_space. destruct (is_space c); [done|]. apply IH.
Qed.

Lemma foldM_string_numeric (numeric : list jstring) :
  forall (entries : list (Val * Val)) (text : jstring) (w : World),
    map snd entries = map VStr numeric ->
    foldM Shortcode.prototype.string_numeric entries text w
    = (Ok (text ++ sep_text (map tok_of_numeric numeric)), w).
Proof.
  induction numeric as [|v numeric IH]; intros [|[key val] entries] text w H; try done.
  - cbn. by rewrite app_nil_r.
  - cbn [map snd] in H. injection H as -> H.
    cbn [foldM]. unfold bind at 1, Shortcode.prototype.string_numeric, bind, lift.
    cbn [snd to_string]. unfold ret at 1. cbn [map sep_text]. unfold tok_of_numeric at 1.
    destruct (test Shortcode.prototype.space_pattern v); unfold ret; cbn [written];
      rewrite (IH _ _ _ H); do 2 f_equal;
      change (js " ") with [32%N]; unfold dq; rewrite <- ?app_assoc; cbn [app];
      rewrite <- ?app_assoc; cbn [app]; reflexivity.
Qed.

Lemma foldM_string_named (named : list (jstring * jstring)) :
  forall (text : jstring) (w : World),
    foldM Shortcode.prototype.string_named
      (map (fun kv => (VStr (fst kv), snd kv)) (named_props named)) text w
    = (Ok (text ++ sep_text (map tok_of_named named)), w).
Proof.
  induction named as [|[k v] named IH]; intros text w.
  - cbn. by rewrite app_nil_r.
  - cbn [named_props map fst snd foldM].
    unfold bind at 1, Shortcode.prototype.string_named, bind, lift.
    cbn [fst snd to_string]. unfold ret. fold (named_props named).
    rewrite IH. do 2 f_equal. cbn [sep_text tok_of_named written fst snd].
    change (js " ") with [32%N]. change (js "=") with [61%N]. unfold dq.
    rewrite <- ?app_assoc. cbn [app]. rewrite <- ?app_assoc. cbn [app]. reflexivity.
Qed.

Lemma map_snd_imap {A B} (f : nat -> B) (l : list A) :
  map snd (imap (fun i v => (f i, v)) l) = l.
Proof.
  revert f. induction l as [|a l IH]; intros f; [done|].
  cbn [imap map snd]. f_equal. apply (IH (f ∘ S)).
Qed.

Lemma prop_get_named_props (named : list (jstring * jstring)) (k : jstring) (n : N) :
  prop_get (named_props named) k <> Some (VNum n).
Proof.
  induction named as [|[k' v] named IH]; [done|].
  cbn [named_props map prop_get fst snd]. by destruct (jstring_eqb k' k).
Qed.

(** The serialization of a closed shortcode whose attributes are strings. *)
Lemma string_closed_with (w : World) (t : ShortcodeObj) (tag content : jstring)
    (named : list (jstring * jstring)) (numeric : list jstring) :
  attrs_view w (sc_attrs t) = Some (named_props named, map VStr numeric) ->
  sc_tag t = VStr tag ->
  sc_type t = VStr (js "closed") ->
  sc_content t = VStr content ->
  Shortcode.prototype.string t w
  = (Ok (closed_text_with tag (attrs_text named numeric) content), w).
Proof.
  intros Hv Htag Hty Hco. unfold attrs_view in Hv.
  destruct (w_heap w !! sc_attrs t) as [[props| |]|] eqn:Ea; try done.
  destruct (prop_get props (js "named")) as [[| | |ln]|] eqn:En; try done.
  destruct (prop_get props (js "numeric")) as [[| | |lm]|] eqn:Em; try done.
  destruct (w_heap w !! ln) as [[named'| |]|] eqn:Eln; try done.
  destruct (w_heap w !! lm) as [[|numeric'|]|] eqn:Elm; try done.
  inversion Hv; subst named' numeric'.
  unfold Shortcode.prototype.string. rewrite Htag, Hty, Hco.
  cbn [to_string lift]. rewrite bind_ret.
  rewrite (bind_ok _ _ _ _ _ (load_ok _ _ _ Ea)).
  rewrite Em, En. cbn [default].
  rewrite (bind_ok _ _ _ _ _ (entries_of_ref _ _ _ Elm)).
  cbn [entries_of_cell].
  rewrite (bind_ok _ _ _ _ _
             (foldM_string_numeric numeric _ _ _
                (map_snd_imap (fun i => VNum (N.of_nat i)) (map VStr numeric)))).
  rewrite (bind_ok _ _ _ _ _ (entries_of_ref _ _ _ Eln)).
  assert (He : entries_of_cell (CObj (named_props named))
               = map (fun kv => (VStr (fst kv), snd kv)) (named_props named)).
  { unfold entries_of_cell.
    destruct (prop_get (named_props named) (js "length")) as [[| |n|]|] eqn:E; try done.
    by destruct (prop_get_named_props named (js "length") n). }
  rewrite He, (bind_ok _ _ _ _ _ (foldM_string_named named _ _)).
  change (strict_eq_str (VStr (js "closed")) (js "single")) with false.
  change (strict_eq_str (VStr (js "closed")) (js "self-closing")) with false.
  cbv iota. cbn [truthy].
  unfold closed_text_with, attrs_text, tokens, closing_text, close_tail_text.
  rewrite sep_text_app.
  change (js "[") with [91%N]. change (js "]") with [93%N].
  change (js "[/") with [91%N; 47%N].
  destruct content as [|c content].
  - change (negb (jstring_eqb [] [])) with false. cbv iota.
    unfold bind, ret. cbn [app]. rewrite <- !app_assoc. reflexivity.
  - assert (Hne : negb (jstring_eqb (c :: content) []) = true).
    { unfold jstring_eqb. by rewrite bool_decide_eq_false_2. }
    rewrite Hne. cbn [lift to_string].
    unfold bind, ret. cbn [app]. rewrite <- !app_assoc. reflexivity.
Qed.

(** *** The attributes that come back as written *)

(** A character of a value: no closing bracket, and neither U+00A0 nor
    U+200B, which the parser turns into spaces. *)
Definition value_char (c : char) : bool := negb (c =? 93)%N && negb (is_odd_space c).

(** The name of a named attribute: word characters, not empty, lower-cased. *)
Definition plain_name (k : jstring) : Prop :=
  k <> [] /\ forallb is_word k = true /\ lower_cased k.

(** The value of a named attribute: written between quotes, it holds none. *)
Definition plain_value (v : jstring) : Prop :=
  forallb value_char v = true /\ no_quote v = true.

(** A numeric value: not empty; with white space it is written between
    quotes and holds none; without, it is written bare: it does not start
    with a quote, after its leading word characters it does not go on with
    an equals sign, and it does not end with a slash. *)
Definition plain_numeric (v : jstring) : Prop :=
  v <> [] /\ forallb value_char v = true
  /\ if existsb is_space v then no_quote v = true
     else head v <> Some 34%N /\ head (skip is_word v) <> Some 61%N
          /\ last v <> Some 47%N.

(** What the parser makes of a text, the cache left aside. *)
Definition parsed (text : jstring) : option (list (jstring * Val) * list Val) :=
  match replace_global Shortcode.spaces_pattern text (js " ") with
  | Some text' => Shortcode.attrs_loop (S (length text')) text' 0 [] []
  | None => None
  end.

(** Every parse the cache holds still reads as the parser made it. *)
Definition attrs_cache_unaltered (w : World) : Prop :=
  forall text l, w_attrs w !! text = Some l -> attrs_view w l = parsed text.

Lemma tok_ok_numeric (v : jstring) : plain_numeric v -> tok_ok (tok_of_numeric v).
Proof.
  intros (Hne & _ & H). unfold tok_of_numeric. rewrite test_space.
  destruct (existsb is_space v) eqn:E; cbn [tok_ok]; [done|].
  destruct H as (Hq & He & _). done.
Qed.

Lemma tok_ok_named (kv : jstring * jstring) :
  plain_name (fst kv) -> plain_value (snd kv) -> tok_ok (tok_of_named kv).
Proof. intros (Hne & Hw & _) [_ Hq]. done. Qed.

Lemma tokens_ok (named : list (jstring * jstring)) (numeric : list jstring) :
  Forall plain_numeric numeric ->
  Forall plain_name (map fst named) ->
  Forall plain_value (map snd named) ->
  Forall tok_ok (tokens named numeric).
Proof.
  intros Hnum Hk Hv. unfold tokens. apply Forall_app. split.
  - induction Hnum as [|v numeric Hv' _ IH]; [constructor|].
    cbn [map]. constructor; [by apply tok_ok_numeric | done].
  - induction named as [|kv named IH]; [constructor|].
    cbn [map] in *. inversion Hk; inversion Hv; subst.
    constructor; [by apply tok_ok_named | by apply IH].
Qed.

(** The characters of a token. *)
Definition tok_chars (f : char -> bool) (t : Tok) : bool :=
  match t with
  | TNamed k v => forallb f k && forallb f v
  | TQuoted v | TBare v => forallb f v
  end.

Lemma forallb_sep_text (f : char -> bool) (ts : list Tok) :
  f 32%N = true -> f 34%N = true -> f 61%N = true ->
  forallb (tok_chars f) ts = true ->
  forallb f (sep_text ts) = true.
Proof.
  intros H32 H34 H61. induction ts as [|t ts IH]; [done|].
  cbn [forallb sep_text]. intros H. apply andb_true_iff in H as [Ht Hts].
  rewrite H32, forallb_app, (IH Hts), andb_true_r. cbn [andb].
  destruct t as [k v | v | v]; cbn [tok_chars written] in *.
  - apply andb_true_iff in Ht as [Hk Hv].
    rewrite forallb_app. cbn [forallb]. rewrite forallb_app. cbn [forallb].
    by rewrite Hk, Hv, H61, H34.
  - cbn [forallb]. rewrite forallb_app. cbn [forallb]. by rewrite Ht, H34.
  - done.
Qed.

Lemma word_value_char (c : char) : is_word c = true -> value_char c = true.
Proof.
  intros Hw. unfold value_char, is_odd_space.
  destruct (N.eqb_spec c 93) as [->|_]; [done|].
  destruct (N.eqb_spec c 160) as [->|_]; [done|].
  destruct (N.eqb_spec c 8203) as [->|_]; done.
Qed.

Lemma tokens_value_chars (named : list (jstring * jstring)) (numeric : list jstring) :
  Forall plain_numeric numeric ->
  Forall plain_name (map fst named) ->
  Forall plain_value (map snd named) ->
  forallb (tok_chars value_char) (tokens named numeric) = true.
Proof.
  intros Hnum Hk Hv. unfold tokens. rewrite forallb_app. apply andb_true_iff. split.
  - induction Hnum as [|v numeric (_ & Hc & _) _ IH]; [done|].
    cbn [map forallb]. rewrite IH, andb_true_r.
    unfold tok_of_numeric. by destruct (test _ _).
  - induction named as [|kv named IH]; [done|].
    cbn [map forallb] in *. inversion Hk as [|? ? (_ & Hw & _) Hk']; subst.
    inversion Hv as [|? ? [Hc _] Hv']; subst.
    rewrite (IH Hk' Hv'), andb_true_r. cbn [tok_of_named tok_chars].
    rewrite Hc, andb_true_r.
    clear -Hw. induction (fst kv) as [|c k IHk]; [done|].
    cbn [forallb] in *. apply andb_true_iff in Hw as [Hc Hk].
    by rewrite (word_value_char c Hc), (IHk Hk).
Qed.

Lemma plain_spaces_plain (s : jstring) :
  forallb value_char s = true -> plain_spaces s = s.
Proof.
  induction s as [|c s IH]; [done|]. cbn [forallb]. intros H.
  apply andb_true_iff in H as [Hc Hs]. unfold plain_spaces in *. cbn [map].
  rewrite (IH Hs). unfold value_char in Hc. apply andb_true_iff in Hc as [_ Hc].
  by destruct (is_odd_space c).
Qed.

Lemma forallb_weaken (f g : char -> bool) (s : jstring) :
  (forall c, f c = true -> g c = true) -> forallb f s = true -> forallb g s = true.
Proof.
  intros Hfg. induction s as [|c s IH]; [done|]. cbn [forallb]. intros H.
  apply andb_true_iff in H as [Hc Hs]. by rewrite (Hfg c Hc), (IH Hs).
Qed.

Lemma ends_tag_sep_text (ts : list Tok) : ends_tag (sep_text ts).
Proof. destruct ts as [|t ts]; [by left|]. right. by eexists _, _. Qed.

Lemma last_sep_text (ts : list Tok) :
  Forall (fun t => last (written t) <> Some 47%N) ts ->
  last (sep_text ts) <> Some 47%N.
Proof.
  induction ts as [|t ts IH]; intros H; [done|].
  inversion H as [|? ? Ht Hts]; subst. cbn [sep_text].
  rewrite last_cons, last_app. specialize (IH Hts).
  destruct (last (sep_text ts)) as [c|] eqn:E; [intros [= ->]; by apply IH|].
  destruct (last (written t)) as [c|] eqn:E2; [intros [= ->]; by apply Ht | done].
Qed.

Lemma tokens_last (named : list (jstring * jstring)) (numeric : list jstring) :
  Forall plain_numeric numeric ->
  Forall (fun t => last (written t) <> Some 47%N) (tokens named numeric).
Proof.
  intros Hnum. unfold tokens. apply Forall_app. split.
  - induction Hnum as [|v numeric (_ & _ & H) _ IH]; [constructor|].
    cbn [map]. constructor; [|done]. unfold tok_of_numeric. rewrite test_space.
    destruct (existsb is_space v); cbn [written].
    + rewrite last_cons, last_app. cbn [last]. done.
    + by destruct H as (_ & _ & H).
  - apply Forall_forall. intros t Ht. apply list_elem_of_fmap in Ht as (kv & -> & _).
    cbn [tok_of_named written]. rewrite last_app, last_cons, last_cons, last_app.
    cbn [last]. done.
Qed.

(** The parser files the tokens of the attributes as the attributes
    themselves. *)
Lemma file_all_tokens (named : list (jstring * jstring)) (numeric : list jstring) :
  Forall plain_name (map fst named) ->
  assign_all (named_props named) [] = named_props named ->
  file_all (tokens named numeric) ([], []) = (named_props named, map VStr numeric).
Proof.
  intros Hk Hassign. unfold file_all, tokens. rewrite fold_left_app.
  assert (Hnum : forall acc,
            fold_left (fun acc t => file_tok t acc) (map tok_of_numeric numeric) acc
            = (fst acc, snd acc ++ map VStr numeric)).
  { induction numeric as [|v numeric IH]; intros acc.
    - cbn. rewrite app_nil_r. by destruct acc.
    - cbn [map fold_left]. rewrite IH. unfold tok_of_numeric.
      destruct (test _ _); cbn [file_tok fst snd]; by rewrite <- app_assoc. }
  rewrite Hnum. cbn [fst snd app].
  assert (Hnamed : forall named0 acc,
            Forall plain_name (map fst named0) ->
            fold_left (fun acc t => file_tok t acc) (map tok_of_named named0) acc
            = (assign_all (named_props named0) (fst acc), snd acc)).
  { induction named0 as [|[k v] named0 IH]; intros acc Hk0.
    - cbn. by destruct acc.
    - cbn [map fst] in Hk0. inversion Hk0 as [|? ? (_ & _ & Hlow) Hk0']; subst.
      cbn [map fold_left tok_of_named file_tok fst snd named_props].
      rewrite (IH _ Hk0'). unfold lower_cased in Hlow. by rewrite Hlow. }
  rewrite (Hnamed _ _ Hk). cbn [fst snd]. by rewrite Hassign.
Qed.

Lemma sep_text_nil (ts : list Tok) : sep_text ts = [] -> ts = [].
Proof. by destruct ts. Qed.

Lemma parsed_attrs_text (named : list (jstring * jstring)) (numeric : list jstring) :
  Forall plain_numeric numeric ->
  Forall plain_name (map fst named) ->
  Forall plain_value (map snd named) ->
  assign_all (named_props named) [] = named_props named ->
  parsed (attrs_text named numeric) = Some (named_props named, map VStr numeric).
Proof.
  intros Hnum Hk Hv Hassign. unfold parsed.
  rewrite replace_global_spaces, plain_spaces_plain.
  - unfold attrs_text. rewrite attrs_loop_written by by apply tokens_ok.
    by rewrite file_all_tokens.
  - apply forallb_sep_text; [done..|]. by apply tokens_value_chars.
Qed.

Lemma attrs_reads (u : World) (text : jstring) v :
  (forall l, w_attrs u !! text = Some l -> attrs_view u l = Some v) ->
  parsed text = Some v ->
  exists l u', Shortcode.attrs text u = (Ok l, u') /\ attrs_view u' l = Some v.
Proof.
  intros Hcache Hp. destruct (w_attrs u !! text) as [l|] eqn:Ec.
  - exists l, u. split; [by apply attrs_hit | by apply Hcache].
  - unfold parsed in Hp.
    destruct (replace_global Shortcode.spaces_pattern text (js " ")) as [text'|] eqn:Er;
      [|done].
    destruct v as [named numeric]. do 2 eexists.
    rewrite (attrs_miss _ _ _ _ _ Ec Er Hp). split; [reflexivity|].
    apply attrs_view_parsed.
Qed.

(** C6, amended: take a closed shortcode whose tag is a non-empty name of
    word characters and hyphens, whose content holds no closing tag of its
    own, and whose attributes are strings that the parser reads back as
    they are written: the named ones have plain names, are held in the
    order an object enumerates them and have values without quote, closing
    bracket, U+00A0 and U+200B; the numeric ones are plain.  In a store
    where no cached parse has been altered, it is serialized as opening tag
    with the attribute list, content, closing tag; [next] finds this text
    whole at index 0, and the shortcode it reports is serialized to the
    same text. *)
Theorem closed_round_trip (w : World) (t : ShortcodeObj) (tag content : jstring)
    (named : list (jstring * jstring)) (numeric : list jstring) :
  regexp_cache_ok w ->
  attrs_cache_unaltered w ->
  tag <> [] ->
  forallb tag_char tag = true ->
  no_closing tag content ->
  sc_tag t = VStr tag ->
  sc_type t = VStr (js "closed") ->
  sc_content t = VStr content ->
  attrs_view w (sc_attrs t) = Some (named_props named, map VStr numeric) ->
  Forall plain_numeric numeric ->
  Forall plain_name (map fst named) ->
  Forall plain_value (map snd named) ->
  assign_all (named_props named) [] = named_props named ->
  exists s r w1,
    s = js "[" ++ tag ++ attrs_text named numeric ++ js "]" ++ content
        ++ js "[/" ++ tag ++ js "]"
    /\ Shortcode.prototype.string t w = (Ok s, w)
    /\ Shortcode.next tag s None w = (Ok (Some r), w1)
    /\ Shortcode.index r = 0
    /\ Shortcode.content r = s
    /\ Shortcode.prototype.string (Shortcode.shortcode r) w1 = (Ok s, w1).
Proof.
  intros Hok Hcache Hne Ht Hno Htag Hty Hco Hv Hnum Hk Hval Hassign.
  change (js "[" ++ tag ++ attrs_text named numeric ++ js "]" ++ content
          ++ js "[/" ++ tag ++ js "]")
    with (closed_text_with tag (attrs_text named numeric) content).
  assert (Hchars : forallb value_char (attrs_text named numeric) = true).
  { apply forallb_sep_text; [done..|]. by apply tokens_value_chars. }
  assert (Ha : no_bracket (attrs_text named numeric) = true).
  { eapply forallb_weaken; [|exact Hchars]. intros c Hc.
    unfold value_char in Hc. by apply andb_true_iff in Hc as [Hc _]. }
  pose proof (last_sep_text _ (tokens_last named numeric Hnum)) as Hlast.
  fold (attrs_text named numeric) in Hlast.
  pose proof (ends_tag_sep_text (tokens named numeric)) as Hends.
  pose proof (parsed_attrs_text named numeric Hnum Hk Hval Hassign) as Hparsed.
  assert (Hnil : attrs_text named numeric = [] -> named = [] /\ numeric = []).
  { intros E. apply sep_text_nil in E. unfold tokens in E.
    apply app_eq_nil in E as [E1 E2]. apply map_eq_nil in E1, E2. by subst. }
  fold (attrs_text named numeric) in Hends.
  pose proof (string_closed_with w t tag content named numeric Hv Htag Hty Hco) as Hs.
  assert (Hs' : forall w1 sc,
            attrs_view w1 (sc_attrs sc) = Some (named_props named, map VStr numeric) ->
            sc_tag sc = VStr tag -> sc_type sc = VStr (js "closed") ->
            sc_content sc = VStr content ->
            Shortcode.prototype.string sc w1
            = (Ok (closed_text_with tag (attrs_text named numeric) content), w1)).
  { intros w1 sc. apply string_closed_with. }
  remember (attrs_text named numeric) as a eqn:Ea. clear Ea.
  destruct (regexp_ready w tag _ Hok (compile_tag tag Ht))
    as (re & wA & Hr & Hat & HattrsA & HheapA).
  pose proof (exec_closed_with tag a content Hne Ht Ha Hlast Hends Hno) as He.
  pose (u := set_lastIndex wA re (tag_pattern tag)
               (length (closed_text_with tag a content))).
  assert (Hfrom : exists sc w1,
            Shortcode.fromMatch (match_array (closed_match_with tag a content)) u
            = (Ok sc, w1)
            /\ sc_tag sc = VStr tag /\ sc_type sc = VStr (js "closed")
            /\ sc_content sc = VStr content
            /\ attrs_view w1 (sc_attrs sc) = Some (named_props named, map VStr numeric)).
  { unfold Shortcode.fromMatch. rewrite construct_unfold. cbv zeta.
    change (arg (match_array (closed_match_with tag a content)) 2) with (VStr tag).
    change (arg (match_array (closed_match_with tag a content)) 3) with (VStr a).
    change (arg (match_array (closed_match_with tag a content)) 4) with VUndef.
    change (arg (match_array (closed_match_with tag a content)) 5) with (VStr content).
    change (arg (match_array (closed_match_with tag a content)) 6)
      with (VStr (closing_text tag)).
    cbn [o_tag o_attrs o_type o_content].
    change (truthy VUndef) with false. change (truthy (VStr (closing_text tag))) with true.
    cbv iota.
    destruct (truthy (VStr a)) eqn:Etr; cbn [negb]; cbv iota.
    - destruct (attrs_reads (with_default_attrs u) a
                  (named_props named, map VStr numeric)) as (l & u' & Hattrs & Hview).
      + intros l Hl. cbn [with_default_attrs u set_lastIndex w_attrs] in Hl.
        rewrite HattrsA in Hl. pose proof (Hcache _ _ Hl) as Hw.
        rewrite Hparsed in Hw. apply attrs_view_with_default_attrs.
        destruct Hat as [_ [j Hre]].
        unfold u. rewrite (attrs_view_set_lastIndex _ _ _ _ _ _ Hre).
        by apply (attrs_view_extend w).
      + exact Hparsed.
      + rewrite (bind_ok _ _ _ _ _ Hattrs). do 2 eexists. split; [reflexivity|].
        cbn [Shortcode.with_attrs sc_tag sc_type sc_content sc_attrs]. by repeat split.
    - assert (a = []) as Hnila.
      { cbn [truthy] in Etr. apply negb_false_iff in Etr.
        unfold jstring_eqb in Etr. by apply bool_decide_eq_true_1 in Etr. }
      destruct (Hnil Hnila) as [-> ->].
      do 2 eexists. split; [reflexivity|]. cbn [sc_tag sc_type sc_content sc_attrs].
      repeat split. by rewrite attrs_view_default. }
  destruct Hfrom as (sc & w1 & Hfrom & Htag' & Hty' & Hco' & Hview).
  do 3 eexists. split; [reflexivity|]. split; [exact Hs|].
  rewrite (next_known_pattern _ _ _ _ _ _ _ Hr Hat). cbn [default].
  erewrite next_known_found; [|exact He|reflexivity].
  fold u. rewrite (bind_ok _ _ _ _ _ Hfrom).
  split; [reflexivity|]. split; [reflexivity|]. split; [reflexivity|].
  rewrite shortcode_report. by apply Hs'.
Qed.

(** The shortcode [[x loud "two words" url="http://a.b/c"]a[b]c[/x]]: its
    attribute object at 0, the named attributes at 1, the numeric ones
    at 2. *)
Definition attributed_world : World :=
  mkWorld [CObj [(js "named", VRef 1); (js "numeric", VRef 2)];
           CObj [(js "url", VStr (js "http://a.b/c"))];
           CArr [VStr (js "loud"); VStr (js "two words")]] ∅ ∅.

Definition attributed_closed : ShortcodeObj :=
  mkShortcode (VStr (js "x")) 0 (VStr (js "closed")) (VStr (js "a[b]c")).

Lemma closed_round_trip_witness :
  exists s r w1,
    s = js "[" ++ js "x"
        ++ attrs_text [(js "url", js "http://a.b/c")] [js "loud"; js "two words"]
        ++ js "]" ++ js "a[b]c" ++ js "[/" ++ js "x" ++ js "]"
    /\ Shortcode.prototype.string attributed_closed attributed_world
       = (Ok s, attributed_world)
    /\ Shortcode.next (js "x") s None attributed_world = (Ok (Some r), w1)
    /\ Shortcode.index r = 0
    /\ Shortcode.content r = s
    /\ Shortcode.prototype.string (Shortcode.shortcode r) w1 = (Ok s, w1).
Proof.
  apply (closed_round_trip attributed_world attributed_closed (js "x") (js "a[b]c")
           [(js "url", js "http://a.b/c")] [js "loud"; js "two words"]).
  - intros tag l H. cbn in H. by rewrite lookup_empty in H.
  - intros text l H. cbn in H. by rewrite lookup_empty in H.
  - discriminate.
  - reflexivity.
  - intros a b H. vm_compute in H.
    repeat (destruct a as [|? a]; cbn in H; [discriminate | injection H as ? H]).
    destruct a; discriminate.
  - reflexivity.
  - reflexivity.
  - reflexivity.
  - reflexivity.
  - repeat constructor; vm_compute; discriminate.
  - repeat constructor; vm_compute; discriminate.
  - repeat constructor.
  - reflexivity.
Defined.
